(** * yolo-vision: the renderer of [src/renderer.js], embedded and verified

    The development follows the first [Renderer] class of [src/renderer.js]
    (the variant with background replacement and mask smoothing).  It
    also embeds the [Detector] class of [src/detector.js], [setDetectMode]
    of [src/app.js], and the mask drawing of the second [Renderer] class
    of [src/renderer.js] (module [Overlay]).

    - JavaScript numbers are IEEE 754 binary64 values: they are modelled by
      [spec_float] with the operations of the Standard Library's [SpecFloat]
      at precision 53 (module [F64]).  A [Float32Array] cell is a binary32
      value (module [F32]); a [Uint8ClampedArray] or [Uint8Array] cell is a
      [byte].
    - Typed arrays are lists; an indexed store is stdpp's [<[i:=v]>], which
      like a typed array ignores a store past the end.
    - Loop counters, array lengths and the integer index arithmetic built
      from them are written in [nat] and [Z]: these integers stay far below
      2^53, where binary64 arithmetic is exact.  Divisions, blends and
      thresholds are computed in [F64]. *)

From Stdlib Require Import ZArith Bool Lia.
From Stdlib Require Import Strings.Byte Strings.Ascii Strings.String.
From Stdlib Require Import Floats.SpecFloat.
From stdpp Require Import base list strings gmap.

Local Open Scope Z_scope.

(** ** Numbers *)

Module F64.
Definition prec : Z := 53.
Definition emax : Z := 1024.

Definition of_Z (z : Z) : spec_float := binary_normalize prec emax z 0 false.
Definition of_nat (n : nat) : spec_float := of_Z (Z.of_nat n).

Definition add : spec_float -> spec_float -> spec_float := SFadd prec emax.
Definition sub : spec_float -> spec_float -> spec_float := SFsub prec emax.
Definition mul : spec_float -> spec_float -> spec_float := SFmul prec emax.
Definition div : spec_float -> spec_float -> spec_float := SFdiv prec emax.

(** [a === b] and [a > b] on numbers. *)
Definition eqb (a b : spec_float) : bool := SFeqb a b.
Definition gtb (a b : spec_float) : bool := SFltb b a.

Definition zero : spec_float := S754_zero false.
Definition one : spec_float := of_Z 1.
Definition NaN : spec_float := S754_nan.

(** A decimal literal [n/d] such as [0.4]: the binary64 value nearest to
    the quotient, which is what the correctly rounded division returns. *)
Definition lit (n d : Z) : spec_float := div (of_Z n) (of_Z d).

(** [Math.floor]. *)
Definition floor (x : spec_float) : spec_float :=
  match x with
  | S754_finite s m e =>
      if 0 <=? e then x
      else binary_normalize prec emax
             (Z.shiftr (cond_Zopp s (Zpos m)) (- e)) 0 s
  | _ => x
  end.

(** The integer a number denotes, when it denotes one. *)
Definition to_int (x : spec_float) : option Z :=
  match x with
  | S754_zero _ => Some 0
  | S754_finite s m e =>
      if 0 <=? e then Some (cond_Zopp s (Zpos m * 2 ^ e))
      else if Zpos m mod 2 ^ (- e) =? 0
           then Some (cond_Zopp s (Zpos m / 2 ^ (- e)))
           else None
  | _ => None
  end.

(** [max a b] of [Math.max]: NaN if either is NaN. *)
Definition max (a b : spec_float) : spec_float :=
  match SFcompare a b with
  | None => S754_nan
  | Some Lt => b
  | Some Eq => match a with S754_zero true => b | _ => a end
  | Some Gt => a
  end.
End F64.

Module F32.
Definition prec : Z := 24.
Definition emax : Z := 128.

(** The value a [Float32Array] cell holds after a number is stored in
    it: the number rounded to binary32 (ties to even), read back as a
    number. *)
Definition round (x : spec_float) : spec_float :=
  match x with
  | S754_finite s m e =>
      match binary_round prec emax s m e with
      | S754_finite s' m' e' => binary_round F64.prec F64.emax s' m' e'
      | y => y
      end
  | _ => x
  end.
End F32.

(** ** Typed arrays *)

Definition Z_of_byte (b : byte) : Z := Z.of_N (Byte.to_N b).

Definition byte_of_Z (z : Z) : byte :=
  match Byte.of_N (Z.to_N z) with Some b => b | None => Byte.x00 end.

(** The conversion applied by a store into a [Uint8ClampedArray]
    (ECMAScript ToUint8Clamp): NaN becomes 0, the value is clamped to
    [0, 255], and a value halfway between two integers goes to the even
    one. *)
Definition ToUint8Clamp (v : spec_float) : byte :=
  match v with
  | S754_nan => Byte.x00
  | S754_zero _ => Byte.x00
  | S754_infinity s => if s then Byte.x00 else Byte.xff
  | S754_finite true _ _ => Byte.x00
  | S754_finite false m e =>
      if 0 <=? e then byte_of_Z (Z.min 255 (Zpos m * 2 ^ e))
      else
        let q := Zpos m / 2 ^ (- e) in
        let r := Zpos m mod 2 ^ (- e) in
        let half := 2 ^ (- e - 1) in
        if 255 <=? q then Byte.xff
        else match r ?= half with
             | Lt => byte_of_Z q
             | Gt => byte_of_Z (q + 1)
             | Eq => if Z.even q then byte_of_Z q else byte_of_Z (q + 1)
             end
  end.

(** Reading [a[i]]: [undefined] (here [None]) when [i] is not an index of
    the array. *)
Definition get {A} (a : list A) (i : option Z) : option A :=
  match i with
  | Some z => if 0 <=? z then a !! Z.to_nat z else None
  | None => None
  end.

(** [a[i] === b] for a cell read from a [Uint8Array]. *)
Definition cell_is (v : option byte) (b : byte) : bool :=
  match v with
  | Some c => Byte.eqb c b
  | None => false
  end.

(** The number an array read stands for in arithmetic: [undefined] is
    NaN. *)
Definition num_of_u8 (v : option byte) : spec_float :=
  match v with
  | Some b => F64.of_Z (Z_of_byte b)
  | None => F64.NaN
  end.

Definition num_of_f32 (v : option spec_float) : spec_float :=
  match v with
  | Some x => x
  | None => F64.NaN
  end.

(** [new Float32Array(mask)] for a [Uint8Array] mask. *)
Definition Float32Array_from (mask : list byte) : list spec_float :=
  (fun b => F64.of_Z (Z_of_byte b)) <$> mask.

(** ** Colors *)

Definition is_white_space (c : ascii) : bool :=
  let n := nat_of_ascii c in
  ((9 <=? n) && (n <=? 13) || (n =? 32) || (n =? 160))%nat.

Definition hex_digit (c : ascii) : option Z :=
  let n := Z.of_nat (nat_of_ascii c) in
  if (48 <=? n) && (n <=? 57) then Some (n - 48)
  else if (65 <=? n) && (n <=? 70) then Some (n - 55)
  else if (97 <=? n) && (n <=? 102) then Some (n - 87)
  else None.

Fixpoint skip_white_space (s : string) : string :=
  match s with
  | String c s' => if is_white_space c then skip_white_space s' else s
  | EmptyString => s
  end.

(** The digits of the longest prefix of hexadecimal digits, most
    significant first. *)
Fixpoint hex_prefix (s : string) : list Z :=
  match s with
  | String c s' =>
      match hex_digit c with
      | Some d => d :: hex_prefix s'
      | None => []
      end
  | EmptyString => []
  end.

Definition strip_0x (s : string) : string :=
  match s with
  | String "0" (String "x" s') => s'
  | String "0" (String "X" s') => s'
  | _ => s
  end.

(** [parseInt(s, 16)]. *)
Definition parseInt16 (s : string) : spec_float :=
  let s1 := skip_white_space s in
  let '(neg, s2) :=
    match s1 with
    | String "-" s' => (true, s')
    | String "+" s' => (false, s')
    | _ => (false, s1)
    end in
  match hex_prefix (strip_0x s2) with
  | [] => F64.NaN
  | ds =>
      let n := foldl (fun acc d => 16 * acc + d) 0 ds in
      if neg then SFopp (F64.of_Z n) else F64.of_Z n
  end.

(** [hex.slice(b, e)] for [0 <= b <= e]. *)
Definition slice (b e : nat) (s : string) : string :=
  String.substring b (e - b)%nat s.

Definition hexToRGB (hex : string) : spec_float * spec_float * spec_float :=
  let r := parseInt16 (slice 1 3 hex) in
  let g := parseInt16 (slice 3 5 hex) in
  let b := parseInt16 (slice 5 7 hex) in
  (r, g, b).

(** ** Settings and presets *)

Record Settings := {
  vizMode : string;
  colorMode : string;
  fillColor : string;
  outlineColor : string;
  bgColor : string;
  fillOpacity : spec_float;
  outlineThickness : spec_float;
  showLabels : bool;
  segmentationMode : bool;
  bgReplace : bool;
  smoothing : spec_float
}.

(** An object literal that lists some of the settings, as passed to
    [updateSettings] or stored in the preset table: [None] is a key the
    literal does not have. *)
Record SettingsPatch := {
  p_vizMode : option string;
  p_colorMode : option string;
  p_fillColor : option string;
  p_outlineColor : option string;
  p_bgColor : option string;
  p_fillOpacity : option spec_float;
  p_outlineThickness : option spec_float;
  p_showLabels : option bool;
  p_segmentationMode : option bool;
  p_bgReplace : option bool;
  p_smoothing : option spec_float
}.

Definition empty_patch : SettingsPatch :=
  {| p_vizMode := None; p_colorMode := None; p_fillColor := None;
     p_outlineColor := None; p_bgColor := None; p_fillOpacity := None;
     p_outlineThickness := None; p_showLabels := None;
     p_segmentationMode := None; p_bgReplace := None; p_smoothing := None |}.

(** [Object.assign(settings, patch)]: every key of the patch overwrites
    the setting of that name. *)
Definition Object_assign (s : Settings) (p : SettingsPatch) : Settings :=
  {| vizMode := default (vizMode s) (p_vizMode p);
     colorMode := default (colorMode s) (p_colorMode p);
     fillColor := default (fillColor s) (p_fillColor p);
     outlineColor := default (outlineColor s) (p_outlineColor p);
     bgColor := default (bgColor s) (p_bgColor p);
     fillOpacity := default (fillOpacity s) (p_fillOpacity p);
     outlineThickness := default (outlineThickness s) (p_outlineThickness p);
     showLabels := default (showLabels s) (p_showLabels p);
     segmentationMode := default (segmentationMode s) (p_segmentationMode p);
     bgReplace := default (bgReplace s) (p_bgReplace p);
     smoothing := default (smoothing s) (p_smoothing p) |}.

(** The settings the constructor installs. *)
Definition default_settings : Settings :=
  {| vizMode := "both"; colorMode := "fixed"; fillColor := "#ffffff";
     outlineColor := "#ffffff"; bgColor := "#000000";
     fillOpacity := F64.lit 5 10; outlineThickness := F64.of_Z 3;
     showLabels := true; segmentationMode := true; bgReplace := false;
     smoothing := F64.of_Z 2 |}.

(** One row of the preset table: the five keys every preset lists. *)
Definition preset (fill outline : string) (opacity thickness : spec_float)
    (viz : string) : SettingsPatch :=
  {| p_vizMode := Some viz; p_colorMode := None; p_fillColor := Some fill;
     p_outlineColor := Some outline; p_bgColor := None;
     p_fillOpacity := Some opacity; p_outlineThickness := Some thickness;
     p_showLabels := None; p_segmentationMode := None; p_bgReplace := None;
     p_smoothing := None |}.

Definition presets : gmap string SettingsPatch :=
  list_to_map
    [ ("E", preset "#00ff00" "#39ff14" (F64.lit 4 10) (F64.of_Z 4) "both");
      ("R", preset "#ff0000" "#ff0000" (F64.lit 3 10) (F64.of_Z 5) "outline");
      ("T", preset "#00ff00" "#00aa00" (F64.lit 6 10) (F64.of_Z 2) "both");
      ("Z", preset "#ff00ff" "#00ffff" (F64.lit 5 10) (F64.of_Z 3) "both");
      ("U", preset "#ffffff" "#ffffff" (F64.lit 2 10) (F64.of_Z 2) "outline");
      ("I", preset "#000000" "#ffffff" (F64.lit 8 10) (F64.of_Z 2) "both");
      ("O", preset "#ffa500" "#ff4500" (F64.lit 5 10) (F64.of_Z 4) "both") ].

(** The table is an object literal, so [this.presets[key]] also finds the
    members every object inherits from [Object.prototype].  Each of them
    is a function or an object: truthy, and without enumerable properties
    of its own. *)
Definition Object_prototype : list string :=
  [ "constructor"; "hasOwnProperty"; "isPrototypeOf"; "propertyIsEnumerable";
    "toLocaleString"; "toString"; "valueOf"; "__proto__";
    "__defineGetter__"; "__defineSetter__"; "__lookupGetter__";
    "__lookupSetter__" ].

(** What [this.presets[key]] evaluates to, and what [applyPreset]
    returns. *)
Inductive value :=
  | Preset (p : SettingsPatch)
  | Inherited (name : string)
  | Undefined
  | Null.

Definition presets_get (key : string) : value :=
  match presets !! key with
  | Some p => Preset p
  | None => if bool_decide (key ∈ Object_prototype) then Inherited key
            else Undefined
  end.

(** ** The renderer *)

Record Renderer := {
  canvas_width : nat;
  canvas_height : nat;
  settings : Settings;
  prevMask : option (list spec_float)
}.

Definition set_settings (r : Renderer) (s : Settings) : Renderer :=
  {| canvas_width := canvas_width r; canvas_height := canvas_height r;
     settings := s; prevMask := prevMask r |}.

Definition set_prevMask (r : Renderer) (m : list spec_float) : Renderer :=
  {| canvas_width := canvas_width r; canvas_height := canvas_height r;
     settings := settings r; prevMask := Some m |}.

Definition updateSettings (r : Renderer) (newSettings : SettingsPatch)
    : Renderer :=
  set_settings r (Object_assign (settings r) newSettings).

Definition applyPreset (r : Renderer) (key : string) : Renderer * value :=
  match presets_get key with
  | Preset p => (set_settings r (Object_assign (settings r) p), Preset p)
  | Inherited name =>
      (set_settings r (Object_assign (settings r) empty_patch), Inherited name)
  | _ => (r, Null)
  end.

(** ** Mask processing *)

Definition half : spec_float := F64.lit 5 10.

(** [v > 0.5 ? 1 : 0], stored in a [Uint8Array]. *)
Definition binarize (v : spec_float) : byte :=
  if F64.gtb v half then Byte.x01 else Byte.x00.

(** One round of the loop of [smoothMask]. *)
Definition smooth_cell (factor : spec_float) (currentMask : list byte)
    (st : list spec_float * list byte) (i : nat)
    : list spec_float * list byte :=
  let '(prev, smoothed) := st in
  let blended :=
    F64.add (F64.mul (num_of_f32 (prev !! i)) factor)
            (F64.mul (num_of_u8 (currentMask !! i)) (F64.sub F64.one factor)) in
  (<[i := F32.round blended]> prev, <[i := binarize blended]> smoothed).

(** [smoothMask(currentMask, width, height)]: the new renderer state and
    the returned mask.  The two dimensions are parameters the body never
    reads. *)
Definition smoothMask (r : Renderer) (currentMask : list byte)
    (width height : nat) : Renderer * list byte :=
  let reset := (set_prevMask r (Float32Array_from currentMask), currentMask) in
  if F64.eqb (smoothing (settings r)) F64.zero then reset
  else match prevMask r with
       | None => reset
       | Some prev =>
           if bool_decide (length prev ≠ length currentMask) then reset
           else
             let factor := F64.div (smoothing (settings r)) (F64.of_Z 10) in
             let '(prev', smoothed) :=
               foldl (smooth_cell factor currentMask)
                     (prev, replicate (length currentMask) Byte.x00)
                     (seq 0 (length currentMask)) in
             (set_prevMask r prev', smoothed)
       end.

Definition offsets : list Z := [-1; 0; 1].

Definition in_bounds (width height : nat) (nx ny : Z) : bool :=
  (0 <=? nx) && (nx <? Z.of_nat width) && (0 <=? ny) && (ny <? Z.of_nat height).

(** The 3x3 kernel of [blurMask] at cell [(x, y)]: the sum of the cells
    in bounds and their count. *)
Definition kernel (data : list spec_float) (width height : nat) (x y : nat)
    : spec_float * Z :=
  foldl (fun acc dy =>
    foldl (fun '(sum, count) dx =>
      let nx := Z.of_nat x + dx in
      let ny := Z.of_nat y + dy in
      if in_bounds width height nx ny
      then (F64.add sum (num_of_f32 (data !! Z.to_nat (ny * Z.of_nat width + nx))),
            count + 1)
      else (sum, count)) acc offsets) (F64.zero, 0) offsets.

(** One iteration of the blur: a fresh zeroed [Float32Array] filled cell
    by cell. *)
Definition blur_pass (width height : nat) (data : list spec_float)
    : list spec_float :=
  foldl (fun newData y =>
    foldl (fun newData x =>
      let '(sum, count) := kernel data width height x y in
      <[(y * width + x)%nat := F32.round (F64.div sum (F64.of_Z count))]> newData)
      newData (seq 0 width))
    (replicate (length data) F64.zero) (seq 0 height).

(** How often [for (let iter = 0; iter < n; iter++)] runs its body;
    [None] when it never stops (the counter cannot pass 2^53). *)
Definition trip_count (n : spec_float) : option nat :=
  match n with
  | S754_finite false m e =>
      let c := if 0 <=? e then Zpos m * 2 ^ e
               else (Zpos m + 2 ^ (- e) - 1) / 2 ^ (- e) in
      if 2 ^ 53 <? c then None else Some (Z.to_nat c)
  | S754_infinity false => None
  | _ => Some 0%nat
  end.

(** [blurMask(maskData, width, height, iterations)]; [None] when the loop
    over the iterations never stops. *)
Definition blurMask (maskData : list byte) (width height : nat)
    (iterations : spec_float) : option (list byte) :=
  if F64.eqb iterations F64.zero then Some maskData
  else
    n ← trip_count iterations;
    Some (binarize <$> Nat.iter n (blur_pass width height)
                                (Float32Array_from maskData)).

(** The first lines of [drawSegmentation]: temporal smoothing, then the
    blur with [Math.floor(smoothing / 3)] iterations. *)
Definition process (r : Renderer) (mask : list byte) (width height : nat)
    : Renderer * option (list byte) :=
  let '(r', maskData) := smoothMask r mask width height in
  (r', blurMask maskData width height
         (F64.floor (F64.div (smoothing (settings r')) (F64.of_Z 3)))).

(** ** Outline *)

(** A [fillRect] call with the fill style in force. *)
Record FillRect := {
  fr_color : spec_float * spec_float * spec_float;
  fr_x : spec_float;
  fr_y : spec_float;
  fr_w : spec_float;
  fr_h : spec_float
}.

(** The neighbour scan of [drawOutline] for a cell whose value is 1: both
    loops stop as soon as [isEdge] is set. *)
Definition isEdge (maskData : list byte) (maskWidth maskHeight : nat)
    (x y : nat) : bool :=
  foldl (fun (isEdge : bool) (dy : Z) =>
    if isEdge then isEdge
    else foldl (fun (isEdge : bool) (dx : Z) =>
      if isEdge then isEdge
      else
        let nx := Z.of_nat x + dx in
        let ny := Z.of_nat y + dy in
        if in_bounds maskWidth maskHeight nx ny
        then if cell_is (maskData !! Z.to_nat (ny * Z.of_nat maskWidth + nx))
                        Byte.x00
             then true else isEdge
        else isEdge) isEdge offsets) false offsets.

(** The cells [drawOutline] marks: value 1 and [isEdge] set. *)
Definition edge_cell (maskData : list byte) (maskWidth maskHeight : nat)
    (x y : nat) : bool :=
  cell_is (maskData !! (y * maskWidth + x)%nat) Byte.x01
  && isEdge maskData maskWidth maskHeight x y.

Definition drawOutline (r : Renderer) (maskData : list byte)
    (maskWidth maskHeight : nat) (color : spec_float * spec_float * spec_float)
    : list FillRect :=
  let scaleX := F64.div (F64.of_nat (canvas_width r)) (F64.of_nat maskWidth) in
  let scaleY := F64.div (F64.of_nat (canvas_height r)) (F64.of_nat maskHeight) in
  let thickness := outlineThickness (settings r) in
  y ← seq 0 maskHeight;
  x ← seq 0 maskWidth;
  if edge_cell maskData maskWidth maskHeight x y
  then [ {| fr_color := color;
            fr_x := F64.mul (F64.of_nat x) scaleX;
            fr_y := F64.mul (F64.of_nat y) scaleY;
            fr_w := F64.max scaleX thickness;
            fr_h := F64.max scaleY thickness |} ]
  else [].

(** ** Compositing *)

(** [outputData.data[i] = v]. *)
Definition put (out : list byte) (i : nat) (v : spec_float) : list byte :=
  <[i := ToUint8Clamp v]> out.

(** [vid * (1 - blend) + fill * blend]. *)
Definition blend_channel (vid fill blend : spec_float) : spec_float :=
  F64.add (F64.mul vid (F64.sub F64.one blend)) (F64.mul fill blend).

(** [vizMode === 'fill' || vizMode === 'both']. *)
Definition fills (s : Settings) : bool :=
  String.eqb (vizMode s) "fill" || String.eqb (vizMode s) "both".

(** [vizMode === 'outline' || vizMode === 'both']. *)
Definition outlines (s : Settings) : bool :=
  String.eqb (vizMode s) "outline" || String.eqb (vizMode s) "both".

(** [Math.floor(p / scale)]. *)
Definition mask_coord (p : nat) (scale : spec_float) : spec_float :=
  F64.floor (F64.div (F64.of_nat p) scale).

(** [maskY * width + maskX] as an array index; a coordinate that is NaN
    or infinite gives none. *)
Definition mask_index (maskY maskX : spec_float) (width : nat) : option Z :=
  match F64.to_int maskY, F64.to_int maskX with
  | Some a, Some b => Some (a * Z.of_nat width + b)
  | _, _ => None
  end.

Section Pixel.
Variable s : Settings.
Variables maskData videoData : list byte.
Variables fillRGB bgRGB : spec_float * spec_float * spec_float.
Variable width : nat.
Variables scaleX scaleY : spec_float.
Variable canvasWidth : nat.

(** The body of the pixel loop of [drawSegmentation] at [(x, y)]. *)
Definition draw_pixel (out : list byte) (y x : nat) : list byte :=
  let maskX := mask_coord x scaleX in
  let maskY := mask_coord y scaleY in
  let maskIdx := mask_index maskY maskX width in
  let isSegmented := cell_is (get maskData maskIdx) Byte.x01 in
  let outIdx := ((y * canvasWidth + x) * 4)%nat in
  let vidIdx := (fun i => i * 4) <$> maskIdx in
  let vidR := num_of_u8 (get videoData vidIdx) in
  let vidG := num_of_u8 (get videoData ((fun i => i + 1) <$> vidIdx)) in
  let vidB := num_of_u8 (get videoData ((fun i => i + 2) <$> vidIdx)) in
  let '(fillR, fillG, fillB) := fillRGB in
  let '(bgR, bgG, bgB) := bgRGB in
  let blend := fillOpacity s in
  if bgReplace s then
    if isSegmented then
      let out :=
        if fills s then
          let out := put out outIdx (blend_channel vidR fillR blend) in
          let out := put out (outIdx + 1) (blend_channel vidG fillG blend) in
          put out (outIdx + 2) (blend_channel vidB fillB blend)
        else
          let out := put out outIdx vidR in
          let out := put out (outIdx + 1) vidG in
          put out (outIdx + 2) vidB in
      put out (outIdx + 3) (F64.of_Z 255)
    else
      let out := put out outIdx bgR in
      let out := put out (outIdx + 1) bgG in
      let out := put out (outIdx + 2) bgB in
      put out (outIdx + 3) (F64.of_Z 255)
  else
    let out := put out outIdx vidR in
    let out := put out (outIdx + 1) vidG in
    let out := put out (outIdx + 2) vidB in
    let out := put out (outIdx + 3) (F64.of_Z 255) in
    if isSegmented && fills s then
      let out := put out outIdx (blend_channel vidR fillR blend) in
      let out := put out (outIdx + 1) (blend_channel vidG fillG blend) in
      put out (outIdx + 2) (blend_channel vidB fillB blend)
    else out.

(** The two pixel loops, rows outside. *)
Definition draw_pixels (canvasHeight : nat) (out : list byte) : list byte :=
  foldl (fun out y => foldl (fun out x => draw_pixel out y x) out
                            (seq 0 canvasWidth))
        out (seq 0 canvasHeight).
End Pixel.

(** How a call of [drawSegmentation] ends. *)
Inductive outcome :=
  | Skipped                       (* no segmentation: the early return *)
  | Hangs                         (* the blur loop never stops *)
  | Throws                        (* an image of zero width or height *)
  | Drew (image : list byte) (outline : list FillRect).

(** [drawSegmentation(video, segmentation)].  [videoData] is the frame as
    [getImageData] returns it after [drawImage] scaled it to the mask's
    resolution; [segmentation] is [None] for a missing segmentation or one
    without data.  The image is the buffer handed to [putImageData], the
    outline the [fillRect] calls made after it. *)
Definition drawSegmentation (r : Renderer) (videoData : list byte)
    (segmentation : option (list byte * nat * nat)) : Renderer * outcome :=
  match segmentation with
  | None => (r, Skipped)
  | Some (data, width, height) =>
      let '(r', processed) := process r data width height in
      match processed with
      | None => (r', Hangs)
      | Some maskData =>
          let s := settings r' in
          let fillRGB := hexToRGB (fillColor s) in
          let outlineRGB := hexToRGB (outlineColor s) in
          let bgRGB := hexToRGB (bgColor s) in
          if bool_decide (width = 0 ∨ height = 0
                          ∨ canvas_width r' = 0 ∨ canvas_height r' = 0)%nat
          then (r', Throws)
          else
            let outputData :=
              replicate (canvas_width r' * canvas_height r' * 4) Byte.x00 in
            let scaleX :=
              F64.div (F64.of_nat (canvas_width r')) (F64.of_nat width) in
            let scaleY :=
              F64.div (F64.of_nat (canvas_height r')) (F64.of_nat height) in
            let image :=
              draw_pixels s maskData videoData fillRGB bgRGB width
                          scaleX scaleY (canvas_width r') (canvas_height r')
                          outputData in
            (r', Drew image
                   (if outlines s
                    then drawOutline r' maskData width height outlineRGB
                    else []))
      end
  end.

(** ** Views used in the statements *)

(** The settings seen key by key. *)
Inductive field :=
  | F_vizMode | F_colorMode | F_fillColor | F_outlineColor | F_bgColor
  | F_fillOpacity | F_outlineThickness | F_showLabels | F_segmentationMode
  | F_bgReplace | F_smoothing.

Inductive setting :=
  | VString (v : string)
  | VNumber (v : spec_float)
  | VBool (v : bool).

Definition field_of (s : Settings) (f : field) : setting :=
  match f with
  | F_vizMode => VString (vizMode s)
  | F_colorMode => VString (colorMode s)
  | F_fillColor => VString (fillColor s)
  | F_outlineColor => VString (outlineColor s)
  | F_bgColor => VString (bgColor s)
  | F_fillOpacity => VNumber (fillOpacity s)
  | F_outlineThickness => VNumber (outlineThickness s)
  | F_showLabels => VBool (showLabels s)
  | F_segmentationMode => VBool (segmentationMode s)
  | F_bgReplace => VBool (bgReplace s)
  | F_smoothing => VNumber (smoothing s)
  end.


Definition preset_keys : list string := ["E"; "R"; "T"; "Z"; "U"; "I"; "O"].

(** A patch that sets the opacity and the smoothing strength. *)
Definition numeric_patch (opacity strength : option spec_float)
    : SettingsPatch :=
  {| p_vizMode := None; p_colorMode := None; p_fillColor := None;
     p_outlineColor := None; p_bgColor := None; p_fillOpacity := opacity;
     p_outlineThickness := None; p_showLabels := None;
     p_segmentationMode := None; p_bgReplace := None;
     p_smoothing := strength |}.

(** [0 <= v <= 1]. *)
Definition in_unit_interval (v : spec_float) : bool :=
  SFleb F64.zero v && SFleb v F64.one.

(** [v] is an integer and [v >= 0]. *)
Definition is_natural (v : spec_float) : bool :=
  match F64.to_int v with
  | Some z => (0 <=? z) && SFleb F64.zero v
  | None => false
  end.

(** A number whose sign bit is clear, or NaN. *)
Definition sign_clear (x : spec_float) : Prop :=
  match x with
  | S754_zero s | S754_infinity s | S754_finite s _ _ => s = false
  | S754_nan => True
  end.

(** A renderer as the constructor leaves it, on a canvas of the given
    size. *)
Definition new_Renderer (w h : nat) : Renderer :=
  {| canvas_width := w; canvas_height := h; settings := default_settings;
     prevMask := None |}.

(** The rectangle [drawOutline] fills for cell [(x, y)]. *)
Definition outline_rect (r : Renderer) (maskWidth maskHeight : nat)
    (color : spec_float * spec_float * spec_float) (x y : nat) : FillRect :=
  let scaleX := F64.div (F64.of_nat (canvas_width r)) (F64.of_nat maskWidth) in
  let scaleY := F64.div (F64.of_nat (canvas_height r)) (F64.of_nat maskHeight) in
  {| fr_color := color;
     fr_x := F64.mul (F64.of_nat x) scaleX;
     fr_y := F64.mul (F64.of_nat y) scaleY;
     fr_w := F64.max scaleX (outlineThickness (settings r));
     fr_h := F64.max scaleY (outlineThickness (settings r)) |}.

(** Where the pixel [(x, y)] starts in the output buffer. *)
Definition pixel_offset (canvasWidth y x : nat) : nat :=
  ((y * canvasWidth + x) * 4)%nat.

(** The number the pixel loop leaves in a colour channel, by the branch
    taken. *)
Definition channel (s : Settings) (isSegmented : bool)
    (vid fill bg : spec_float) : spec_float :=
  if bgReplace s then
    if isSegmented then
      if fills s then blend_channel vid fill (fillOpacity s) else vid
    else bg
  else
    if isSegmented && fills s then blend_channel vid fill (fillOpacity s)
    else vid.

(** The mask cell the pixel loop reads for the pixel [(x, y)]. *)
Definition mask_cell_of (width : nat) (scaleX scaleY : spec_float)
    (y x : nat) : option Z :=
  mask_index (mask_coord y scaleY) (mask_coord x scaleX) width.

(** Channel [c] of the source pixel read for the mask cell [i]. *)
Definition source_channel (videoData : list byte) (i : option Z) (c : Z)
    : option byte :=
  get videoData ((fun v => v + c) <$> ((fun i => i * 4) <$> i)).

(** The byte the pixel loop leaves in channel [c] of the pixel
    [(x, y)]. *)
Definition pixel_byte (s : Settings) (maskData videoData : list byte)
    (fillRGB bgRGB : spec_float * spec_float * spec_float) (width : nat)
    (scaleX scaleY : spec_float) (y x c : nat) : byte :=
  let i := mask_cell_of width scaleX scaleY y x in
  let isSegmented := cell_is (get maskData i) Byte.x01 in
  let '(fillR, fillG, fillB) := fillRGB in
  let '(bgR, bgG, bgB) := bgRGB in
  match c with
  | 0%nat => ToUint8Clamp
               (channel s isSegmented
                  (num_of_u8 (get videoData ((fun i => i * 4) <$> i))) fillR bgR)
  | 1%nat => ToUint8Clamp
               (channel s isSegmented
                  (num_of_u8 (source_channel videoData i 1)) fillG bgG)
  | 2%nat => ToUint8Clamp
               (channel s isSegmented
                  (num_of_u8 (source_channel videoData i 2)) fillB bgB)
  | _ => Byte.xff
  end.

(** The byte two hexadecimal digits denote. *)
Definition hex_pair (a b : ascii) : option byte :=
  match hex_digit a, hex_digit b with
  | Some x, Some y => Some (byte_of_Z (16 * x + y))
  | _, _ => None
  end.

(** The colour a string of the form #rrggbb names: the three bytes rr, gg
    and bb.  This is the reading of a configured colour that the
    statements compare [hexToRGB] with. *)
Definition rgb_of_color (hex : string) : option (byte * byte * byte) :=
  match hex with
  | String "#" (String r1 (String r2 (String g1 (String g2
      (String b1 (String b2 EmptyString)))))) =>
      R ← hex_pair r1 r2; G ← hex_pair g1 g2; B ← hex_pair b1 b2;
      Some (R, G, B)
  | _ => None
  end.

(** Every character, for checks by enumeration. *)
Definition all_ascii : list ascii := ascii_of_nat <$> seq 0 256.

Definition hex_pairs_parse : bool :=
  forallb (fun a =>
    match hex_digit a with
    | None => true
    | Some x =>
        forallb (fun b =>
          match hex_digit b with
          | None => true
          | Some y =>
              Byte.eqb (ToUint8Clamp (parseInt16 (String a (String b ""))))
                       (byte_of_Z (16 * x + y))
          end) all_ascii
    end) all_ascii.

Definition canvas_scaleX (r : Renderer) (width : nat) : spec_float :=
  F64.div (F64.of_nat (canvas_width r)) (F64.of_nat width).

Definition canvas_scaleY (r : Renderer) (height : nat) : spec_float :=
  F64.div (F64.of_nat (canvas_height r)) (F64.of_nat height).

(** [prev * factor + current * (1 - factor)] for one cell. *)
Definition blend (factor prev : spec_float) (current : byte) : spec_float :=
  F64.add (F64.mul prev factor)
          (F64.mul (num_of_u8 (Some current)) (F64.sub F64.one factor)).

(** What a round of the loop of [smoothMask] stores in the history, and
    what it puts in the returned mask. *)
Definition cell_step (factor : spec_float) (current : byte)
    (prev : spec_float) : spec_float :=
  F32.round (blend factor prev current).

Definition cell_out (factor : spec_float) (current : byte)
    (prev : spec_float) : byte :=
  binarize (blend factor prev current).

(** The renderer after the same mask went through [smoothMask] on [n]
    frames, and the mask returned on the next frame. *)
Definition after_frames (r : Renderer) (M : list byte) (width height : nat)
    (n : nat) : Renderer :=
  Nat.iter n (fun r => (smoothMask r M width height).1) r.

Definition output_at (r : Renderer) (M : list byte) (width height : nat)
    (n : nat) : list byte :=
  (smoothMask (after_frames r M width height n) M width height).2.

Definition is_bit (b : byte) : Prop := b = Byte.x00 ∨ b = Byte.x01.

(** Two numbers are the same value, bit for bit. *)
Definition same_number (a b : spec_float) : bool :=
  match a, b with
  | S754_zero s, S754_zero s' => Bool.eqb s s'
  | S754_infinity s, S754_infinity s' => Bool.eqb s s'
  | S754_nan, S754_nan => true
  | S754_finite s m e, S754_finite s' m' e' =>
      Bool.eqb s s' && Pos.eqb m m' && Z.eqb e e'
  | _, _ => false
  end.

(** After [N] frames the history cell no longer moves and the returned
    cell is the mask's. *)
Definition settled (N : nat) (factor : spec_float) (c : byte)
    (p : spec_float) : bool :=
  let q := Nat.iter N (cell_step factor c) p in
  same_number (cell_step factor c q) q && Byte.eqb (cell_out factor c q) c.

(** The factor [smoothing / 10] for an integer setting. *)
Definition factor_of (k : Z) : spec_float :=
  F64.div (F64.of_Z k) (F64.of_Z 10).

(** * Rounding and order *)

(** [M] is the integer nearest to [x / u], a tie going to the even one
    ([u] is a positive unit). *)
Definition nearest_even (x u M : Z) : Prop :=
  2 * (M * u - x) ≤ u ∧ 2 * (x - M * u) ≤ u ∧
  (2 * (M * u - x) = u ∨ 2 * (x - M * u) = u → Z.even M = true).

(** The result of rounding, with the integer [M] it stands for at the
    exponent [E]. *)
Definition encodes (prec emax : Z) (res : spec_float) (M E : Z) : Prop :=
  (M = 0 ∧ res = S754_zero false) ∨
  ∃ m' e', res = S754_finite false m' e' ∧ E ≤ e' ∧
           Zpos m' * 2 ^ (e' - E) = M ∧ bounded prec emax m' e' = true.

(** The value of a non-negative number in units of [2 ^ b]. *)
Definition val (b : Z) (x : spec_float) : Z :=
  match x with
  | S754_finite false m e => Zpos m * 2 ^ (e - b)
  | _ => 0
  end.

(** [res] is [mx * 2 ^ ex] rounded to the format. *)
Definition rounded (prec emax b : Z) (mx : positive) (ex : Z)
    (res : spec_float) : Prop :=
  let g := Zpos (digits2_pos mx) + ex in
  let E := fexp prec emax g in
  ∃ M, 0 ≤ M ∧
    nearest_even (Zpos mx * 2 ^ (ex - b)) (2 ^ (E - b)) M ∧
    (E ≤ g → M ≤ 2 ^ (g - E)) ∧ (g < E → M = 0) ∧
    (E ≤ g - 1 → 2 ^ (g - 1 - E) ≤ M) ∧
    encodes prec emax res M E.

(** A non-negative number of the format: +0 or a finite positive number
    in canonical form. *)
Definition good (prec emax : Z) (x : spec_float) : Prop :=
  x = S754_zero false ∨
  ∃ m e, x = S754_finite false m e ∧ bounded prec emax m e = true.

(** The unit in which values are compared: below every exponent met. *)
Definition b0 : Z := -1200.

(** The same for binary64, and as a test. *)
Definition good64 : spec_float → Prop := good 53 1024.

Definition goodb64 (x : spec_float) : bool :=
  match x with
  | S754_zero false => true
  | S754_finite false m e => bounded 53 1024 m e
  | _ => false
  end.

(** A factor strictly between 0 and 1 with a full mantissa. *)
Definition factor_okb (f : spec_float) : bool :=
  match f with
  | S754_finite false mf ef =>
      (Zpos (digits2_pos mf) =? 53) && (53 + ef <=? 0) && (-100 <=? ef)
  | _ => false
  end.

(** [x] is at most [2 ^ G]. *)
Definition below (G : Z) (x : spec_float) : Prop := val b0 x ≤ 2 ^ (G - b0).

(** The constant term of the blend: [current * (1 - factor)]. *)
Definition addend (factor : spec_float) (c : byte) : spec_float :=
  F64.mul (num_of_u8 (Some c)) (F64.sub F64.one factor).

(** What the convergence argument needs of a factor and a mask bit, all
    of it decided by evaluation. *)
Definition cell_ok (factor : spec_float) (c : byte) : bool :=
  factor_okb factor && goodb64 (addend factor c)
  && (val b0 (addend factor c) <=? 2 ^ (0 - b0))
  && (val b0 (cell_step factor c F64.one) <=? val b0 F64.one).

(** A history value between 0 and 1. *)
Definition unit_value (x : spec_float) : Prop := good64 x ∧ below 0 x.

(** A history cell that holds a number from 0 to 1. *)
Definition unit_history (x : spec_float) : Prop :=
  valid_binary 53 1024 x = true ∧ in_unit_interval x = true.

(** The cells of the history buffer; none before the first frame. *)
Definition history_cells (r : Renderer) : list spec_float :=
  default [] (prevMask r).

(** * The detector ([src/detector.js]) *)

(** [Math.min(a, b)]: NaN if either is NaN; -0 is below +0. *)
Definition Math_min (a b : spec_float) : spec_float :=
  match SFcompare a b with
  | None => S754_nan
  | Some Lt => a
  | Some Eq => match a with S754_zero false => b | _ => a end
  | Some Gt => b
  end.

(** How an awaited call ends. *)
Inductive awaited (A : Type) : Type :=
  | Fulfilled (a : A)
  | Rejected.
Arguments Fulfilled {A} a.
Arguments Rejected {A}.

(** An object COCO-SSD predicts; [bbox] is [[x, y, width, height]]. *)
Record Prediction := {
  pr_class : string;
  pr_score : spec_float;
  pr_bbox : spec_float * spec_float * spec_float * spec_float
}.

Record BBox := {
  bb_x : spec_float;
  bb_y : spec_float;
  bb_width : spec_float;
  bb_height : spec_float
}.

(** An entry of the list [detect] returns. *)
Record Detection := {
  det_class : string;
  det_confidence : spec_float;
  det_bbox : BBox
}.

(** What BodyPix's [segmentPerson] resolves to; [seg_data] is [None]
    for an object without a [data] member. *)
Record Segmentation := {
  seg_data : option (list byte);
  seg_width : nat;
  seg_height : nat
}.

Section Detector.
(** The image source handed to the models and what [segmentMultiPerson]
    resolves to are left open. *)
Context {Source People : Type}.

(** The loaded models: what each call on a source comes to.  The option
    objects the calls pass are constants of the code. *)
Record CocoModel := {
  coco_detect : Source → awaited (list Prediction)
}.

Record BodyPixModel := {
  bp_segmentPerson : Source → awaited Segmentation;
  bp_segmentMultiPerson : Source → awaited People
}.

Record Detector := {
  cocoModel : option CocoModel;
  bodyPixModel : option BodyPixModel;
  isReady : bool;
  confidence : spec_float;
  personOnly : bool;
  mode : string
}.

(** The constructor. *)
Definition new_Detector : Detector :=
  {| cocoModel := None; bodyPixModel := None; isReady := false;
     confidence := F64.lit 5 10; personOnly := false; mode := "detection" |}.

(** [load(onProgress)], given how the two model loads end: the new state,
    the messages passed to [onProgress] (when one is given) and how the
    call ends.  A failed load is rethrown. *)
Definition load (d : Detector) (onProgress : bool)
    (coco : awaited CocoModel) (bodyPix : awaited BodyPixModel)
    : Detector * list string * awaited bool :=
  let say (msg : string) := if onProgress then [msg] else [] in
  match coco with
  | Rejected => (d, say "Loading COCO-SSD model...", Rejected)
  | Fulfilled c =>
      let d1 := {| cocoModel := Some c; bodyPixModel := bodyPixModel d;
                   isReady := isReady d; confidence := confidence d;
                   personOnly := personOnly d; mode := mode d |} in
      let said := say "Loading COCO-SSD model..."
                  ++ say "Loading BodyPix model..." in
      match bodyPix with
      | Rejected => (d1, said, Rejected)
      | Fulfilled b =>
          ({| cocoModel := Some c; bodyPixModel := Some b; isReady := true;
              confidence := confidence d; personOnly := personOnly d;
              mode := mode d |}, said, Fulfilled true)
      end
  end.

Definition setMode (d : Detector) (m : string) : Detector :=
  {| cocoModel := cocoModel d; bodyPixModel := bodyPixModel d;
     isReady := isReady d; confidence := confidence d;
     personOnly := personOnly d; mode := m |}.

(** [this.confidence = Math.max(0, Math.min(1, value))]. *)
Definition setConfidence (d : Detector) (value : spec_float) : Detector :=
  {| cocoModel := cocoModel d; bodyPixModel := bodyPixModel d;
     isReady := isReady d;
     confidence := F64.max F64.zero (Math_min F64.one value);
     personOnly := personOnly d; mode := mode d |}.

Definition setPersonOnly (d : Detector) (enabled : bool) : Detector :=
  {| cocoModel := cocoModel d; bodyPixModel := bodyPixModel d;
     isReady := isReady d; confidence := confidence d;
     personOnly := enabled; mode := mode d |}.

(** [pred.score >= this.confidence]. *)
Definition meets_threshold (d : Detector) (pred : Prediction) : bool :=
  SFleb (confidence d) (pr_score pred).

(** [pred.class === 'person']. *)
Definition is_person (pred : Prediction) : bool :=
  String.eqb (pr_class pred) "person".

(** The object the [map] callback of [detect] builds. *)
Definition to_detection (pred : Prediction) : Detection :=
  let '(x, y, w, h) := pr_bbox pred in
  {| det_class := pr_class pred; det_confidence := pr_score pred;
     det_bbox := {| bb_x := x; bb_y := y; bb_width := w; bb_height := h |} |}.

(** [detect(source)]: the detections and the segmentation ([None] is
    [null]).  Whatever is thrown inside is caught and answered with the
    empty result. *)
Definition detect (d : Detector) (source : Source)
    : list Detection * option Segmentation :=
  match isReady d, cocoModel d with
  | true, Some coco =>
      match coco_detect coco source with
      | Rejected => ([], None)
      | Fulfilled predictions =>
          let filtered := List.filter (meets_threshold d) predictions in
          let filtered :=
            if personOnly d then List.filter is_person filtered
            else filtered in
          let detections := to_detection <$> filtered in
          match String.eqb (mode d) "segmentation", bodyPixModel d with
          | true, Some bodyPix =>
              match bp_segmentPerson bodyPix source with
              | Rejected => ([], None)
              | Fulfilled segmentation => (detections, Some segmentation)
              end
          | _, _ => (detections, None)
          end
      end
  | _, _ => ([], None)
  end.

(** [segment(source)]. *)
Definition segment (d : Detector) (source : Source) : option Segmentation :=
  match isReady d, bodyPixModel d with
  | true, Some bodyPix =>
      match bp_segmentPerson bodyPix source with
      | Rejected => None
      | Fulfilled segmentation => Some segmentation
      end
  | _, _ => None
  end.

(** [segmentMultiPerson(source)]. *)
Definition segmentMultiPerson (d : Detector) (source : Source)
    : option People :=
  match isReady d, bodyPixModel d with
  | true, Some bodyPix =>
      match bp_segmentMultiPerson bodyPix source with
      | Rejected => None
      | Fulfilled people => Some people
      end
  | _, _ => None
  end.

(** A call made on a detector from outside. *)
Inductive detector_call :=
  | CallLoad (onProgress : bool) (coco : awaited CocoModel)
             (bodyPix : awaited BodyPixModel)
  | CallSetMode (m : string)
  | CallSetConfidence (value : spec_float)
  | CallSetPersonOnly (enabled : bool).

(** The detector after a call. *)
Definition after_call (d : Detector) (c : detector_call) : Detector :=
  match c with
  | CallLoad onProgress coco bodyPix => (load d onProgress coco bodyPix).1.1
  | CallSetMode m => setMode d m
  | CallSetConfidence value => setConfidence d value
  | CallSetPersonOnly enabled => setPersonOnly d enabled
  end.
End Detector.

Arguments CocoModel : clear implicits.
Arguments BodyPixModel : clear implicits.
Arguments Detector : clear implicits.
Arguments detector_call : clear implicits.

(** * The application ([src/app.js]) *)

(** The two objects of [App] that [setDetectMode] works on. *)
Record App {Source People : Type} := {
  detector : Detector Source People;
  renderer : Renderer
}.
Arguments App : clear implicits.

(** A literal [{ segmentationMode: on }]. *)
Definition segmentationMode_patch (on : bool) : SettingsPatch :=
  {| p_vizMode := None; p_colorMode := None; p_fillColor := None;
     p_outlineColor := None; p_bgColor := None; p_fillOpacity := None;
     p_outlineThickness := None; p_showLabels := None;
     p_segmentationMode := Some on; p_bgReplace := None;
     p_smoothing := None |}.

(** [setDetectMode(mode)]. *)
Definition setDetectMode {Source People} (a : App Source People)
    (m : string) : App Source People :=
  {| detector := setMode (detector a) m;
     renderer := updateSettings (renderer a)
                   (segmentationMode_patch (String.eqb m "segmentation")) |}.

(** Every pair of hexadecimal digits parses to the number it writes. *)
Definition hex_pairs_value : bool :=
  forallb (fun a =>
    match hex_digit a with
    | None => true
    | Some x =>
        forallb (fun b =>
          match hex_digit b with
          | None => true
          | Some y =>
              same_number (parseInt16 (String a (String b "")))
                          (F64.of_Z (16 * x + y))
          end) all_ascii
    end) all_ascii.

(** ** Views of the blur *)

(** What a pass of the blur stores for the cell [(x, y)]. *)
Definition blur_cell (data : list spec_float) (width height : nat)
    (x y : nat) : spec_float :=
  let '(sum, count) := kernel data width height x y in
  F32.round (F64.div sum (F64.of_Z count)).

(** The cells the kernel of the blur visits around [(x, y)], in the
    order of its two loops. *)
Definition neighbourhood (width height : nat) (x y : nat) : list nat :=
  dy ← offsets;
  dx ← offsets;
  if in_bounds width height (Z.of_nat x + dx) (Z.of_nat y + dy)
  then [Z.to_nat ((Z.of_nat y + dy) * Z.of_nat width + (Z.of_nat x + dx))]
  else [].

(** How many of them hold 1. *)
Definition ones_around (mask : list byte) (width height : nat) (x y : nat)
    : nat :=
  length (List.filter (fun i => cell_is (mask !! i) Byte.x01)
            (neighbourhood width height x y)).

(** The 3x3 window around the cell [(x, y)], row by row: the nine cells
    from [(x - 1, y - 1)] to [(x + 1, y + 1)]. *)
Definition window (x y : nat) : list (Z * Z) :=
  let x := Z.of_nat x in
  let y := Z.of_nat y in
  [(x - 1, y - 1); (x, y - 1); (x + 1, y - 1);
   (x - 1, y);     (x, y);     (x + 1, y);
   (x - 1, y + 1); (x, y + 1); (x + 1, y + 1)].

(** A cell lies in the grid. *)
Definition in_grid (width height : nat) (c : Z * Z) : bool :=
  bool_decide (0 ≤ c.1 < Z.of_nat width ∧ 0 ≤ c.2 < Z.of_nat height).

(** Where the cell is in the mask array. *)
Definition cell_index (width : nat) (c : Z * Z) : nat :=
  Z.to_nat (c.2 * Z.of_nat width + c.1).

(** The cells of the window that lie in the grid, and how many of them
    hold 1. *)
Definition window_cells (width height : nat) (x y : nat) : list (Z * Z) :=
  List.filter (in_grid width height) (window x y).

Definition window_ones (mask : list byte) (width height : nat) (x y : nat)
    : nat :=
  length (List.filter (fun c => cell_is (mask !! cell_index width c) Byte.x01)
            (window_cells width height x y)).

(** * Rendering a frame ([render], [drawDetection], [clear]) *)

(** [Math.round]: the nearest integer, a tie going up; a result of zero
    keeps the sign of the argument. *)
Definition Math_round (x : spec_float) : spec_float :=
  match x with
  | S754_finite s m e =>
      if 0 <=? e then x
      else
        let n := (2 * cond_Zopp s (Zpos m) + 2 ^ (- e)) / 2 ^ (- e + 1) in
        if n =? 0 then S754_zero s
        else binary_normalize F64.prec F64.emax n 0 false
  | _ => x
  end.

(** A value assigned to [fillStyle] or [strokeStyle].  The template
    literal [`rgba(${r}, ${g}, ${b}, ${alpha})`] of [hexToRGBA] is kept
    as its four numbers. *)
Inductive paint :=
  | Css (color : string)
  | Rgba (r g b alpha : spec_float).

(** The label [`${className} ${percent}%`], kept as its two parts. *)
Record Label := {
  label_class : string;
  label_percent : spec_float
}.

(** What [render] does to the canvas context, call by call.  A call of
    [drawSegmentation] that draws is one entry: the image it puts and
    the rectangles of its outline. *)
Inductive ctx_call :=
  | SetFillStyle (p : paint)
  | SetStrokeStyle (p : paint)
  | SetLineWidth (w : spec_float)
  | SetFont (font : string)
  | MeasureText (text : Label)
  | FillRectangle (x y w h : spec_float)
  | StrokeRectangle (x y w h : spec_float)
  | FillText (text : Label) (x y : spec_float)
  | DrawImage
  | Composite (image : list byte) (outline : list FillRect).

(** How a call of [render] ends. *)
Inductive ending := Returns | ThrowsError | NeverReturns.

(** The video element: its size, and the pixels [getImageData] reads
    after [drawImage] scaled the current frame to a given size. *)
Record Video := {
  videoWidth : nat;
  videoHeight : nat;
  frame_at : nat → nat → list byte
}.

(** [hexToRGBA(hex, alpha)]. *)
Definition hexToRGBA (hex : string) (alpha : spec_float) : paint :=
  let '(r, g, b) := hexToRGB hex in Rgba r g b alpha.

(** The font of the labels: 12px "JetBrains Mono", monospace. *)
Definition label_font : string :=
  let quote := String (ascii_of_nat 34) EmptyString in
  "12px " ++ quote ++ "JetBrains Mono" ++ quote ++ ", monospace".

Section Render.
(** The width [measureText] reports for a label in the label font. *)
Variable text_width : Label → spec_float.

(** The label block shared by [drawDetection] and [render]. *)
Definition draw_label (className : string) (confidence x y : spec_float)
    : list ctx_call :=
  let label := {| label_class := className;
                  label_percent :=
                    Math_round (F64.mul confidence (F64.of_Z 100)) |} in
  [ SetFont label_font;
    MeasureText label;
    SetFillStyle (Css "#000000");
    FillRectangle x (F64.sub y (F64.of_Z 16))
                  (F64.add (text_width label) (F64.of_Z 8)) (F64.of_Z 16);
    SetFillStyle (Css "#ffffff");
    FillText label (F64.add x (F64.of_Z 4)) (F64.sub y (F64.of_Z 4)) ].

(** [drawDetection(detection)]. *)
Definition drawDetection (r : Renderer) (detection : Detection)
    : list ctx_call :=
  let s := settings r in
  let b := det_bbox detection in
  (if fills s
   then [ SetFillStyle (hexToRGBA (fillColor s) (fillOpacity s));
          FillRectangle (bb_x b) (bb_y b) (bb_width b) (bb_height b) ]
   else [])
  ++ (if outlines s
      then [ SetStrokeStyle (Css (outlineColor s));
             SetLineWidth (outlineThickness s);
             StrokeRectangle (bb_x b) (bb_y b) (bb_width b) (bb_height b) ]
      else [])
  ++ (if showLabels s
      then draw_label (det_class detection) (det_confidence detection)
                      (bb_x b) (bb_y b)
      else []).

(** The body of the loop of [render] over the detections. *)
Definition draw_detection_or_label (r : Renderer)
    (segmentation : option Segmentation) (detection : Detection)
    : list ctx_call :=
  let s := settings r in
  let person := String.eqb (det_class detection) "person" in
  if negb (bool_decide (is_Some segmentation)) || negb (segmentationMode s)
     || negb person
  then drawDetection r detection
  else if showLabels s && person
       then draw_label "person" (det_confidence detection)
                       (bb_x (det_bbox detection)) (bb_y (det_bbox detection))
       else [].

(** The segmentation as [drawSegmentation] tests it. *)
Definition mask_of (segmentation : Segmentation)
    : option (list byte * nat * nat) :=
  data ← seg_data segmentation;
  Some (data, seg_width segmentation, seg_height segmentation).

(** [render(video, detections, segmentation)]: the renderer after the
    call, the calls made on the context and how the call ends. *)
Definition render (r : Renderer) (video : Video)
    (detections : list Detection) (segmentation : option Segmentation)
    : Renderer * list ctx_call * ending :=
  let r1 :=
    if bool_decide (canvas_width r ≠ videoWidth video
                    ∨ canvas_height r ≠ videoHeight video)
    then {| canvas_width := videoWidth video;
            canvas_height := videoHeight video;
            settings := settings r; prevMask := prevMask r |}
    else r in
  let boxes r2 :=
    detections ≫= draw_detection_or_label r2 segmentation in
  match segmentation with
  | Some seg =>
      if segmentationMode (settings r1) then
        let videoData := frame_at video (seg_width seg) (seg_height seg) in
        match drawSegmentation r1 videoData (mask_of seg) with
        | (r2, Skipped) => (r2, boxes r2, Returns)
        | (r2, Drew image outline) =>
            (r2, Composite image outline :: boxes r2, Returns)
        | (r2, Throws) => (r2, [], ThrowsError)
        | (r2, Hangs) => (r2, [], NeverReturns)
        end
      else (r1, DrawImage :: boxes r1, Returns)
  | None => (r1, DrawImage :: boxes r1, Returns)
  end.

(** [clear()]. *)
Definition clear (r : Renderer) : list ctx_call :=
  [ SetFillStyle (Css (bgColor (settings r)));
    FillRectangle F64.zero F64.zero (F64.of_nat (canvas_width r))
                  (F64.of_nat (canvas_height r)) ].
End Render.

(** How many boxes are stroked and how many labels are written. *)
Definition is_stroke (c : ctx_call) : bool :=
  match c with StrokeRectangle _ _ _ _ => true | _ => false end.

Definition is_text (c : ctx_call) : bool :=
  match c with FillText _ _ _ => true | _ => false end.

(** The detections [render] draws a box for: all of them without a
    segmentation or outside segmentation mode, else those that are not
    persons. *)
Definition boxed (r : Renderer) (segmentation : option Segmentation)
    (detection : Detection) : bool :=
  negb (bool_decide (is_Some segmentation))
  || negb (segmentationMode (settings r))
  || negb (String.eqb (det_class detection) "person").

(** * The overlay renderer (the second [Renderer] class of
      [src/renderer.js]) *)

Module Overlay.
(** The settings object of this class. *)
Record Settings := {
  vizMode : string;
  colorMode : string;
  fillColor : string;
  outlineColor : string;
  fillOpacity : spec_float;
  outlineThickness : spec_float;
  showLabels : bool;
  showBox : bool;
  boxScale : spec_float;
  segmentationMode : bool
}.

Definition default_settings : Settings :=
  {| vizMode := "both"; colorMode := "fixed"; fillColor := "#3b82f6";
     outlineColor := "#2563eb"; fillOpacity := F64.lit 5 10;
     outlineThickness := F64.of_Z 3; showLabels := true; showBox := true;
     boxScale := F64.of_Z 1; segmentationMode := true |}.

(** [vizMode === 'fill' || vizMode === 'both']. *)
Definition fills (s : Settings) : bool :=
  String.eqb (vizMode s) "fill" || String.eqb (vizMode s) "both".

(** [vizMode === 'outline' || vizMode === 'both']. *)
Definition outlines (s : Settings) : bool :=
  String.eqb (vizMode s) "outline" || String.eqb (vizMode s) "both".

(** The body of the loop that builds the mask, at cell [i]. *)
Definition fill_cell (s : Settings) (data : list byte)
    (fillRGB : spec_float * spec_float * spec_float) (alpha : spec_float)
    (maskData : list byte) (i : nat) : list byte :=
  let isSegmented := cell_is (data !! i) Byte.x01 in
  let idx := (i * 4)%nat in
  let '(fillR, fillG, fillB) := fillRGB in
  if isSegmented then
    if fills s then
      let maskData := put maskData idx fillR in
      let maskData := put maskData (idx + 1) fillG in
      let maskData := put maskData (idx + 2) fillB in
      put maskData (idx + 3) alpha
    else maskData
  else maskData.

(** The body of the loops that draw the outline, at [(x, y)]. *)
Definition outline_cell (data : list byte) (width height : nat)
    (outlineRGB : spec_float * spec_float * spec_float)
    (maskData : list byte) (y x : nat) : list byte :=
  let i := (y * width + x)%nat in
  let '(outlineR, outlineG, outlineB) := outlineRGB in
  if cell_is (data !! i) Byte.x01 then
    if isEdge data width height x y then
      let idx := (i * 4)%nat in
      let maskData := put maskData idx outlineR in
      let maskData := put maskData (idx + 1) outlineG in
      let maskData := put maskData (idx + 2) outlineB in
      put maskData (idx + 3) (F64.of_Z 255)
    else maskData
  else maskData.

(** How a call of [drawSegmentation] ends. *)
Inductive outcome :=
  | Skipped                       (* no segmentation or no data *)
  | Throws                        (* an [ImageData] of zero width or height *)
  | Drew (maskData : list byte).

(** [drawSegmentation(segmentation)]: the image handed to
    [putImageData], which [drawImage] then scales onto the canvas. *)
Definition drawSegmentation (s : Settings)
    (segmentation : option Segmentation) : outcome :=
  match segmentation with
  | None => Skipped
  | Some seg =>
      match seg_data seg with
      | None => Skipped
      | Some data =>
          let width := seg_width seg in
          let height := seg_height seg in
          if bool_decide (width = 0 ∨ height = 0)%nat then Throws
          else
            let maskData := replicate (width * height * 4) Byte.x00 in
            let fillRGB := hexToRGB (fillColor s) in
            let outlineRGB := hexToRGB (outlineColor s) in
            let alpha :=
              Math_round (F64.mul (fillOpacity s) (F64.of_Z 255)) in
            let maskData :=
              foldl (fill_cell s data fillRGB alpha) maskData
                    (seq 0 (length data)) in
            let maskData :=
              if outlines s then
                foldl (fun maskData y =>
                  foldl (fun maskData x =>
                    outline_cell data width height outlineRGB maskData y x)
                    maskData (seq 0 width))
                  maskData (seq 0 height)
              else maskData in
            Drew maskData
      end
  end.
End Overlay.

(** ** Views of the overlay *)

(** The four bytes of a pixel. *)
Definition pixel : Type := byte * byte * byte * byte.

Definition component (p : pixel) (c : nat) : byte :=
  let '(r, g, b, a) := p in
  match c with 0%nat => r | 1%nat => g | 2%nat => b | _ => a end.

(** Writing a pixel, or nothing, at cell [i] of an image. *)
Definition stamp (i : nat) (p : option pixel) (image : list byte)
    : list byte :=
  match p with
  | Some (r, g, b, a) =>
      <[(i * 4 + 3)%nat := a]>
        (<[(i * 4 + 2)%nat := b]>
           (<[(i * 4 + 1)%nat := g]> (<[(i * 4)%nat := r]> image)))
  | None => image
  end.

(** The pixel of a colour at a given alpha, as the image stores it. *)
Definition stored (rgb : spec_float * spec_float * spec_float)
    (alpha : spec_float) : pixel :=
  let '(r, g, b) := rgb in
  (ToUint8Clamp r, ToUint8Clamp g, ToUint8Clamp b, ToUint8Clamp alpha).

(** The eight neighbours of a cell, as offsets. *)
Definition neighbour_offsets : list (Z * Z) :=
  [(-1, -1); (0, -1); (1, -1); (-1, 0); (1, 0); (-1, 1); (0, 1); (1, 1)].

(** The cell [(x, y)] holds 1 and one of its eight neighbours lies in
    the grid and holds 0. *)
Definition on_edge (data : list byte) (width height : nat) (x y : nat)
    : bool :=
  cell_is (data !! (y * width + x)%nat) Byte.x01
  && existsb (fun '(dx, dy) =>
       let nx := Z.of_nat x + dx in
       let ny := Z.of_nat y + dy in
       bool_decide (0 ≤ nx < Z.of_nat width ∧ 0 ≤ ny < Z.of_nat height)
       && cell_is (data !! Z.to_nat (ny * Z.of_nat width + nx)) Byte.x00)
     neighbour_offsets.

(** The pixel the overlay shows for the cell [(x, y)]: the outline
    colour on an edge cell, else the fill colour on a cell of the mask,
    else nothing (transparent black). *)
Definition overlay_pixel (s : Overlay.Settings) (data : list byte)
    (width height : nat) (x y : nat) : pixel :=
  if Overlay.outlines s && on_edge data width height x y
  then stored (hexToRGB (Overlay.outlineColor s)) (F64.of_Z 255)
  else if Overlay.fills s
          && cell_is (data !! (y * width + x)%nat) Byte.x01
       then stored (hexToRGB (Overlay.fillColor s))
              (Math_round (F64.mul (Overlay.fillOpacity s) (F64.of_Z 255)))
       else (Byte.x00, Byte.x00, Byte.x00, Byte.x00).

(** ** Views of the pixel loop at equal sizes *)

(** The byte of channel [c] of the pixel computed from the mask cell
    [i] and the video pixel [i]. *)
Definition own_pixel_byte (s : Settings) (maskData videoData : list byte)
    (fillRGB bgRGB : spec_float * spec_float * spec_float)
    (i : nat) (c : nat) : byte :=
  let isSegmented := cell_is (maskData !! i) Byte.x01 in
  let '(fillR, fillG, fillB) := fillRGB in
  let '(bgR, bgG, bgB) := bgRGB in
  match c with
  | 0%nat => ToUint8Clamp
               (channel s isSegmented
                  (num_of_u8 (videoData !! (i * 4)%nat)) fillR bgR)
  | 1%nat => ToUint8Clamp
               (channel s isSegmented
                  (num_of_u8 (videoData !! (i * 4 + 1)%nat)) fillG bgG)
  | 2%nat => ToUint8Clamp
               (channel s isSegmented
                  (num_of_u8 (videoData !! (i * 4 + 2)%nat)) fillB bgB)
  | _ => Byte.xff
  end.

(** ** Views of the delay of the temporal smoothing *)

(** The returned cell is the mask's on each of the next [steps] frames,
    the history being [q] now. *)
Fixpoint follows (steps : nat) (factor : spec_float) (c : byte)
    (q : spec_float) : bool :=
  match steps with
  | O => true
  | S s => Byte.eqb (cell_out factor c q) c
           && follows s factor c (cell_step factor c q)
  end.

(** The number of frames on which the output may still differ from a
    new constant mask, by smoothing setting. *)
Definition latency (k : Z) : nat :=
  if k <=? 4 then 0 else if k <=? 7 then 1 else if k <=? 8 then 3 else 6.

(** * Properties *)

(** ** Settings *)

Lemma Object_assign_empty s : Object_assign s empty_patch = s.
Proof. by destruct s. Qed.

Lemma set_settings_same r : set_settings r (settings r) = r.
Proof. by destruct r. Qed.


Lemma presets_lookup_None key :
  presets !! key = None ↔ key ∉ preset_keys.
Proof.
  unfold presets. rewrite <- not_elem_of_list_to_map. reflexivity.
Qed.

Lemma presets_get_own key p :
  presets !! key = Some p → presets_get key = Preset p.
Proof. unfold presets_get. by intros ->. Qed.

Lemma applyPreset_own r key p :
  presets !! key = Some p →
  applyPreset r key = (set_settings r (Object_assign (settings r) p), Preset p).
Proof. intros H. unfold applyPreset. by rewrite (presets_get_own _ _ H). Qed.

Lemma applyPreset_not_own r key :
  presets !! key = None → (applyPreset r key).1 = r.
Proof.
  intros H. unfold applyPreset, presets_get. rewrite H.
  case_bool_decide; simpl; [|done].
  by rewrite Object_assign_empty, set_settings_same.
Qed.





(** ** Temporal smoothing *)

(** C6, as the claim states it, fails: with smoothing 8, a history stored
    from a 2x1 mask is blended with a 1x2 mask (same length, width and
    height swapped); the mask returned is the old one, not the current
    one. *)
Lemma C6_counterexample_swapped_dimensions :
  let r := updateSettings (new_Renderer 2 2)
             (numeric_patch None (Some (F64.of_Z 8))) in
  let r1 := (smoothMask r [Byte.x01; Byte.x00] 2 1).1 in
  prevMask r1 = Some (Float32Array_from [Byte.x01; Byte.x00]) ∧
  (2, 1)%nat ≠ (1, 2)%nat ∧
  (smoothMask r1 [Byte.x00; Byte.x01] 1 2).2 = [Byte.x01; Byte.x00] ∧
  smoothMask r1 [Byte.x00; Byte.x01] 1 2
  ≠ (set_prevMask r1 (Float32Array_from [Byte.x00; Byte.x01]),
     [Byte.x00; Byte.x01]).
Proof.
  vm_compute. repeat split; discriminate.
Qed.

(** C6, amended: whenever the number of cells of the current mask differs
    from the length of the stored history buffer, the history is reset to
    the current mask and the current mask is returned unchanged. *)
Theorem C6_length_mismatch_resets (r : Renderer) (prev : list spec_float)
    (currentMask : list byte) (width height : nat) :
  prevMask r = Some prev →
  length prev ≠ length currentMask →
  smoothMask r currentMask width height
  = (set_prevMask r (Float32Array_from currentMask), currentMask).
Proof.
  intros Hprev Hlen. unfold smoothMask. rewrite Hprev.
  rewrite (bool_decide_eq_true_2 _ Hlen). by destruct (F64.eqb _ _).
Qed.

Lemma C6_length_mismatch_witness :
  let r := set_prevMask (new_Renderer 2 2)
             (Float32Array_from [Byte.x01; Byte.x00; Byte.x01]) in
  smoothMask r [Byte.x00; Byte.x01] 2 1
  = (set_prevMask r (Float32Array_from [Byte.x00; Byte.x01]),
     [Byte.x00; Byte.x01]).
Proof.
  intros r.
  apply (C6_length_mismatch_resets r
           (Float32Array_from [Byte.x01; Byte.x00; Byte.x01])).
  - reflexivity.
  - simpl. lia.
Defined.

(** C2: with smoothing 0 the mask pipeline (temporal smoothing, then the
    blur) returns the mask it was given, whatever its dimensions: the
    smoothing stage returns its argument and stores it as the history,
    and the blur is called with floor(0/3) = 0 iterations and returns its
    argument too. *)
Theorem C2_smoothing_zero_pass_through (r : Renderer) (M : list byte)
    (width height : nat) :
  F64.eqb (smoothing (settings r)) F64.zero = true →
  smoothMask r M width height = (set_prevMask r (Float32Array_from M), M) ∧
  F64.eqb (F64.floor (F64.div (smoothing (settings r)) (F64.of_Z 3))) F64.zero
  = true ∧
  blurMask M width height
    (F64.floor (F64.div (smoothing (settings r)) (F64.of_Z 3))) = Some M ∧
  process r M width height = (set_prevMask r (Float32Array_from M), Some M).
Proof.
  intros H0.
  assert (Hs : smoothMask r M width height
               = (set_prevMask r (Float32Array_from M), M)).
  { unfold smoothMask. by rewrite H0. }
  assert (Hf : F64.eqb (F64.floor (F64.div (smoothing (settings r))
                                            (F64.of_Z 3))) F64.zero = true).
  { destruct (smoothing (settings r)) as [[]|[]| |[] m e];
      try (cbv in H0; discriminate H0); by vm_compute. }
  assert (Hb : blurMask M width height
                 (F64.floor (F64.div (smoothing (settings r)) (F64.of_Z 3)))
               = Some M).
  { unfold blurMask. by rewrite Hf. }
  repeat split; try done.
  unfold process. rewrite Hs. cbn [settings set_prevMask]. by rewrite Hb.
Qed.

Lemma C2_smoothing_zero_witness :
  let r := updateSettings (new_Renderer 4 4)
             (numeric_patch None (Some F64.zero)) in
  process r [Byte.x01; Byte.x00; Byte.x01; Byte.x01; Byte.x00; Byte.x00] 3 2
  = (set_prevMask r (Float32Array_from
       [Byte.x01; Byte.x00; Byte.x01; Byte.x01; Byte.x00; Byte.x00]),
     Some [Byte.x01; Byte.x00; Byte.x01; Byte.x01; Byte.x00; Byte.x00]).
Proof.
  intros r.
  apply (C2_smoothing_zero_pass_through r
           [Byte.x01; Byte.x00; Byte.x01; Byte.x01; Byte.x00; Byte.x00] 3 2).
  reflexivity.
Defined.


(** ** Outline *)

Lemma cell_is_true v b : cell_is v b = true ↔ v = Some b.
Proof.
  destruct v as [c|]; simpl; [|done]. split.
  - intros H. f_equal. by apply Byte.byte_dec_bl.
  - intros [= ->]. by apply Byte.byte_dec_lb.
Qed.

Lemma foldl_ext {A B} (f g : A → B → A) (l : list B) (a : A) :
  (∀ a b, f a b = g a b) → foldl f a l = foldl g a l.
Proof.
  intros H. revert a. induction l as [|b l IH]; intros a; simpl; [done|].
  by rewrite H, IH.
Qed.

(** A scan that stops at the first hit is a disjunction. *)
Lemma scan_existsb {A} (hit : A → bool) (l : list A) (b0 : bool) :
  foldl (fun (b : bool) d => if b then b else if hit d then true else b) b0 l
  = b0 || existsb hit l.
Proof.
  revert b0. induction l as [|d l IH]; intros b0; simpl.
  - by destruct b0.
  - rewrite IH. destruct b0; simpl; [done|]. by destruct (hit d).
Qed.

Lemma scan_guarded_existsb {A} (guard hit : A → bool) (l : list A) (b0 : bool) :
  foldl (fun (b : bool) d =>
           if b then b
           else if guard d then (if hit d then true else b) else b) b0 l
  = b0 || existsb (fun d => guard d && hit d) l.
Proof.
  rewrite <- scan_existsb. apply foldl_ext.
  intros [] d; [done|]. by destruct (guard d), (hit d).
Qed.

Lemma isEdge_existsb maskData w h x y :
  isEdge maskData w h x y
  = existsb (fun dy => existsb (fun dx =>
      in_bounds w h (Z.of_nat x + dx) (Z.of_nat y + dy)
      && cell_is (maskData !! Z.to_nat ((Z.of_nat y + dy) * Z.of_nat w
                                        + (Z.of_nat x + dx))) Byte.x00)
      offsets) offsets.
Proof.
  unfold isEdge.
  rewrite <- (orb_false_l (existsb _ offsets)), <- scan_existsb.
  apply foldl_ext. intros [] dy; [done|].
  rewrite (scan_guarded_existsb
             (fun dx => in_bounds w h (Z.of_nat x + dx) (Z.of_nat y + dy))
             (fun dx => cell_is (maskData !! Z.to_nat
                ((Z.of_nat y + dy) * Z.of_nat w + (Z.of_nat x + dx))) Byte.x00)).
  rewrite orb_false_l.
  match goal with |- context [existsb ?f offsets] =>
    by destruct (existsb f offsets) end.
Qed.

Lemma offsets_range (d : Z) : d ∈ offsets ↔ -1 ≤ d ≤ 1.
Proof. unfold offsets. rewrite !elem_of_cons, elem_of_nil. lia. Qed.

Lemma in_bounds_true (w h : nat) (nx ny : Z) :
  in_bounds w h nx ny = true ↔
  0 ≤ nx < Z.of_nat w ∧ 0 ≤ ny < Z.of_nat h.
Proof.
  unfold in_bounds. rewrite !andb_true_iff, !Z.leb_le, !Z.ltb_lt. lia.
Qed.

(** The scan of [isEdge] finds a neighbour at an offset from -1 to 1 in
    each direction that lies in the mask and holds 0. *)
Lemma isEdge_true maskData w h x y :
  isEdge maskData w h x y = true ↔
  ∃ dx dy : Z, -1 ≤ dx ≤ 1 ∧ -1 ≤ dy ≤ 1 ∧
    0 ≤ Z.of_nat x + dx < Z.of_nat w ∧ 0 ≤ Z.of_nat y + dy < Z.of_nat h ∧
    maskData !! Z.to_nat ((Z.of_nat y + dy) * Z.of_nat w + (Z.of_nat x + dx))
    = Some Byte.x00.
Proof.
  rewrite isEdge_existsb, existsb_exists. split.
  - intros (dy & Hdy & H). apply existsb_exists in H as (dx & Hdx & H).
    apply andb_true_iff in H as [Hb Hc]. apply cell_is_true in Hc.
    apply in_bounds_true in Hb.
    apply list_elem_of_In, offsets_range in Hdx, Hdy.
    destruct Hb as [Hbx Hby]. by exists dx, dy.
  - intros (dx & dy & Hdx & Hdy & Hbx & Hby & Hc).
    exists dy. split; [by apply list_elem_of_In, offsets_range|].
    apply existsb_exists. exists dx.
    split; [by apply list_elem_of_In, offsets_range|].
    apply andb_true_iff. split; [by apply in_bounds_true|].
    by apply cell_is_true.
Qed.

Lemma all_ones_no_zero (maskData : list byte) (i : nat) :
  Forall (fun b => b = Byte.x01) maskData → maskData !! i ≠ Some Byte.x00.
Proof.
  intros Hall Hi. rewrite Forall_lookup in Hall.
  by specialize (Hall i _ Hi).
Qed.

Lemma elem_of_drawOutline r maskData w h color rect :
  rect ∈ drawOutline r maskData w h color ↔
  ∃ x y, (x < w)%nat ∧ (y < h)%nat ∧ edge_cell maskData w h x y = true ∧
         rect = outline_rect r w h color x y.
Proof.
  unfold drawOutline. rewrite list_elem_of_bind. split.
  - intros (y & Hin & Hy). apply list_elem_of_bind in Hin as (x & Hin & Hx).
    apply elem_of_seq in Hy, Hx.
    destruct (edge_cell maskData w h x y) eqn:He; [|by apply elem_of_nil in Hin].
    apply list_elem_of_singleton in Hin. exists x, y.
    repeat split; try lia; done.
  - intros (x & y & Hx & Hy & He & ->).
    exists y. split; [|apply elem_of_seq; lia].
    apply list_elem_of_bind. exists x. split; [|apply elem_of_seq; lia].
    rewrite He. by apply list_elem_of_singleton.
Qed.

(** The cells [drawOutline] marks. *)
Lemma edge_cell_true maskData w h x y :
  edge_cell maskData w h x y = true ↔
  maskData !! (y * w + x)%nat = Some Byte.x01 ∧
  ∃ dx dy : Z, -1 ≤ dx ≤ 1 ∧ -1 ≤ dy ≤ 1 ∧ (dx, dy) ≠ (0, 0) ∧
    0 ≤ Z.of_nat x + dx < Z.of_nat w ∧ 0 ≤ Z.of_nat y + dy < Z.of_nat h ∧
    maskData !! Z.to_nat ((Z.of_nat y + dy) * Z.of_nat w + (Z.of_nat x + dx))
    = Some Byte.x00.
Proof.
  unfold edge_cell. rewrite andb_true_iff, cell_is_true, isEdge_true. split.
  - intros [H1 (dx & dy & Hdx & Hdy & Hbx & Hby & H0)]. split; [done|].
    exists dx, dy. repeat (split; [done|]). split; [|done].
    intros [= -> ->].
    replace (Z.to_nat ((Z.of_nat y + 0) * Z.of_nat w + (Z.of_nat x + 0)))
      with (y * w + x)%nat in H0 by lia.
    congruence.
  - intros [H1 (dx & dy & Hdx & Hdy & _ & Hbx & Hby & H0)]. split; [done|].
    by exists dx, dy.
Qed.

(** C5: the outline tracer marks a cell exactly when its value is 1 and
    one of its 8 neighbours (the cells at an offset of -1, 0 or 1 in each
    direction, the cell itself apart) lies inside the mask and holds 0; it
    fills one rectangle per marked cell and nothing else; a neighbour
    outside the mask never counts, so a mask of 1s only has no marked cell
    and nothing is drawn. *)
Theorem C5_outline_marks_edge_cells (r : Renderer) (maskData : list byte)
    (maskWidth maskHeight : nat)
    (color : spec_float * spec_float * spec_float) :
  (∀ x y : nat,
     edge_cell maskData maskWidth maskHeight x y = true ↔
     maskData !! (y * maskWidth + x)%nat = Some Byte.x01 ∧
     ∃ dx dy : Z, -1 ≤ dx ≤ 1 ∧ -1 ≤ dy ≤ 1 ∧ (dx, dy) ≠ (0, 0) ∧
       0 ≤ Z.of_nat x + dx < Z.of_nat maskWidth ∧
       0 ≤ Z.of_nat y + dy < Z.of_nat maskHeight ∧
       maskData !! Z.to_nat ((Z.of_nat y + dy) * Z.of_nat maskWidth
                             + (Z.of_nat x + dx)) = Some Byte.x00) ∧
  (∀ rect, rect ∈ drawOutline r maskData maskWidth maskHeight color ↔
     ∃ x y, (x < maskWidth)%nat ∧ (y < maskHeight)%nat ∧
            edge_cell maskData maskWidth maskHeight x y = true ∧
            rect = outline_rect r maskWidth maskHeight color x y) ∧
  (Forall (fun b => b = Byte.x01) maskData →
     (∀ x y, edge_cell maskData maskWidth maskHeight x y = false) ∧
     drawOutline r maskData maskWidth maskHeight color = []).
Proof.
  split; [|split].
  - intros x y. apply edge_cell_true.
  - intros rect. apply elem_of_drawOutline.
  - intros Hall.
    assert (Hno : ∀ x y, edge_cell maskData maskWidth maskHeight x y = false).
    { intros x y. apply not_true_is_false. rewrite edge_cell_true.
      intros [_ (dx & dy & _ & _ & _ & _ & _ & H0)].
      by apply all_ones_no_zero in H0. }
    split; [done|].
    apply elem_of_nil_inv. intros rect Hin.
    apply elem_of_drawOutline in Hin as (x & y & _ & _ & He & _).
    by rewrite Hno in He.
Qed.

(** On a 3x3 mask of 1s nothing is drawn; with a 0 in the middle of the
    right column the five 1s around it are marked, the others are not. *)
Lemma C5_outline_witness :
  let ones := [Byte.x01; Byte.x01; Byte.x01;
               Byte.x01; Byte.x01; Byte.x01;
               Byte.x01; Byte.x01; Byte.x01] in
  let notch := [Byte.x01; Byte.x01; Byte.x01;
                Byte.x01; Byte.x01; Byte.x00;
                Byte.x01; Byte.x01; Byte.x01] in
  let black := (F64.zero, F64.zero, F64.zero) in
  drawOutline (new_Renderer 6 6) ones 3 3 black = [] ∧
  edge_cell notch 3 3 1 1 = true ∧
  edge_cell notch 3 3 0 1 = false ∧
  edge_cell notch 3 3 2 1 = false ∧
  drawOutline (new_Renderer 3 3) notch 3 3 black
  = (fun '(x, y) => outline_rect (new_Renderer 3 3) 3 3 black x y)
    <$> [(1, 0); (2, 0); (1, 1); (1, 2); (2, 2)]%nat.
Proof.
  intros ones notch black.
  pose proof (C5_outline_marks_edge_cells (new_Renderer 6 6) ones 3 3 black)
    as (_ & _ & Hones).
  pose proof (C5_outline_marks_edge_cells (new_Renderer 3 3) notch 3 3 black)
    as (Hedge & _ & _).
  split; [apply Hones; repeat constructor|].
  split.
  { apply Hedge. split; [reflexivity|]. exists 1, 0.
    repeat split; try lia; try discriminate. }
  split.
  { apply not_true_is_false. intros H. apply Hedge in H as [_ H].
    destruct H as (dx & dy & Hdx & Hdy & _ & Hx & Hy & H0).
    assert (Hc : (dx = -1 ∨ dx = 0 ∨ dx = 1) ∧ (dy = -1 ∨ dy = 0 ∨ dy = 1))
      by lia.
    destruct Hc as [[-> | [-> | ->]] [-> | [-> | ->]]]; (discriminate H0 || lia). }
  split.
  { apply not_true_is_false. intros H. apply Hedge in H as [H _].
    discriminate H. }
  by vm_compute.
Defined.


(** ** The pixel loop *)

Ltac lookup_put :=
  unfold put;
  repeat first
    [ rewrite list_lookup_insert_ne by lia
    | rewrite list_lookup_insert_eq by (rewrite ?length_insert; lia) ].

Lemma put_length out i v : length (put out i v) = length out.
Proof. apply length_insert. Qed.

Lemma ToUint8Clamp_255 : ToUint8Clamp (F64.of_Z 255) = Byte.xff.
Proof. by vm_compute. Qed.

Section PixelLoop.
Variable s : Settings.
Variables maskData videoData : list byte.
Variables fillRGB bgRGB : spec_float * spec_float * spec_float.
Variable width : nat.
Variables scaleX scaleY : spec_float.
Variable canvasWidth : nat.

Local Abbreviation draw := (draw_pixel s maskData videoData fillRGB bgRGB width
                             scaleX scaleY canvasWidth).
Local Abbreviation value := (pixel_byte s maskData videoData fillRGB bgRGB width
                              scaleX scaleY).
Local Abbreviation offset := (pixel_offset canvasWidth).

Lemma draw_pixel_length out y x : length (draw out y x) = length out.
Proof.
  unfold draw_pixel. destruct fillRGB as [[? ?] ?], bgRGB as [[? ?] ?].
  repeat match goal with
         | |- context [if ?b then _ else _] => destruct b
         end; by rewrite ?put_length.
Qed.

(** A round of the loop writes the four bytes of its own pixel only. *)
Lemma draw_pixel_other out y x j :
  (j < offset y x ∨ offset y x + 4 ≤ j)%nat → draw out y x !! j = out !! j.
Proof.
  unfold pixel_offset, draw_pixel. intros Hj.
  destruct fillRGB as [[? ?] ?], bgRGB as [[? ?] ?].
  repeat match goal with
         | |- context [if ?b then _ else _] => destruct b
         end; by lookup_put.
Qed.

(** What it writes there does not depend on the buffer. *)
Lemma draw_pixel_own out y x c :
  (c < 4)%nat → (offset y x + c < length out)%nat →
  draw out y x !! (offset y x + c)%nat = Some (value y x c).
Proof.
  unfold pixel_offset, draw_pixel, pixel_byte, channel, mask_cell_of,
    source_channel.
  intros Hc Hlen.
  destruct fillRGB as [[? ?] ?], bgRGB as [[? ?] ?].
  destruct c as [|[|[|[|c]]]]; [rewrite Nat.add_0_r in *| | | |lia];
    repeat match goal with
           | |- context [if ?b then _ else _] => destruct b
           end; simpl andb; cbv iota;
    lookup_put; by rewrite ?ToUint8Clamp_255.
Qed.

(** A row: after [k] columns, the pixels of these columns hold their
    bytes and the rest of the buffer is as before. *)
Lemma draw_row_spec out y k :
  let out' := foldl (fun out x => draw out y x) out (seq 0 k) in
  length out' = length out ∧
  (∀ x c, (x < k)%nat → (c < 4)%nat → (offset y x + c < length out)%nat →
          out' !! (offset y x + c)%nat = Some (value y x c)) ∧
  (∀ j, (j < offset y 0 ∨ offset y k ≤ j)%nat → out' !! j = out !! j).
Proof.
  induction k as [|k IH]; cbv zeta in *.
  - simpl. split; [done|]. split; [intros; lia|done].
  - destruct IH as (IHlen & IHown & IHother).
    rewrite seq_S, foldl_app. simpl.
    set (mid := foldl (fun out x => draw out y x) out (seq 0 k)) in *.
    split; [by rewrite draw_pixel_length|]. split.
    + intros x c Hx Hc Hlen. destruct (decide (x = k)) as [->|Hne].
      * apply draw_pixel_own; [done|]. by rewrite IHlen.
      * rewrite draw_pixel_other by (unfold pixel_offset; lia).
        apply IHown; [lia|done..].
    + intros j Hj. rewrite draw_pixel_other by (unfold pixel_offset in *; lia).
      apply IHother. unfold pixel_offset in *. lia.
Qed.

(** The whole image: after the two loops every pixel of the canvas holds
    its bytes. *)
Lemma draw_pixels_spec out canvasHeight :
  let out' := draw_pixels s maskData videoData fillRGB bgRGB width
                          scaleX scaleY canvasWidth canvasHeight out in
  length out' = length out ∧
  (∀ y x c, (y < canvasHeight)%nat → (x < canvasWidth)%nat → (c < 4)%nat →
            (offset y x + c < length out)%nat →
            out' !! (offset y x + c)%nat = Some (value y x c)) ∧
  (∀ j, (offset canvasHeight 0 ≤ j)%nat → out' !! j = out !! j).
Proof.
  unfold draw_pixels.
  induction canvasHeight as [|m IH]; cbv zeta in *.
  - simpl. split; [done|]. split; [intros; lia|done].
  - destruct IH as (IHlen & IHown & IHother).
    rewrite seq_S, foldl_app. simpl.
    match goal with
    | |- context [foldl _ (foldl ?f out (seq 0 m)) (seq 0 canvasWidth)] =>
        set (mid := foldl f out (seq 0 m)) in *
    end.
    destruct (draw_row_spec mid m canvasWidth) as (Hlen & Hown & Hother).
    split; [by rewrite Hlen|]. split.
    + intros y x c Hy Hx Hc Hl. destruct (decide (y = m)) as [->|Hne].
      * apply Hown; [done..|]. by rewrite IHlen.
      * rewrite Hother by (unfold pixel_offset; nia).
        apply IHown; [lia|done..].
    + intros j Hj. rewrite Hother by (unfold pixel_offset in *; nia).
      apply IHother. unfold pixel_offset in *. nia.
Qed.

End PixelLoop.


(** ** Colors *)

Lemma elem_of_all_ascii (a : ascii) : In a all_ascii.
Proof.
  apply list_elem_of_In, list_elem_of_fmap.
  exists (nat_of_ascii a). split; [by rewrite ascii_nat_embedding|].
  apply elem_of_seq. pose proof (nat_ascii_bounded a). lia.
Qed.

Lemma hex_pairs_parse_true : hex_pairs_parse = true.
Proof. by vm_compute. Qed.

(** Two hexadecimal digits parse to the byte they denote. *)
Lemma parseInt16_hex_pair a b v :
  hex_pair a b = Some v →
  ToUint8Clamp (parseInt16 (String a (String b ""))) = v.
Proof.
  intros Hv. pose proof hex_pairs_parse_true as H. unfold hex_pairs_parse in H.
  unfold hex_pair in Hv.
  rewrite forallb_forall in H. specialize (H a (elem_of_all_ascii a)).
  destruct (hex_digit a) as [x|]; [|discriminate].
  rewrite forallb_forall in H. specialize (H b (elem_of_all_ascii b)).
  destruct (hex_digit b) as [y|]; [|discriminate].
  injection Hv as <-. by apply Byte.byte_dec_bl.
Qed.

(** [hexToRGB] on a colour of the form #rrggbb: stored in a pixel, its
    three numbers are the bytes the colour names. *)
Lemma hexToRGB_color hex R G B :
  rgb_of_color hex = Some (R, G, B) →
  ToUint8Clamp (hexToRGB hex).1.1 = R ∧
  ToUint8Clamp (hexToRGB hex).1.2 = G ∧
  ToUint8Clamp (hexToRGB hex).2 = B.
Proof.
  unfold rgb_of_color. intros H.
  repeat match type of H with
         | match ?x with _ => _ end = _ => destruct x; try discriminate H
         end.
  apply bind_Some in H as (R' & HR & H).
  apply bind_Some in H as (G' & HG & H).
  apply bind_Some in H as (B' & HB & H).
  injection H as <- <- <-.
  unfold hexToRGB, slice. cbn [fst snd String.substring Nat.sub].
  by rewrite (parseInt16_hex_pair _ _ _ HR), (parseInt16_hex_pair _ _ _ HG),
    (parseInt16_hex_pair _ _ _ HB).
Qed.

Lemma ToUint8Clamp_byte (b : byte) :
  ToUint8Clamp (num_of_u8 (Some b)) = b.
Proof. destruct b; by vm_compute. Qed.

Lemma ToUint8Clamp_read (v : option byte) :
  ToUint8Clamp (num_of_u8 v) = default Byte.x00 v.
Proof. destruct v as [b|]; [apply ToUint8Clamp_byte|done]. Qed.

(** ** drawSegmentation *)

Lemma smoothMask_frame r m w h :
  settings (smoothMask r m w h).1 = settings r ∧
  canvas_width (smoothMask r m w h).1 = canvas_width r ∧
  canvas_height (smoothMask r m w h).1 = canvas_height r.
Proof.
  unfold smoothMask.
  destruct (F64.eqb _ _); [done|].
  destruct (prevMask r) as [prev|]; [|done].
  case_bool_decide; [done|].
  by destruct (foldl _ _ _).
Qed.

Lemma process_frame r m w h :
  settings (process r m w h).1 = settings r ∧
  canvas_width (process r m w h).1 = canvas_width r ∧
  canvas_height (process r m w h).1 = canvas_height r.
Proof.
  unfold process. pose proof (smoothMask_frame r m w h) as H.
  by destruct (smoothMask r m w h).
Qed.

(** What a call that draws has done. *)
Lemma drawSegmentation_Drew r videoData segmentation r' image outline :
  drawSegmentation r videoData segmentation = (r', Drew image outline) →
  ∃ data width height maskData,
    segmentation = Some (data, width, height) ∧
    process r data width height = (r', Some maskData) ∧
    width ≠ 0%nat ∧ height ≠ 0%nat ∧
    canvas_width r ≠ 0%nat ∧ canvas_height r ≠ 0%nat ∧
    image = draw_pixels (settings r) maskData videoData
              (hexToRGB (fillColor (settings r)))
              (hexToRGB (bgColor (settings r))) width
              (canvas_scaleX r width) (canvas_scaleY r height)
              (canvas_width r) (canvas_height r)
              (replicate (canvas_width r * canvas_height r * 4) Byte.x00) ∧
    outline = (if outlines (settings r)
               then drawOutline r' maskData width height
                      (hexToRGB (outlineColor (settings r)))
               else []).
Proof.
  unfold drawSegmentation.
  destruct segmentation as [[[data width] height]|]; [|done].
  destruct (process_frame r data width height) as (Hs & Hw & Hh).
  destruct (process r data width height) as [r1 [maskData|]] eqn:Hp; [|done].
  simpl in Hs, Hw, Hh. rewrite Hs, Hw, Hh.
  case_bool_decide as Hdims; [done|].
  intros [= <- <- <-].
  exists data, width, height, maskData.
  split; [done|]. split; [done|].
  repeat split; try done; intros E; apply Hdims; tauto.
Qed.

(** A call on a present segmentation draws, unless an image has no
    pixels or the blur loop cannot end. *)
Lemma drawSegmentation_draws r videoData data width height :
  width ≠ 0%nat → height ≠ 0%nat →
  canvas_width r ≠ 0%nat → canvas_height r ≠ 0%nat →
  is_Some (process r data width height).2 →
  ∃ r' image outline,
    drawSegmentation r videoData (Some (data, width, height))
    = (r', Drew image outline).
Proof.
  intros Hw Hh Hcw Hch [maskData Hm]. unfold drawSegmentation.
  destruct (process_frame r data width height) as (_ & Hw' & Hh').
  destruct (process r data width height) as [r1 processed].
  simpl in Hm, Hw', Hh'. subst processed. rewrite Hw', Hh'.
  rewrite bool_decide_eq_false_2 by (intros [?|[?|[?|?]]]; done).
  by eexists _, _, _.
Qed.

(** Every pixel of the image holds the bytes the loop computes for it. *)
Lemma drawn_image_lookup r videoData segmentation r' image outline :
  drawSegmentation r videoData segmentation = (r', Drew image outline) →
  ∃ data width height maskData,
    segmentation = Some (data, width, height) ∧
    process r data width height = (r', Some maskData) ∧
    length image = (canvas_width r * canvas_height r * 4)%nat ∧
    ∀ y x c, (y < canvas_height r)%nat → (x < canvas_width r)%nat →
             (c < 4)%nat →
      image !! (pixel_offset (canvas_width r) y x + c)%nat
      = Some (pixel_byte (settings r) maskData videoData
                (hexToRGB (fillColor (settings r)))
                (hexToRGB (bgColor (settings r))) width
                (canvas_scaleX r width) (canvas_scaleY r height) y x c).
Proof.
  intros H.
  apply drawSegmentation_Drew
    in H as (data & width & height & maskData & -> & Hp & _ & _ & _ & _
             & -> & _).
  exists data, width, height, maskData. split; [done|]. split; [done|].
  match goal with
  | |- context [draw_pixels ?s ?m ?v ?f ?b ?w ?sx ?sy ?cw ?ch ?out] =>
      destruct (draw_pixels_spec s m v f b w sx sy cw out ch)
        as (Hlen & Hown & _)
  end.
  rewrite length_replicate in *. split; [done|].
  intros y x c Hy Hx Hc. apply Hown; [done..|].
  unfold pixel_offset. nia.
Qed.

Lemma pixel_byte_alpha s maskData videoData fillRGB bgRGB width sx sy y x :
  pixel_byte s maskData videoData fillRGB bgRGB width sx sy y x 3 = Byte.xff.
Proof.
  unfold pixel_byte. by destruct fillRGB as [[? ?] ?], bgRGB as [[? ?] ?].
Qed.

Lemma source_channel_0 videoData i :
  get videoData ((fun i => i * 4) <$> i) = source_channel videoData i 0.
Proof.
  unfold source_channel. destruct i as [z|]; [|done].
  simpl. by rewrite Z.add_0_r.
Qed.

(** C4: whenever [drawSegmentation] draws, whatever the mask, the frame
    and the settings, the image has four bytes for every pixel of the
    canvas and the alpha byte of every pixel is 255; and it does draw for
    every present segmentation, provided no image is empty and the blur
    loop ends. *)
Theorem C4_output_fully_opaque (r : Renderer) (videoData : list byte) :
  (∀ segmentation r' image outline,
     drawSegmentation r videoData segmentation = (r', Drew image outline) →
     length image = (canvas_width r * canvas_height r * 4)%nat ∧
     ∀ p, (p < canvas_width r * canvas_height r)%nat →
          image !! (p * 4 + 3)%nat = Some Byte.xff) ∧
  (∀ data width height,
     width ≠ 0%nat → height ≠ 0%nat →
     canvas_width r ≠ 0%nat → canvas_height r ≠ 0%nat →
     is_Some (process r data width height).2 →
     ∃ r' image outline,
       drawSegmentation r videoData (Some (data, width, height))
       = (r', Drew image outline)).
Proof.
  split; [|apply drawSegmentation_draws].
  intros segmentation r' image outline H.
  apply drawn_image_lookup
    in H as (data & width & height & maskData & _ & _ & Hlen & Hpix).
  split; [done|]. intros p Hp.
  assert (Hcw : canvas_width r ≠ 0%nat) by lia.
  pose proof (Nat.div_mod p (canvas_width r) Hcw) as Hdm.
  pose proof (Nat.mod_upper_bound p (canvas_width r) Hcw) as Hx.
  assert (Hy : (p / canvas_width r < canvas_height r)%nat).
  { apply Nat.Div0.div_lt_upper_bound. lia. }
  specialize (Hpix _ _ 3%nat Hy Hx ltac:(lia)).
  rewrite pixel_byte_alpha in Hpix. rewrite <- Hpix. f_equal.
  unfold pixel_offset. lia.
Qed.

Lemma C4_output_opaque_witness :
  ∃ r' image outline,
    drawSegmentation
      (updateSettings (new_Renderer 2 1)
         (numeric_patch (Some (F64.of_Z 7)) (Some (F64.of_Z 4))))
      [Byte.x0a; Byte.x14; Byte.x1e; Byte.x00]
      (Some ([Byte.x01], 1%nat, 1%nat)) = (r', Drew image outline) ∧
    image !! 3%nat = Some Byte.xff ∧ image !! 7%nat = Some Byte.xff.
Proof.
  set (r := updateSettings (new_Renderer 2 1)
              (numeric_patch (Some (F64.of_Z 7)) (Some (F64.of_Z 4)))).
  set (videoData := [Byte.x0a; Byte.x14; Byte.x1e; Byte.x00]).
  assert (Hsome : is_Some (process r [Byte.x01] 1 1).2)
    by (vm_compute; by eexists).
  destruct (proj2 (C4_output_fully_opaque r videoData) [Byte.x01] 1%nat 1%nat
              ltac:(done) ltac:(done) ltac:(done) ltac:(done) Hsome)
    as (r' & image & outline & H).
  exists r', image, outline. split; [exact H|].
  destruct (proj1 (C4_output_fully_opaque r videoData) _ _ _ _ H) as [_ Ha].
  change (canvas_width r * canvas_height r)%nat with 2%nat in Ha.
  split; [apply (Ha 0%nat) | apply (Ha 1%nat)]; lia.
Defined.

Lemma fills_outline s : vizMode s = "outline" → fills s = false.
Proof. unfold fills. by intros ->. Qed.

(** C3: with background replacement on and vizMode 'outline', a pixel
    whose mask cell is segmented holds the source pixel's colour (no
    blend with the fill colour), a pixel whose mask cell is not segmented
    holds the background colour, and both are opaque. *)
Theorem C3_background_replace_outline_only (r : Renderer)
    (videoData : list byte) (segmentation : option (list byte * nat * nat))
    (r' : Renderer) (image : list byte) (outline : list FillRect) :
  drawSegmentation r videoData segmentation = (r', Drew image outline) →
  bgReplace (settings r) = true →
  vizMode (settings r) = "outline" →
  ∃ data width height maskData,
    segmentation = Some (data, width, height) ∧
    process r data width height = (r', Some maskData) ∧
    ∀ y x, (y < canvas_height r)%nat → (x < canvas_width r)%nat →
      let i := mask_cell_of width (canvas_scaleX r width)
                 (canvas_scaleY r height) y x in
      let o := pixel_offset (canvas_width r) y x in
      image !! (o + 3)%nat = Some Byte.xff ∧
      (get maskData i = Some Byte.x01 →
         image !! o = Some (default Byte.x00 (source_channel videoData i 0)) ∧
         image !! (o + 1)%nat
         = Some (default Byte.x00 (source_channel videoData i 1)) ∧
         image !! (o + 2)%nat
         = Some (default Byte.x00 (source_channel videoData i 2))) ∧
      (get maskData i ≠ Some Byte.x01 →
         (image !! o
          = Some (ToUint8Clamp (hexToRGB (bgColor (settings r))).1.1) ∧
          image !! (o + 1)%nat
          = Some (ToUint8Clamp (hexToRGB (bgColor (settings r))).1.2) ∧
          image !! (o + 2)%nat
          = Some (ToUint8Clamp (hexToRGB (bgColor (settings r))).2)) ∧
         ∀ R G B, rgb_of_color (bgColor (settings r)) = Some (R, G, B) →
           image !! o = Some R ∧ image !! (o + 1)%nat = Some G ∧
           image !! (o + 2)%nat = Some B).
Proof.
  intros H Hbg Hviz.
  apply drawn_image_lookup
    in H as (data & width & height & maskData & -> & Hp & _ & Hpix).
  exists data, width, height, maskData. split; [done|]. split; [done|].
  intros y x Hy Hx i o.
  pose proof (Hpix y x 0%nat Hy Hx ltac:(lia)) as H0.
  pose proof (Hpix y x 1%nat Hy Hx ltac:(lia)) as H1.
  pose proof (Hpix y x 2%nat Hy Hx ltac:(lia)) as H2.
  pose proof (Hpix y x 3%nat Hy Hx ltac:(lia)) as H3.
  rewrite Nat.add_0_r in H0. rewrite pixel_byte_alpha in H3.
  fold o in H0, H1, H2, H3. split; [done|].
  unfold pixel_byte, channel in H0, H1, H2. fold i in H0, H1, H2.
  rewrite Hbg, (fills_outline _ Hviz) in H0, H1, H2.
  destruct (hexToRGB (fillColor (settings r))) as [[fillR fillG] fillB].
  pose proof (hexToRGB_color (bgColor (settings r))) as Hcolor.
  destruct (hexToRGB (bgColor (settings r))) as [[bgR bgG] bgB].
  split.
  - intros Hseg. apply cell_is_true in Hseg. rewrite Hseg in H0, H1, H2.
    rewrite ToUint8Clamp_read in H0, H1, H2.
    by rewrite source_channel_0 in H0.
  - intros Hseg.
    assert (Hno : cell_is (get maskData i) Byte.x01 = false).
    { apply not_true_is_false. by rewrite cell_is_true. }
    rewrite Hno in H0, H1, H2. split; [done|].
    intros R G B HRGB. destruct (Hcolor R G B HRGB) as (HR & HG & HB).
    simpl in HR, HG, HB. by rewrite <- HR, <- HG, <- HB.
Qed.

Lemma C3_background_replace_witness :
  let r := updateSettings (new_Renderer 2 1)
             {| p_vizMode := Some "outline"; p_colorMode := None;
                p_fillColor := Some "#00ff00"; p_outlineColor := None;
                p_bgColor := Some "#102030"; p_fillOpacity := None;
                p_outlineThickness := None; p_showLabels := None;
                p_segmentationMode := None; p_bgReplace := Some true;
                p_smoothing := None |} in
  let videoData := [Byte.x0a; Byte.x14; Byte.x1e; Byte.xff;
                    Byte.x28; Byte.x32; Byte.x3c; Byte.xff] in
  ∃ r' image outline,
    drawSegmentation r videoData (Some ([Byte.x01; Byte.x00], 2%nat, 1%nat))
    = (r', Drew image outline) ∧
    image !! 0%nat = Some Byte.x0a ∧ image !! 4%nat = Some Byte.x10.
Proof.
  intros r videoData. eexists _, _, _. split; [by vm_compute|].
  destruct (C3_background_replace_outline_only r videoData
              (Some ([Byte.x01; Byte.x00], 2%nat, 1%nat)) _ _ _
              eq_refl eq_refl eq_refl)
    as (data & width & height & maskData & Hseg & Hp & Hpix).
  injection Hseg as <- <- <-.
  vm_compute in Hp. injection Hp as <-.
  split.
  - destruct (Hpix 0%nat 0%nat ltac:(vm_compute; lia) ltac:(vm_compute; lia))
      as (_ & Hfg & _).
    by destruct (Hfg eq_refl) as (H0 & _).
  - destruct (Hpix 0%nat 1%nat ltac:(vm_compute; lia) ltac:(vm_compute; lia))
      as (_ & _ & Hbg).
    destruct (Hbg ltac:(by vm_compute)) as (_ & Hrgb).
    by destruct (Hrgb Byte.x10 Byte.x20 Byte.x30 eq_refl) as (H0 & _).
Defined.

(** C1, as the claim states it, fails: for a segmented pixel with source
    colour (100,100,100), fillOpacity 0.5, fillColor #ffffff, bgReplace
    off and vizMode 'fill', the blend is 177.5 in each channel and the
    output pixel is (178,178,178,255), not (177,177,177,255). *)
Lemma C1_counterexample_pixel_is_178 :
  let r := updateSettings (new_Renderer 1 1)
             {| p_vizMode := Some "fill"; p_colorMode := None;
                p_fillColor := Some "#ffffff"; p_outlineColor := None;
                p_bgColor := None; p_fillOpacity := Some (F64.lit 5 10);
                p_outlineThickness := None; p_showLabels := None;
                p_segmentationMode := None; p_bgReplace := Some false;
                p_smoothing := None |} in
  let frame := [Byte.x64; Byte.x64; Byte.x64; Byte.xff] in
  let drawn := (drawSegmentation r frame
                  (Some ([Byte.x01], 1%nat, 1%nat))).2 in
  blend_channel (F64.of_Z 100) (F64.of_Z 255) (F64.lit 5 10) = F64.lit 355 2 ∧
  drawn = Drew [Byte.xb2; Byte.xb2; Byte.xb2; Byte.xff] [] ∧
  drawn ≠ Drew [Byte.xb1; Byte.xb1; Byte.xb1; Byte.xff] [] ∧
  Z_of_byte Byte.xb2 = 178 ∧ Z_of_byte Byte.xb1 = 177.
Proof.
  vm_compute. repeat split; discriminate.
Qed.

(** C1, amended: for a segmented pixel with source colour (100,100,100),
    fillOpacity 0.5, fillColor #ffffff, bgReplace off and vizMode 'fill',
    the compositor produces the output pixel (178,178,178) with alpha
    255: each channel is 100*0.5 + 255*0.5 = 177.5 stored in the byte
    buffer, which rounds a half to the even neighbour. *)
Theorem C1_half_white_over_grey (r : Renderer) (videoData : list byte)
    (segmentation : option (list byte * nat * nat))
    (r' : Renderer) (image : list byte) (outline : list FillRect) :
  drawSegmentation r videoData segmentation = (r', Drew image outline) →
  bgReplace (settings r) = false →
  vizMode (settings r) = "fill" →
  fillOpacity (settings r) = F64.lit 5 10 →
  fillColor (settings r) = "#ffffff" →
  ∃ data width height maskData,
    segmentation = Some (data, width, height) ∧
    process r data width height = (r', Some maskData) ∧
    ∀ y x, (y < canvas_height r)%nat → (x < canvas_width r)%nat →
      let i := mask_cell_of width (canvas_scaleX r width)
                 (canvas_scaleY r height) y x in
      let o := pixel_offset (canvas_width r) y x in
      get maskData i = Some Byte.x01 →
      source_channel videoData i 0 = Some Byte.x64 →
      source_channel videoData i 1 = Some Byte.x64 →
      source_channel videoData i 2 = Some Byte.x64 →
      image !! o = Some Byte.xb2 ∧ image !! (o + 1)%nat = Some Byte.xb2 ∧
      image !! (o + 2)%nat = Some Byte.xb2 ∧
      image !! (o + 3)%nat = Some Byte.xff ∧
      Z_of_byte Byte.xb2 = 178.
Proof.
  intros H Hbg Hviz Hopacity Hfill.
  apply drawn_image_lookup
    in H as (data & width & height & maskData & -> & Hp & _ & Hpix).
  exists data, width, height, maskData. split; [done|]. split; [done|].
  intros y x Hy Hx i o Hseg Hr Hg Hb.
  pose proof (Hpix y x 0%nat Hy Hx ltac:(lia)) as H0.
  pose proof (Hpix y x 1%nat Hy Hx ltac:(lia)) as H1.
  pose proof (Hpix y x 2%nat Hy Hx ltac:(lia)) as H2.
  pose proof (Hpix y x 3%nat Hy Hx ltac:(lia)) as H3.
  rewrite Nat.add_0_r in H0. rewrite pixel_byte_alpha in H3.
  fold o in H0, H1, H2, H3.
  unfold pixel_byte, channel, fills in H0, H1, H2. fold i in H0, H1, H2.
  rewrite source_channel_0 in H0.
  rewrite Hbg, Hviz, Hopacity, Hfill, Hseg in H0, H1, H2.
  rewrite Hr in H0. rewrite Hg in H1. rewrite Hb in H2.
  destruct (hexToRGB (bgColor (settings r))) as [[bgR bgG] bgB].
  by vm_compute in H0, H1, H2.
Qed.

Lemma C1_half_white_over_grey_witness :
  let r := updateSettings (new_Renderer 2 2)
             {| p_vizMode := Some "fill"; p_colorMode := None;
                p_fillColor := Some "#ffffff"; p_outlineColor := None;
                p_bgColor := None; p_fillOpacity := Some (F64.lit 5 10);
                p_outlineThickness := None; p_showLabels := None;
                p_segmentationMode := None; p_bgReplace := Some false;
                p_smoothing := None |} in
  let frame := [Byte.x64; Byte.x64; Byte.x64; Byte.xff] in
  ∃ r' image outline,
    drawSegmentation r frame (Some ([Byte.x01], 1%nat, 1%nat))
    = (r', Drew image outline) ∧
    image !! 12%nat = Some Byte.xb2 ∧ image !! 13%nat = Some Byte.xb2 ∧
    image !! 14%nat = Some Byte.xb2 ∧ image !! 15%nat = Some Byte.xff.
Proof.
  intros r frame.
  destruct (drawSegmentation r frame (Some ([Byte.x01], 1%nat, 1%nat)))
    as [r' drawn] eqn:Hd.
  assert (∃ image outline, drawn = Drew image outline)
    as (image & outline & ->).
  { vm_compute in Hd. injection Hd as <- <-. by eexists _, _. }
  exists r', image, outline. split; [done|].
  destruct (C1_half_white_over_grey r frame _ _ _ _ Hd
              eq_refl eq_refl eq_refl eq_refl)
    as (data & width & height & maskData & Hseg & Hp & Hpix).
  injection Hseg as <- <- <-.
  vm_compute in Hp. injection Hp as <- <-.
  destruct (Hpix 1%nat 1%nat ltac:(vm_compute; lia) ltac:(vm_compute; lia)
              ltac:(by vm_compute) ltac:(by vm_compute)
              ltac:(by vm_compute) ltac:(by vm_compute))
    as (H0 & H1 & H2 & H3 & _).
  change (pixel_offset (canvas_width r) 1 1) with 12%nat in H0, H1, H2, H3.
  repeat split; assumption.
Defined.


(** ** The smoothing loop *)

(** After [k] rounds the first [k] cells are blended and the others are
    as before. *)
Lemma smooth_loop_rounds factor (currentMask : list byte)
    (prev : list spec_float) (k : nat) :
  length prev = length currentMask →
  (k ≤ length currentMask)%nat →
  let st := foldl (smooth_cell factor currentMask)
                  (prev, replicate (length currentMask) Byte.x00)
                  (seq 0 k) in
  length st.1 = length currentMask ∧ length st.2 = length currentMask ∧
  ∀ i p c, prev !! i = Some p → currentMask !! i = Some c →
    st.1 !! i = Some (if decide (i < k)%nat then cell_step factor c p else p) ∧
    st.2 !! i = Some (if decide (i < k)%nat then cell_out factor c p
                      else Byte.x00).
Proof.
  intros Hlen. induction k as [|k IH]; intros Hk; cbv zeta in *.
  - simpl. split; [done|]. split; [by rewrite length_replicate|].
    intros i p c Hp Hc. split; [done|].
    apply lookup_replicate_2. by apply lookup_lt_Some in Hc.
  - destruct (IH ltac:(lia)) as (Hl1 & Hl2 & Hcells).
    rewrite seq_S, foldl_app. simpl.
    destruct (foldl _ _ (seq 0 k)) as [prev' smoothed]. simpl in *.
    split; [by rewrite length_insert|]. split; [by rewrite length_insert|].
    intros i p c Hp Hc. destruct (Hcells i p c Hp Hc) as [H1 H2].
    destruct (decide (i = k)) as [->|Hne].
    + rewrite decide_False in H1 by lia. rewrite decide_False in H2 by lia.
      rewrite !decide_True by lia.
      rewrite !list_lookup_insert_eq by lia.
      by rewrite H1, Hc.
    + rewrite !list_lookup_insert_ne by done. rewrite H1, H2.
      by split; repeat case_decide; try lia.
Qed.

Lemma smooth_loop factor (currentMask : list byte) (prev : list spec_float) :
  length prev = length currentMask →
  foldl (smooth_cell factor currentMask)
        (prev, replicate (length currentMask) Byte.x00)
        (seq 0 (length currentMask))
  = (zip_with (fun p c => cell_step factor c p) prev currentMask,
     zip_with (fun p c => cell_out factor c p) prev currentMask).
Proof.
  intros Hlen.
  destruct (smooth_loop_rounds factor currentMask prev (length currentMask)
              Hlen ltac:(lia)) as (Hl1 & Hl2 & Hcells).
  destruct (foldl _ _ _) as [prev' smoothed]. simpl in *.
  f_equal; apply list_eq; intros i; rewrite lookup_zip_with.
  - destruct (prev !! i) as [p|] eqn:Hp; simpl.
    + destruct (lookup_lt_is_Some_2 currentMask i) as [c Hc].
      { rewrite <- Hlen. by apply lookup_lt_Some in Hp. }
      rewrite Hc. simpl. destruct (Hcells i p c Hp Hc) as [H1 _].
      apply lookup_lt_Some in Hc. by rewrite decide_True in H1 by lia.
    + apply lookup_ge_None. apply lookup_ge_None in Hp. lia.
  - destruct (prev !! i) as [p|] eqn:Hp; simpl.
    + destruct (lookup_lt_is_Some_2 currentMask i) as [c Hc].
      { rewrite <- Hlen. by apply lookup_lt_Some in Hp. }
      rewrite Hc. simpl. destruct (Hcells i p c Hp Hc) as [_ H2].
      apply lookup_lt_Some in Hc. by rewrite decide_True in H2 by lia.
    + apply lookup_ge_None. apply lookup_ge_None in Hp. lia.
Qed.

(** [smoothMask] when it blends. *)
Lemma smoothMask_blends r currentMask width height prev :
  F64.eqb (smoothing (settings r)) F64.zero = false →
  prevMask r = Some prev →
  length prev = length currentMask →
  smoothMask r currentMask width height
  = (set_prevMask r
       (zip_with (fun p c =>
          cell_step (F64.div (smoothing (settings r)) (F64.of_Z 10)) c p)
          prev currentMask),
     zip_with (fun p c =>
       cell_out (F64.div (smoothing (settings r)) (F64.of_Z 10)) c p)
       prev currentMask).
Proof.
  intros Hs Hprev Hlen. unfold smoothMask. rewrite Hs, Hprev.
  rewrite bool_decide_eq_false_2 by (intros H; by apply H).
  by rewrite smooth_loop.
Qed.


(** ** A constant mask stream *)

Lemma zip_with_zip_with_l {A B C D} (g : C → B → D) (f : A → B → C)
    (l : list A) (k : list B) :
  zip_with g (zip_with f l k) k = zip_with (fun a b => g (f a b) b) l k.
Proof.
  revert k. induction l as [|a l IH]; intros [|b k]; simpl; [done..|].
  by rewrite IH.
Qed.

Lemma after_frames_S r M width height n :
  after_frames r M width height (S n)
  = (smoothMask (after_frames r M width height n) M width height).1.
Proof. done. Qed.

(** The history after [n] frames of the same mask, cell by cell. *)
Lemma after_frames_blend r M width height prev n :
  F64.eqb (smoothing (settings r)) F64.zero = false →
  prevMask r = Some prev →
  length prev = length M →
  settings (after_frames r M width height n) = settings r ∧
  prevMask (after_frames r M width height n)
  = Some (zip_with (fun p c =>
            Nat.iter n (cell_step
              (F64.div (smoothing (settings r)) (F64.of_Z 10)) c) p) prev M).
Proof.
  intros Hs Hprev Hlen. induction n as [|n [IHs IHp]].
  - simpl. split; [done|]. rewrite Hprev. f_equal.
    clear Hprev. revert M Hlen.
    induction prev as [|p prev IH]; intros [|c M] Hlen; simpl in *; try done.
    f_equal. apply IH. lia.
  - rewrite after_frames_S.
    pose proof (smoothMask_frame (after_frames r M width height n)
                  M width height) as (Hs' & _).
    split; [by rewrite Hs', IHs|].
    rewrite (smoothMask_blends _ M width height _ ltac:(by rewrite IHs) IHp)
      by (rewrite length_zip_with; lia).
    simpl. f_equal. rewrite zip_with_zip_with_l, IHs. done.
Qed.

Lemma output_at_blend r M width height prev n :
  F64.eqb (smoothing (settings r)) F64.zero = false →
  prevMask r = Some prev →
  length prev = length M →
  output_at r M width height n
  = zip_with (fun p c =>
      cell_out (F64.div (smoothing (settings r)) (F64.of_Z 10)) c
        (Nat.iter n (cell_step
           (F64.div (smoothing (settings r)) (F64.of_Z 10)) c) p)) prev M.
Proof.
  intros Hs Hprev Hlen. unfold output_at.
  destruct (after_frames_blend r M width height prev n Hs Hprev Hlen)
    as [Hs' Hp'].
  rewrite (smoothMask_blends _ M width height _ ltac:(by rewrite Hs') Hp')
    by (rewrite length_zip_with; lia).
  simpl. by rewrite zip_with_zip_with_l, Hs'.
Qed.

Lemma same_number_eq a b : same_number a b = true → a = b.
Proof.
  destruct a as [s|s| |s m e], b as [s'|s'| |s' m' e']; simpl; try done.
  - by intros ->%eqb_prop.
  - by intros ->%eqb_prop.
  - rewrite !andb_true_iff.
    by intros [[->%eqb_prop ->%Pos.eqb_eq] ->%Z.eqb_eq].
Qed.

(** Once settled, a cell stays settled. *)
Lemma settled_forever N factor c p n :
  settled N factor c p = true → (N ≤ n)%nat →
  cell_out factor c (Nat.iter n (cell_step factor c) p) = c.
Proof.
  unfold settled. cbv zeta. rewrite andb_true_iff.
  intros [Hfix%same_number_eq Hout%Byte.byte_dec_bl] Hn.
  replace n with ((n - N) + N)%nat by lia.
  rewrite Nat.iter_add.
  induction (n - N)%nat as [|d IH]; simpl; [done|].
  assert (Hq : Nat.iter d (cell_step factor c)
                 (Nat.iter N (cell_step factor c) p)
               = Nat.iter N (cell_step factor c) p).
  { clear IH. induction d as [|d IHd]; simpl; [done|]. by rewrite IHd. }
  by rewrite Hq, Hfix.
Qed.


Lemma setting_cases k :
  1 ≤ k ≤ 9 →
  k = 1 ∨ k = 2 ∨ k = 3 ∨ k = 4 ∨ k = 5 ∨ k = 6 ∨ k = 7 ∨ k = 8 ∨ k = 9.
Proof. lia. Qed.

Lemma factor_eqb_zero k :
  1 ≤ k ≤ 9 → F64.eqb (F64.of_Z k) F64.zero = false.
Proof.
  intros Hk. pose proof (setting_cases k Hk) as H.
  repeat (destruct H as [->|H]; [by vm_compute|]). subst k. by vm_compute.
Qed.

(** For a setting from 1 to 9, a cell that starts at 0 or 1 under a
    constant mask bit is settled after 1000 frames. *)
Lemma bit_cell_settled k c p :
  1 ≤ k ≤ 9 → is_bit c → p = F64.zero ∨ p = F64.one →
  settled 1000 (factor_of k) c p = true.
Proof.
  intros Hk Hc Hp. pose proof (setting_cases k Hk) as H.
  destruct Hc as [-> | ->], Hp as [-> | ->];
    repeat (destruct H as [->|H]; [by vm_compute|]); subst k; by vm_compute.
Qed.

(** * Rounding is monotone *)

Lemma digits2_pos_bounds (m : positive) :
  2 ^ (Zpos (digits2_pos m) - 1) ≤ Zpos m < 2 ^ Zpos (digits2_pos m).
Proof.
  induction m as [m IH|m IH|]; simpl digits2_pos.
  - rewrite Pos2Z.inj_succ. change (Zpos m~1) with (2 * Zpos m + 1).
    replace (Z.succ (Zpos (digits2_pos m)) - 1) with (Z.succ (Zpos (digits2_pos m) - 1)) by lia.
    rewrite !Z.pow_succ_r by lia. lia.
  - rewrite Pos2Z.inj_succ. change (Zpos m~0) with (2 * Zpos m).
    replace (Z.succ (Zpos (digits2_pos m)) - 1) with (Z.succ (Zpos (digits2_pos m) - 1)) by lia.
    rewrite !Z.pow_succ_r by lia. lia.
  - simpl. lia.
Qed.

(** The number of digits is determined by the bounds. *)
Lemma digits_unique (m : positive) (d : Z) :
  2 ^ (d - 1) ≤ Zpos m < 2 ^ d → Zpos (digits2_pos m) = d.
Proof.
  intros [Hlo Hhi]. destruct (digits2_pos_bounds m) as [Hlo' Hhi'].
  assert (0 < d).
  { destruct (Z_lt_le_dec 0 d); [done|].
    assert (2 ^ d ≤ 2 ^ 0) by (apply Z.pow_le_mono_r; lia). simpl in *. lia. }
  destruct (Z.lt_trichotomy (Zpos (digits2_pos m)) d) as [Hlt|[Heq|Hgt]]; [|done|].
  - assert (2 ^ Zpos (digits2_pos m) ≤ 2 ^ (d - 1)) by (apply Z.pow_le_mono_r; lia). lia.
  - assert (2 ^ d ≤ 2 ^ (Zpos (digits2_pos m) - 1)) by (apply Z.pow_le_mono_r; lia). lia.
Qed.

Lemma iter_pos_nat {A} (f : A → A) (p : positive) (x : A) :
  SpecFloat.iter_pos f p x = Nat.iter (Pos.to_nat p) f x.
Proof.
  revert x. induction p as [p IH|p IH|]; intros x; cbn [SpecFloat.iter_pos].
  - rewrite !IH, Pos2Nat.inj_xI.
    replace (S (2 * Pos.to_nat p))%nat
      with (Pos.to_nat p + (Pos.to_nat p + 1))%nat by lia.
    by rewrite !Nat.iter_add.
  - rewrite !IH, Pos2Nat.inj_xO.
    replace (2 * Pos.to_nat p)%nat with (Pos.to_nat p + Pos.to_nat p)%nat by lia.
    by rewrite Nat.iter_add.
  - done.
Qed.

Lemma shr_1_nonneg m r s :
  0 ≤ m →
  shr_1 (Build_shr_record m r s) = Build_shr_record (m / 2) (Z.odd m) (r || s).
Proof.
  intros Hm. rewrite <- Z.div2_div.
  destruct m as [|[p|p|]|p]; simpl; try done; lia.
Qed.

(** The state after [j] one-bit shifts: quotient, round bit, sticky bit. *)
Lemma shr_iter (j : nat) (m : Z) :
  0 ≤ m →
  Nat.iter (S j) shr_1 (Build_shr_record m false false)
  = Build_shr_record (m / 2 ^ (Z.of_nat j + 1))
      (Z.odd (m / 2 ^ Z.of_nat j))
      (negb (m mod 2 ^ Z.of_nat j =? 0)).
Proof.
  intros Hm. induction j as [|j IH].
  - change (Nat.iter 1 shr_1 ?x) with (shr_1 x). rewrite shr_1_nonneg by done.
    change (Z.of_nat 0) with 0. change (2 ^ 0) with 1. change (2 ^ (0 + 1)) with 2.
    by rewrite Z.div_1_r, Z.mod_1_r.
  - rewrite Nat.iter_succ, IH. rewrite shr_1_nonneg by (apply Z.div_pos; lia).
    rewrite Nat2Z.inj_succ. f_equal.
    + rewrite Z.div_div by lia. f_equal.
      replace (Z.succ (Z.of_nat j) + 1) with (Z.succ (Z.of_nat j + 1)) by lia.
      rewrite Z.pow_succ_r by lia. lia.
    + rewrite Z.pow_succ_r by lia.
      rewrite (Z.mul_comm 2), Z.rem_mul_r by lia.
      pose proof (Z.mod_pos_bound m (2 ^ Z.of_nat j) ltac:(lia)).
      rewrite Zodd_mod.
      pose proof (Z.mod_pos_bound (m / 2 ^ Z.of_nat j) 2 ltac:(lia)).
      destruct (Z.eqb_spec ((m / 2 ^ Z.of_nat j) mod 2) 1),
        (Z.eqb_spec (m mod 2 ^ Z.of_nat j) 0); simpl; symmetry;
        rewrite ?negb_true_iff, ?negb_false_iff, ?Z.eqb_eq, ?Z.eqb_neq; nia.
Qed.

Lemma round_shift_nearest (j : nat) (m : Z) :
  0 ≤ m →
  let mrs := Nat.iter (S j) shr_1 (Build_shr_record m false false) in
  let M := round_nearest_even (shr_m mrs) (loc_of_shr_record mrs) in
  nearest_even m (2 ^ (Z.of_nat j + 1)) M ∧ 0 ≤ M.
Proof.
  intros Hm. cbv zeta. rewrite shr_iter by done.
  set (h := 2 ^ Z.of_nat j).
  assert (Hh : 0 < h) by (apply Z.pow_pos_nonneg; lia).
  assert (Hu : 2 ^ (Z.of_nat j + 1) = 2 * h).
  { unfold h. rewrite Z.pow_add_r by lia. change (2 ^ 1) with 2. lia. }
  rewrite Hu.
  pose proof (Z.div_mod m (2 * h) ltac:(lia)) as Hdm.
  pose proof (Z.rem_mul_r m h 2 ltac:(lia) ltac:(lia)) as Hrem.
  rewrite (Z.mul_comm h 2) in Hrem.
  pose proof (Z.mod_pos_bound m h Hh) as Hb1.
  pose proof (Z.mod_pos_bound (m / h) 2 ltac:(lia)) as Hb2.
  pose proof (Z.div_pos m (2 * h) Hm ltac:(lia)) as Hq.
  rewrite Zodd_mod.
  set (q := m / (2 * h)) in *. set (t := (m / h) mod 2) in *.
  set (l := m mod h) in *. set (rem := m mod (2 * h)) in *.
  unfold nearest_even. simpl shr_m.
  destruct (Z.eqb_spec t 1) as [Ht|Ht], (Z.eqb_spec l 0) as [Hl|Hl];
    simpl loc_of_shr_record; simpl round_nearest_even.
  - destruct (Z.even q) eqn:He.
    + repeat split; try nia; done.
    + repeat split; try nia; intros _; rewrite Z.even_add; by rewrite He.
  - repeat split; try nia; intros [?|?]; nia.
  - repeat split; try nia; intros [?|?]; nia.
  - repeat split; try nia; intros [?|?]; nia.
Qed.

Lemma nearest_even_bounds (x n d M : Z) :
  0 ≤ n → 0 ≤ M →
  2 ^ (d - 1) ≤ x < 2 ^ d →
  nearest_even x (2 ^ n) M →
  (n ≤ d → M ≤ 2 ^ (d - n)) ∧
  (d < n → M = 0) ∧
  (n ≤ d - 1 → 2 ^ (d - 1 - n) ≤ M).
Proof.
  intros Hn HM [Hlo Hhi] (H1 & H2 & _).
  assert (Hu : 0 < 2 ^ n) by (apply Z.pow_pos_nonneg; lia).
  assert (Hd0 : 0 ≤ d).
  { destruct (Z_lt_le_dec d 0) as [Hneg|]; [|done].
    rewrite (Z.pow_neg_r 2 d Hneg) in Hhi.
    rewrite (Z.pow_neg_r 2 (d - 1)) in Hlo by lia. lia. }
  split; [|split].
  - intros Hnd.
    assert (Hd : 2 ^ d = 2 ^ (d - n) * 2 ^ n).
    { rewrite <- Z.pow_add_r by lia. f_equal. lia. }
    assert (0 < 2 ^ (d - n)) by (apply Z.pow_pos_nonneg; lia).
    nia.
  - intros Hdn.
    assert (Hd : 2 ^ n = 2 * 2 ^ (n - 1)).
    { rewrite <- Z.pow_succ_r by lia. f_equal. lia. }
    assert (2 ^ d ≤ 2 ^ (n - 1)) by (apply Z.pow_le_mono_r; lia).
    nia.
  - intros Hnd.
    assert (Hd : 2 ^ (d - 1) = 2 ^ (d - 1 - n) * 2 ^ n).
    { rewrite <- Z.pow_add_r by lia. f_equal. lia. }
    assert (0 < 2 ^ (d - 1 - n)) by (apply Z.pow_pos_nonneg; lia).
    nia.
Qed.

Section Format.
Variables prec emax : Z.
Hypothesis Hprec : 0 < prec.
Hypothesis Hemax : prec < emax.

Lemma fexp_eq e : fexp prec emax e = Z.max (e - prec) (3 - emax - prec).
Proof. done. Qed.

Lemma round_aux_spec (mx : positive) (ex : Z) :
  let g := Zpos (digits2_pos mx) + ex in
  let E := fexp prec emax g in
  ex ≤ E → g < emax →
  ∃ M, 0 ≤ M ∧ nearest_even (Zpos mx) (2 ^ (E - ex)) M ∧
       encodes prec emax (binary_round_aux prec emax false (Zpos mx) ex loc_Exact) M E.
Proof.
  intros g E HE Hg.
  pose proof (digits2_pos_bounds mx) as Hdig.
  unfold binary_round_aux.
  (* first shift *)
  assert (Hfirst : ∃ mrs, shr_fexp prec emax (Zpos mx) ex loc_Exact = (mrs, E) ∧
            let M := round_nearest_even (shr_m mrs) (loc_of_shr_record mrs) in
            nearest_even (Zpos mx) (2 ^ (E - ex)) M ∧ 0 ≤ M).
  { unfold shr_fexp, shr. simpl Zdigits2. fold g. fold E.
    destruct (E - ex) as [|p|p] eqn:Hn; [| |lia].
    - eexists. split; [f_equal; lia|]. simpl.
      unfold nearest_even. repeat split; try lia.
    - eexists. split; [f_equal; lia|]. simpl shr_record_of_loc.
      rewrite iter_pos_nat.
      destruct (Pos2Nat.is_succ p) as [j Hj]. rewrite Hj.
      replace (Zpos p) with (Z.of_nat j + 1) by lia.
      by apply round_shift_nearest. }
  destruct Hfirst as (mrs & -> & Hnear & HM).
  cbv zeta in Hnear, HM.
  set (M := round_nearest_even (shr_m mrs) (loc_of_shr_record mrs)) in *.
  exists M. split; [done|]. split; [done|].
  destruct (nearest_even_bounds (Zpos mx) (E - ex) (Zpos (digits2_pos mx)) M
              ltac:(lia) HM Hdig Hnear) as (Hup & Hzero & Hlow).
  replace (Zpos (digits2_pos mx) - (E - ex)) with (g - E) in Hup by (unfold g; lia).
  replace (Zpos (digits2_pos mx) - 1 - (E - ex)) with (g - 1 - E) in Hlow
    by (unfold g; lia).
  assert (HEmin : 3 - emax - prec ≤ E) by (unfold E; rewrite fexp_eq; lia).
  assert (HEg : g - prec ≤ E) by (unfold E; rewrite fexp_eq; lia).
  assert (HEcase : E = g - prec ∨ E = 3 - emax - prec)
    by (unfold E; rewrite fexp_eq; lia).
  unfold shr_fexp. simpl shr_record_of_loc.
  destruct M as [|m|m] eqn:HMeq; [| |lia].
  - (* zero *)
    simpl Zdigits2. unfold shr.
    assert (fexp prec emax (0 + E) - E ≤ 0) by (rewrite fexp_eq; lia).
    destruct (fexp prec emax (0 + E) - E) eqn:Hs; try lia; simpl; by left.
  - simpl Zdigits2.
    pose proof (digits2_pos_bounds m) as Hdm.
    assert (Hmle : Zpos m ≤ 2 ^ prec).
    { destruct (Z_le_gt_dec (E - ex) (Zpos (digits2_pos mx))) as [Hc|Hc].
      - specialize (Hup Hc).
        assert (2 ^ (g - E) ≤ 2 ^ prec) by (apply Z.pow_le_mono_r; lia). lia.
      - specialize (Hzero ltac:(lia)). lia. }
    destruct (Z_le_gt_dec (Zpos (digits2_pos m)) prec) as [Hd|Hd].
    + (* no carry *)
      assert (Hs : fexp prec emax (Zpos (digits2_pos m) + E) - E ≤ 0)
        by (rewrite fexp_eq; lia).
      unfold shr. destruct (fexp prec emax (Zpos (digits2_pos m) + E) - E)
        eqn:Hs'; try lia; simpl shr_m; cbv iota beta.
      all: rewrite (proj2 (Z.leb_le E (emax - prec))) by lia.
      all: right; exists m, E; split; [done|]; split; [lia|].
      all: rewrite Z.sub_diag, Z.mul_1_r; split; [done|].
      all: unfold bounded, canonical_mantissa.
      all: rewrite (proj2 (Z.leb_le E (emax - prec))) by lia.
      all: rewrite andb_true_r; apply Z.eqb_eq; rewrite fexp_eq.
      all: destruct HEcase as [HEc|HEc]; [|lia].
      all: assert (2 ^ (prec - 1) ≤ Zpos m)
             by (replace (prec - 1) with (g - 1 - E) by lia; apply Hlow; lia).
      all: assert (prec - 1 < Zpos (digits2_pos m))
             by (apply (Z.pow_lt_mono_r_iff 2); lia).
      all: lia.
    + (* carry: M = 2 ^ prec *)
      assert (Hdp : Zpos (digits2_pos m) = prec + 1).
      { apply digits_unique. replace (prec + 1 - 1) with prec by lia.
        split; [|rewrite Z.pow_add_r by lia; change (2 ^ 1) with 2; lia].
        assert (2 ^ prec ≤ 2 ^ (Zpos (digits2_pos m) - 1))
          by (apply Z.pow_le_mono_r; lia). lia. }
      assert (Hm2 : Zpos m = 2 ^ prec).
      { assert (2 ^ prec ≤ 2 ^ (Zpos (digits2_pos m) - 1))
          by (apply Z.pow_le_mono_r; lia). lia. }
      assert (HEc : E = g - prec).
      { destruct (Z.eq_dec E (g - prec)) as [|Hne]; [done|].
        assert (g - E < prec) by lia.
        destruct (Z_le_gt_dec (E - ex) (Zpos (digits2_pos mx))) as [Hc|Hc].
        - specialize (Hup Hc).
          assert (2 ^ (g - E) < 2 ^ prec) by (apply Z.pow_lt_mono_r; unfold g in *; lia).
          lia.
        - specialize (Hzero ltac:(lia)). lia. }
      rewrite Hdp.
      replace (fexp prec emax (prec + 1 + E) - E) with 1 by (rewrite fexp_eq; lia).
      change (shr ?a ?b 1) with (shr_1 a, b + 1).
      rewrite shr_1_nonneg by lia. simpl shr_m.
      assert (Hhalf : Zpos m / 2 = 2 ^ (prec - 1)).
      { rewrite Hm2. replace prec with ((prec - 1) + 1) at 1 by lia.
        rewrite Z.pow_add_r by lia. change (2 ^ 1) with 2.
        by rewrite Z.div_mul. }
      assert (Hpp : 2 ^ prec = 2 * 2 ^ (prec - 1)).
      { rewrite <- Z.pow_succ_r by lia. f_equal. lia. }
      assert (Hpos : 0 < Zpos m / 2) by (rewrite Hhalf; apply Z.pow_pos_nonneg; lia).
      destruct (Zpos m / 2) as [|m2|m2] eqn:Hm2'; [lia| |lia].
      rewrite (proj2 (Z.leb_le (E + 1) (emax - prec))) by lia.
      right. exists m2, (E + 1). split; [done|]. split; [lia|].
      replace (E + 1 - E) with 1 by lia. change (2 ^ 1) with 2.
      split; [lia|].
      unfold bounded, canonical_mantissa.
      rewrite (proj2 (Z.leb_le (E + 1) (emax - prec))) by lia.
      rewrite andb_true_r. apply Z.eqb_eq. rewrite fexp_eq.
      assert (Zpos (digits2_pos m2) = prec).
      { apply digits_unique. rewrite Hhalf. split; [lia|].
        apply Z.pow_lt_mono_r; lia. }
      lia.
Qed.

Lemma pos_iter_xO (mx d : positive) :
  Zpos (Pos.iter xO mx d) = Zpos mx * 2 ^ Zpos d.
Proof.
  induction d as [|d IH] using Pos.peano_ind.
  - simpl. lia.
  - rewrite Pos.iter_succ, Pos2Z.inj_succ, Z.pow_succ_r by lia.
    change (Zpos (Pos.iter xO mx d)~0) with (2 * Zpos (Pos.iter xO mx d)).
    rewrite IH. lia.
Qed.

Lemma shl_align_spec (mx : positive) (ex ex' : Z) :
  (shl_align mx ex ex').2 = Z.min ex ex' ∧
  Zpos (shl_align mx ex ex').1 = Zpos mx * 2 ^ (ex - Z.min ex ex').
Proof.
  unfold shl_align. destruct (ex' - ex) as [|d|d] eqn:Hd; simpl.
  - split; [lia|]. replace (ex - Z.min ex ex') with 0 by lia. lia.
  - split; [lia|]. replace (ex - Z.min ex ex') with 0 by lia. lia.
  - split; [lia|]. rewrite pos_iter_xO. f_equal. f_equal. lia.
Qed.

Lemma digits_shift (mx mz : positive) (k : Z) :
  0 ≤ k → Zpos mz = Zpos mx * 2 ^ k →
  Zpos (digits2_pos mz) = Zpos (digits2_pos mx) + k.
Proof.
  intros Hk Hz. apply digits_unique. rewrite Hz.
  destruct (digits2_pos_bounds mx) as [Hlo Hhi].
  assert (0 < 2 ^ k) by (apply Z.pow_pos_nonneg; lia).
  replace (Zpos (digits2_pos mx) + k - 1) with (Zpos (digits2_pos mx) - 1 + k) by lia.
  rewrite !Z.pow_add_r by lia. nia.
Qed.

Lemma nearest_even_scale (x u M s : Z) :
  0 < s → nearest_even x u M → nearest_even (x * s) (u * s) M.
Proof.
  intros Hs (H1 & H2 & H3). repeat split; try nia.
  intros [H|H]; apply H3; [left|right]; nia.
Qed.

Lemma nearest_even_mono (X1 X2 U M1 M2 : Z) :
  0 < U → nearest_even X1 U M1 → nearest_even X2 U M2 → X1 ≤ X2 → M1 ≤ M2.
Proof.
  intros HU (A1 & A2 & A3) (B1 & B2 & B3) HX.
  destruct (Z_le_gt_dec M1 M2) as [|Hgt]; [done|exfalso].
  assert (M1 = M2 + 1) by nia. subst M1.
  assert (Z.even (M2 + 1) = true) by (apply A3; left; nia).
  assert (Z.even M2 = true) by (apply B3; right; nia).
  rewrite Z.even_add in *. destruct (Z.even M2); done.
Qed.

Lemma round_aux_rounded (b : Z) (mx : positive) (ex : Z) :
  b ≤ ex →
  ex ≤ fexp prec emax (Zpos (digits2_pos mx) + ex) →
  Zpos (digits2_pos mx) + ex < emax →
  rounded prec emax b mx ex (binary_round_aux prec emax false (Zpos mx) ex loc_Exact).
Proof.
  intros Hb HE Hg.
  destruct (round_aux_spec mx ex HE Hg) as (M & HM & Hnear & Henc).
  pose proof (digits2_pos_bounds mx) as Hdig.
  destruct (nearest_even_bounds (Zpos mx)
              (fexp prec emax (Zpos (digits2_pos mx) + ex) - ex)
              (Zpos (digits2_pos mx)) M ltac:(lia) HM Hdig Hnear)
    as (Hup & Hzero & Hlow).
  exists M. split; [done|]. split.
  { replace (2 ^ (fexp prec emax (Zpos (digits2_pos mx) + ex) - b))
      with (2 ^ (fexp prec emax (Zpos (digits2_pos mx) + ex) - ex) * 2 ^ (ex - b)).
    - apply nearest_even_scale; [apply Z.pow_pos_nonneg; lia|done].
    - rewrite <- Z.pow_add_r by lia. f_equal. lia. }
  split; [|split; [|split]]; try done.
  - intros H. specialize (Hup ltac:(lia)).
    by replace (Zpos (digits2_pos mx) + ex
                - fexp prec emax (Zpos (digits2_pos mx) + ex))
      with (Zpos (digits2_pos mx)
            - (fexp prec emax (Zpos (digits2_pos mx) + ex) - ex)) by lia.
  - intros H. apply Hzero. lia.
  - intros H. specialize (Hlow ltac:(lia)).
    by replace (Zpos (digits2_pos mx) + ex - 1
                - fexp prec emax (Zpos (digits2_pos mx) + ex))
      with (Zpos (digits2_pos mx) - 1
            - (fexp prec emax (Zpos (digits2_pos mx) + ex) - ex)) by lia.
Qed.

Lemma round_rounded (b : Z) (mx : positive) (ex : Z) :
  b ≤ ex → b ≤ 3 - emax - prec →
  Zpos (digits2_pos mx) + ex < emax →
  rounded prec emax b mx ex (binary_round prec emax false mx ex).
Proof.
  intros Hb Hbe Hg. unfold binary_round.
  set (E := fexp prec emax (Zpos (digits2_pos mx) + ex)).
  destruct (shl_align_spec mx ex E) as [He Hm].
  destruct (shl_align mx ex E) as [mz ez]. simpl in He, Hm. subst ez.
  assert (Hdz : Zpos (digits2_pos mz) + Z.min ex E = Zpos (digits2_pos mx) + ex).
  { rewrite (digits_shift mx mz (ex - Z.min ex E)) by (done || lia). lia. }
  assert (HbE : b ≤ E) by (unfold E; rewrite fexp_eq; lia).
  pose proof (round_aux_rounded b mz (Z.min ex E) ltac:(lia)) as H.
  rewrite Hdz in H. fold E in H.
  specialize (H ltac:(lia) Hg).
  unfold rounded in *. rewrite Hdz in H. fold E in H. fold E.
  destruct H as (M & HM & Hnear & Hrest). exists M. split; [done|].
  split; [|done].
  replace (Zpos mx * 2 ^ (ex - b)) with (Zpos mz * 2 ^ (Z.min ex E - b)); [done|].
  rewrite Hm, <- Z.mul_assoc, <- Z.pow_add_r by lia. do 2 f_equal. lia.
Qed.

Lemma encodes_val (b : Z) res M E :
  b ≤ E → encodes prec emax res M E → val b res = M * 2 ^ (E - b).
Proof.
  intros Hb [[-> ->]|(m & e & -> & He & <- & _)]; simpl; [done|].
  rewrite <- Z.mul_assoc, <- Z.pow_add_r by lia. do 2 f_equal. lia.
Qed.

(** Rounding is monotone. *)
Theorem rounded_mono (b : Z) (mx1 mx2 : positive) (ex1 ex2 : Z) r1 r2 :
  b ≤ ex1 → b ≤ ex2 → b ≤ 3 - emax - prec →
  rounded prec emax b mx1 ex1 r1 → rounded prec emax b mx2 ex2 r2 →
  Zpos mx1 * 2 ^ (ex1 - b) ≤ Zpos mx2 * 2 ^ (ex2 - b) →
  val b r1 ≤ val b r2.
Proof.
  intros Hb1 Hb2 Hbe (M1 & HM1 & Hn1 & Hu1 & Hz1 & Hl1 & Hc1)
    (M2 & HM2 & Hn2 & Hu2 & Hz2 & Hl2 & Hc2) HX.
  pose proof Hprec as Hp0. pose proof Hemax as He0.
  set (g1 := Zpos (digits2_pos mx1) + ex1) in *.
  set (g2 := Zpos (digits2_pos mx2) + ex2) in *.
  set (E1 := fexp prec emax g1) in *. set (E2 := fexp prec emax g2) in *.
  assert (HbE1 : b ≤ E1) by (unfold E1; rewrite fexp_eq; lia).
  assert (HbE2 : b ≤ E2) by (unfold E2; rewrite fexp_eq; lia).
  rewrite (encodes_val b r1 M1 E1 HbE1 Hc1), (encodes_val b r2 M2 E2 HbE2 Hc2).
  destruct (digits2_pos_bounds mx1) as [Hlo1 Hhi1].
  destruct (digits2_pos_bounds mx2) as [Hlo2 Hhi2].
  assert (Hg : g1 ≤ g2).
  { destruct (Z_le_gt_dec g1 g2) as [|Hgt]; [done|exfalso].
    assert (Hp : 2 ^ (Zpos (digits2_pos mx2) + (ex2 - b))
                 ≤ 2 ^ (Zpos (digits2_pos mx1) - 1 + (ex1 - b)))
      by (apply Z.pow_le_mono_r; unfold g1, g2 in *; lia).
    rewrite !Z.pow_add_r in Hp by lia.
    assert (0 < 2 ^ (ex1 - b)) by (apply Z.pow_pos_nonneg; lia).
    assert (0 < 2 ^ (ex2 - b)) by (apply Z.pow_pos_nonneg; lia).
    assert (Zpos mx2 * 2 ^ (ex2 - b)
            < 2 ^ Zpos (digits2_pos mx2) * 2 ^ (ex2 - b))
      by (apply Z.mul_lt_mono_pos_r; lia).
    assert (2 ^ (Zpos (digits2_pos mx1) - 1) * 2 ^ (ex1 - b)
            ≤ Zpos mx1 * 2 ^ (ex1 - b))
      by (apply Z.mul_le_mono_nonneg_r; lia).
    lia. }
  assert (HE : E1 ≤ E2) by (unfold E1, E2; rewrite !fexp_eq; lia).
  destruct (Z.eq_dec E1 E2) as [Heq|Hne].
  - rewrite <- Heq in *.
    assert (0 < 2 ^ (E1 - b)) by (apply Z.pow_pos_nonneg; lia).
    assert (M1 ≤ M2) by (eapply nearest_even_mono; [|exact Hn1|exact Hn2|]; done).
    apply Z.mul_le_mono_nonneg_r; lia.
  - assert (HE2 : E2 = g2 - prec) by (unfold E1, E2 in *; rewrite !fexp_eq in *; lia).
    assert (Hg12 : g1 ≤ g2 - 1) by (unfold E1, E2 in *; rewrite !fexp_eq in *; lia).
    specialize (Hl2 ltac:(lia)).
    assert (Hlow : 2 ^ (g2 - 1 - b) ≤ M2 * 2 ^ (E2 - b)).
    { replace (g2 - 1 - b) with ((g2 - 1 - E2) + (E2 - b)) by lia.
      rewrite Z.pow_add_r by lia.
      assert (0 < 2 ^ (E2 - b)) by (apply Z.pow_pos_nonneg; lia).
      apply Z.mul_le_mono_nonneg_r; lia. }
    assert (Hup : M1 * 2 ^ (E1 - b) ≤ 2 ^ (g2 - 1 - b)).
    { destruct (Z_le_gt_dec E1 g1) as [Hc|Hc].
      - specialize (Hu1 Hc).
        assert (2 ^ (g1 - b) ≤ 2 ^ (g2 - 1 - b)) by (apply Z.pow_le_mono_r; lia).
        replace (g1 - b) with ((g1 - E1) + (E1 - b)) in * by lia.
        rewrite Z.pow_add_r in * by lia.
        assert (0 < 2 ^ (E1 - b)) by (apply Z.pow_pos_nonneg; lia).
        assert (M1 * 2 ^ (E1 - b) ≤ 2 ^ (g1 - E1) * 2 ^ (E1 - b))
          by (apply Z.mul_le_mono_nonneg_r; lia).
        lia.
      - rewrite (Hz1 ltac:(lia)). simpl.
        apply Z.pow_nonneg. lia. }
    lia.
Qed.

Lemma bounded_digits (m : positive) (e : Z) :
  bounded prec emax m e = true →
  Zpos (digits2_pos m) ≤ prec ∧ 3 - emax - prec ≤ e ∧ e ≤ emax - prec ∧
  (3 - emax - prec < e → Zpos (digits2_pos m) = prec).
Proof.
  unfold bounded, canonical_mantissa. rewrite andb_true_iff, Z.eqb_eq, Z.leb_le.
  rewrite fexp_eq. lia.
Qed.

Lemma encodes_good res M E : encodes prec emax res M E → good prec emax res.
Proof.
  intros [[_ ->]|(m & e & -> & _ & _ & Hb)]; [by left|right; eauto].
Qed.

Lemma rounded_good b mx ex res : rounded prec emax b mx ex res → good prec emax res.
Proof. intros (M & _ & _ & _ & _ & _ & H). by eapply encodes_good. Qed.

(** A rounded value is not above the power of two that bounds the exact
    one. *)
Lemma rounded_upper b mx ex res :
  b ≤ 3 - emax - prec →
  rounded prec emax b mx ex res →
  val b res ≤ 2 ^ (Zpos (digits2_pos mx) + ex - b).
Proof.
  intros Hb (M & HM & _ & Hu & Hz & _ & Hc).
  set (g := Zpos (digits2_pos mx) + ex) in *.
  set (E := fexp prec emax g) in *.
  assert (HbE : b ≤ E) by (unfold E; rewrite fexp_eq; lia).
  rewrite (encodes_val b res M E HbE Hc).
  destruct (Z_le_gt_dec E g) as [Hc'|Hc'].
  - specialize (Hu Hc').
    replace (g - b) with ((g - E) + (E - b)) by lia.
    rewrite Z.pow_add_r by lia.
    assert (0 < 2 ^ (E - b)) by (apply Z.pow_pos_nonneg; lia). nia.
  - rewrite (Hz ltac:(lia)). simpl. apply Z.pow_nonneg. lia.
Qed.

Lemma val_finite_bounds b (m : positive) (e : Z) :
  b ≤ e →
  2 ^ (Zpos (digits2_pos m) - 1 + e - b) ≤ val b (S754_finite false m e)
  ∧ val b (S754_finite false m e) < 2 ^ (Zpos (digits2_pos m) + e - b).
Proof.
  intros Hb. simpl. destruct (digits2_pos_bounds m) as [Hlo Hhi].
  replace (Zpos (digits2_pos m) - 1 + e - b)
    with ((Zpos (digits2_pos m) - 1) + (e - b)) by lia.
  replace (Zpos (digits2_pos m) + e - b)
    with (Zpos (digits2_pos m) + (e - b)) by lia.
  rewrite !Z.pow_add_r by lia.
  assert (0 < 2 ^ (e - b)) by (apply Z.pow_pos_nonneg; lia). nia.
Qed.

(** On numbers of the format, comparison is comparison of the values. *)
Lemma SFcompare_val (b : Z) (x y : spec_float) :
  b ≤ 3 - emax - prec → good prec emax x → good prec emax y →
  SFcompare x y = Some (val b x ?= val b y).
Proof.
  intros Hb [->|(m1 & e1 & -> & H1)] [->|(m2 & e2 & -> & H2)].
  - done.
  - apply bounded_digits in H2 as (_ & He2 & _).
    destruct (val_finite_bounds b m2 e2 ltac:(lia)) as [Hlo _].
    assert (0 < 2 ^ (Zpos (digits2_pos m2) - 1 + e2 - b))
      by (apply Z.pow_pos_nonneg; lia).
    simpl SFcompare. f_equal. symmetry. apply Z.compare_lt_iff.
    simpl val at 1. lia.
  - apply bounded_digits in H1 as (_ & He1 & _).
    destruct (val_finite_bounds b m1 e1 ltac:(lia)) as [Hlo _].
    assert (0 < 2 ^ (Zpos (digits2_pos m1) - 1 + e1 - b))
      by (apply Z.pow_pos_nonneg; lia).
    simpl SFcompare. f_equal. symmetry. apply Z.compare_gt_iff.
    simpl val at 1. lia.
  - apply bounded_digits in H1 as (Hd1 & He1 & _ & Hn1).
    apply bounded_digits in H2 as (Hd2 & He2 & _ & Hn2).
    destruct (val_finite_bounds b m1 e1 ltac:(lia)) as [Hlo1 Hhi1].
    destruct (val_finite_bounds b m2 e2 ltac:(lia)) as [Hlo2 Hhi2].
    unfold SFcompare. f_equal.
    destruct (Z.compare_spec e1 e2) as [Heq|Hlt|Hgt].
    + subst e2. rewrite Pos.compare_cont_spec. simpl Pos.switch_Eq.
      simpl val.
      rewrite <- Zmult_compare_compat_r
        by (apply Z.lt_gt, Z.pow_pos_nonneg; lia).
      change (Zpos m1 ?= Zpos m2) with (m1 ?= m2)%positive.
      by destruct (m1 ?= m2)%positive.
    + specialize (Hn2 ltac:(lia)).
      assert (2 ^ (Zpos (digits2_pos m1) + e1 - b)
              ≤ 2 ^ (Zpos (digits2_pos m2) - 1 + e2 - b))
        by (apply Z.pow_le_mono_r; lia).
      symmetry. apply Z.compare_lt_iff. lia.
    + specialize (Hn1 ltac:(lia)).
      assert (2 ^ (Zpos (digits2_pos m2) + e2 - b)
              ≤ 2 ^ (Zpos (digits2_pos m1) - 1 + e1 - b))
        by (apply Z.pow_le_mono_r; lia).
      symmetry. apply Z.compare_gt_iff. lia.
Qed.

Lemma SFltb_val (b : Z) (x y : spec_float) :
  b ≤ 3 - emax - prec → good prec emax x → good prec emax y →
  SFltb x y = true ↔ val b x < val b y.
Proof.
  intros Hb Hx Hy. unfold SFltb. rewrite (SFcompare_val b x y Hb Hx Hy).
  destruct (Z.compare_spec (val b x) (val b y)); split; (done || lia).
Qed.

Lemma SFleb_val (b : Z) (x y : spec_float) :
  b ≤ 3 - emax - prec → good prec emax x → good prec emax y →
  SFleb x y = true ↔ val b x ≤ val b y.
Proof.
  intros Hb Hx Hy. unfold SFleb. rewrite (SFcompare_val b x y Hb Hx Hy).
  destruct (Z.compare_spec (val b x) (val b y)); split; (done || lia).
Qed.

End Format.

Lemma goodb64_good x : goodb64 x = true ↔ good64 x.
Proof.
  unfold good64, good. split.
  - destruct x as [[]|[]| |[] m e]; simpl; try discriminate; intros H;
      [by left|right; eauto].
  - by intros [->|(m & e & -> & H)].
Qed.

Lemma val_nonneg x : 0 ≤ val b0 x.
Proof.
  destruct x as [| | |[] m e]; simpl; try lia;
    assert (0 ≤ 2 ^ (e - b0)) by (apply Z.pow_nonneg; lia); nia.
Qed.

(** A good number that is at most [2 ^ G] has magnitude at most [G + 1]. *)
Lemma val_le_magnitude (m : positive) (e G : Z) :
  b0 ≤ e → b0 ≤ G →
  val b0 (S754_finite false m e) ≤ 2 ^ (G - b0) →
  Zpos (digits2_pos m) + e ≤ G + 1.
Proof.
  intros He HG Hv. destruct (val_finite_bounds b0 m e He) as [Hlo _].
  apply Z.le_ngt. intros Hgt.
  assert (2 ^ (G - b0) < 2 ^ (Zpos (digits2_pos m) - 1 + e - b0))
    by (apply Z.pow_lt_mono_r; lia).
  lia.
Qed.

(** An exactly representable input is left as it is. *)
Lemma rounded_exact prec emax b mx ex res :
  0 < prec →
  b ≤ fexp prec emax (Zpos (digits2_pos mx) + ex) →
  fexp prec emax (Zpos (digits2_pos mx) + ex) ≤ ex →
  rounded prec emax b mx ex res →
  val b res = Zpos mx * 2 ^ (ex - b).
Proof.
  intros Hprec Hb HE (M & HM & (H1 & H2 & _) & _ & _ & _ & Hc).
  set (E := fexp prec emax (Zpos (digits2_pos mx) + ex)) in *.
  rewrite (encodes_val prec emax b res M E Hb Hc).
  assert (Hsplit : 2 ^ (ex - b) = 2 ^ (ex - E) * 2 ^ (E - b)).
  { rewrite <- Z.pow_add_r by lia. f_equal. lia. }
  rewrite Hsplit in *.
  assert (0 < 2 ^ (E - b)) by (apply Z.pow_pos_nonneg; lia).
  assert (0 < 2 ^ (ex - E)) by (apply Z.pow_pos_nonneg; lia).
  assert (M = Zpos mx * 2 ^ (ex - E)) by nia.
  nia.
Qed.

Lemma digits_mul (mx mf : positive) :
  Zpos (digits2_pos mx) + Zpos (digits2_pos mf) - 1
  ≤ Zpos (digits2_pos (mx * mf))
  ≤ Zpos (digits2_pos mx) + Zpos (digits2_pos mf).
Proof.
  destruct (digits2_pos_bounds mx) as [Hx1 Hx2].
  destruct (digits2_pos_bounds mf) as [Hf1 Hf2].
  destruct (digits2_pos_bounds (mx * mf)) as [Hp1 Hp2].
  rewrite Pos2Z.inj_mul in Hp1, Hp2.
  set (dx := Zpos (digits2_pos mx)) in *. set (df := Zpos (digits2_pos mf)) in *.
  set (D := Zpos (digits2_pos (mx * mf))) in *.
  assert (0 < dx ∧ 0 < df ∧ 0 < D) as (? & ? & ?) by (unfold dx, df, D; lia).
  assert (Hlow : 2 ^ (dx - 1 + (df - 1)) ≤ Zpos mx * Zpos mf).
  { rewrite Z.pow_add_r by lia.
    assert (0 < 2 ^ (dx - 1)) by (apply Z.pow_pos_nonneg; lia).
    assert (0 < 2 ^ (df - 1)) by (apply Z.pow_pos_nonneg; lia). nia. }
  assert (Hhigh : Zpos mx * Zpos mf < 2 ^ (dx + df)).
  { rewrite Z.pow_add_r by lia. nia. }
  split.
  - apply Z.le_ngt. intros Hlt.
    assert (2 ^ D ≤ 2 ^ (dx - 1 + (df - 1))) by (apply Z.pow_le_mono_r; lia). lia.
  - apply Z.le_ngt. intros Hlt.
    assert (2 ^ (dx + df) ≤ 2 ^ (D - 1)) by (apply Z.pow_le_mono_r; lia). lia.
Qed.

(** [x * f] is the exact product, rounded. *)
Lemma mul_rounded (mx : positive) (ex : Z) (mf : positive) (ef : Z) :
  bounded 53 1024 mx ex = true →
  Zpos (digits2_pos mx) + ex ≤ 4 →
  Zpos (digits2_pos mf) = 53 → 53 + ef ≤ 0 → -100 ≤ ef →
  rounded 53 1024 b0 (mx * mf) (ex + ef)
    (F64.mul (S754_finite false mx ex) (S754_finite false mf ef)).
Proof.
  intros Hb Hmag Hdf Hgf Hef.
  apply bounded_digits in Hb as (Hd & He & _).
  pose proof (digits_mul mx mf) as [Hlo Hhi].
  unfold F64.mul, SFmul. simpl xorb.
  change F64.prec with 53. change F64.emax with 1024.
  apply round_aux_rounded; try lia.
  - unfold b0. lia.
  - rewrite fexp_eq. lia.
Qed.

(** [t + K] is the exact sum, rounded. *)
Lemma add_rounded (mt : positive) (et : Z) (mk : positive) (ek : Z) :
  b0 ≤ et → b0 ≤ ek →
  val b0 (S754_finite false mt et) + val b0 (S754_finite false mk ek)
  ≤ 2 ^ (4 - b0) →
  ∃ s ez, b0 ≤ ez ∧
    Zpos s * 2 ^ (ez - b0)
    = val b0 (S754_finite false mt et) + val b0 (S754_finite false mk ek) ∧
    rounded 53 1024 b0 s ez
      (F64.add (S754_finite false mt et) (S754_finite false mk ek)).
Proof.
  intros Het Hek Hsum.
  unfold F64.add, SFadd. change F64.prec with 53. change F64.emax with 1024.
  destruct (shl_align_spec mt et (Z.min et ek)) as [_ Ht].
  destruct (shl_align_spec mk ek (Z.min et ek)) as [_ Hk].
  replace (Z.min et (Z.min et ek)) with (Z.min et ek) in Ht by lia.
  replace (Z.min ek (Z.min et ek)) with (Z.min et ek) in Hk by lia.
  set (ez := Z.min et ek) in *.
  set (a := (shl_align mt et ez).1) in *. set (c := (shl_align mk ek ez).1) in *.
  change (binary_normalize 53 1024
            (cond_Zopp false (Zpos a) + cond_Zopp false (Zpos c)) ez false)
    with (binary_round 53 1024 false (a + c) ez).
  assert (Hval : Zpos (a + c) * 2 ^ (ez - b0)
                 = val b0 (S754_finite false mt et)
                   + val b0 (S754_finite false mk ek)).
  { simpl val. rewrite Pos2Z.inj_add, Ht, Hk.
    rewrite Z.mul_add_distr_r, <- !Z.mul_assoc, <- !Z.pow_add_r by lia.
    do 3 f_equal; lia. }
  assert (Hez : b0 ≤ ez) by (unfold ez; lia).
  exists (a + c)%positive, ez. split; [done|]. split; [done|].
  apply round_rounded; try lia; try (unfold b0; lia).
  assert (Hmag : Zpos (digits2_pos (a + c)) + ez ≤ 4 + 1).
  { apply val_le_magnitude; try done; try (unfold b0; lia).
    change (val b0 (S754_finite false (a + c) ez))
      with (Zpos (a + c) * 2 ^ (ez - b0)).
    by rewrite Hval. }
  lia.
Qed.

(** Storing a number in a [Float32Array] cell: rounding to binary32, and
    nothing is lost on the way back. *)
Lemma F32_round_rounded (m : positive) (e : Z) :
  b0 ≤ e → Zpos (digits2_pos m) + e ≤ 100 →
  ∃ r32, rounded 24 128 b0 m e r32 ∧
         good64 (F32.round (S754_finite false m e)) ∧
         val b0 (F32.round (S754_finite false m e)) = val b0 r32.
Proof.
  intros He Hmag.
  pose proof (round_rounded 24 128 ltac:(lia) ltac:(lia) b0 m e He
                ltac:(unfold b0; lia) ltac:(lia)) as Hr.
  exists (binary_round 24 128 false m e). split; [done|].
  unfold F32.round. change F32.prec with 24. change F32.emax with 128.
  change F64.prec with 53. change F64.emax with 1024.
  destruct (rounded_good 24 128 b0 m e _ Hr) as [->|(m' & e' & -> & Hb)].
  { split; [by left|done]. }
  apply bounded_digits in Hb as (Hd & He1 & He2 & _).
  assert (Hw : rounded 53 1024 b0 m' e' (binary_round 53 1024 false m' e')).
  { apply round_rounded; try lia; unfold b0; lia. }
  split; [by eapply rounded_good|].
  apply (rounded_exact 53 1024 b0 m' e'); try done.
  - rewrite fexp_eq. unfold b0. lia.
  - rewrite fexp_eq. lia.
Qed.

Lemma below_weaken G G' x : G ≤ G' → below G x → below G' x.
Proof.
  unfold below. intros HG Hx.
  assert (2 ^ (G - b0) ≤ 2 ^ (G' - b0)) by (apply Z.pow_le_mono_r; lia). lia.
Qed.

Lemma good64_exp (m : positive) (e : Z) :
  good64 (S754_finite false m e) →
  bounded 53 1024 m e = true ∧ -1074 ≤ e ∧ Zpos (digits2_pos m) ≤ 53.
Proof.
  intros [H|(m' & e' & [= <- <-] & Hb)]; [done|]. split; [done|].
  apply bounded_digits in Hb as (Hd & He & _). lia.
Qed.

Lemma good64_val_pos (m : positive) (e : Z) :
  good64 (S754_finite false m e) → 0 < val b0 (S754_finite false m e).
Proof.
  intros (_ & He & _)%good64_exp. simpl.
  assert (0 < 2 ^ (e - b0)) by (apply Z.pow_pos_nonneg; unfold b0; lia). nia.
Qed.

Lemma below_magnitude G (m : positive) (e : Z) :
  b0 ≤ G → good64 (S754_finite false m e) → below G (S754_finite false m e) →
  Zpos (digits2_pos m) + e ≤ G + 1.
Proof.
  intros HG (_ & He & _)%good64_exp Hb.
  apply val_le_magnitude; [unfold b0; lia|done..].
Qed.

Lemma mul_mono (f x1 x2 : spec_float) :
  factor_okb f = true → good64 x1 → good64 x2 →
  val b0 x1 ≤ val b0 x2 → below 0 x2 →
  good64 (F64.mul x1 f) ∧ good64 (F64.mul x2 f) ∧
  val b0 (F64.mul x1 f) ≤ val b0 (F64.mul x2 f) ∧ below 1 (F64.mul x2 f).
Proof.
  intros Hf H1 H2 Hle Hb2.
  destruct f as [| | |[] mf ef]; try discriminate Hf.
  unfold factor_okb in Hf. rewrite !andb_true_iff, Z.eqb_eq, !Z.leb_le in Hf.
  destruct Hf as [[Hdf Hgf] Hef].
  assert (Hfin : ∀ m e, good64 (S754_finite false m e) →
            below 0 (S754_finite false m e) →
            rounded 53 1024 b0 (m * mf) (e + ef)
              (F64.mul (S754_finite false m e) (S754_finite false mf ef)) ∧
            Zpos (digits2_pos (m * mf)) + (e + ef) ≤ 1).
  { intros m e Hg Hb.
    pose proof (below_magnitude 0 m e ltac:(unfold b0; lia) Hg Hb) as Hmag.
    destruct (good64_exp m e Hg) as (Hbd & He & Hd).
    split; [apply mul_rounded; try done; lia|].
    pose proof (digits_mul m mf) as [_ Hhi]. lia. }
  assert (Hzero : F64.mul (S754_zero false) (S754_finite false mf ef)
                  = S754_zero false) by reflexivity.
  assert (Hbelow0 : below 1 (S754_zero false)).
  { unfold below. simpl. apply Z.pow_nonneg. unfold b0. lia. }
  pose proof H1 as H1'. pose proof H2 as H2'.
  destruct H2' as [->|(m2 & e2 & -> & _)].
  { (* x2 = 0 *)
    destruct H1' as [->|(m1 & e1 & -> & _)].
    - rewrite Hzero. split; [by left|]. split; [by left|]. by split.
    - pose proof (good64_val_pos m1 e1 H1) as Hpos.
      unfold val in Hle, Hpos. lia. }
  destruct (Hfin m2 e2 H2 Hb2) as [Hr2 Hm2].
  assert (Hb1' : below 1 (F64.mul (S754_finite false m2 e2)
                            (S754_finite false mf ef))).
  { unfold below. etrans; [apply (rounded_upper 53 1024 b0 _ _ _
                                    ltac:(unfold b0; lia) Hr2)|].
    apply Z.pow_le_mono_r; unfold b0; lia. }
  destruct H1' as [->|(m1 & e1 & -> & _)].
  - rewrite Hzero. split; [by left|]. split; [by eapply rounded_good|].
    split; [apply val_nonneg|done].
  - assert (Hb1 : below 0 (S754_finite false m1 e1)) by (unfold below in *; lia).
    destruct (Hfin m1 e1 H1 Hb1) as [Hr1 Hm1].
    split; [by eapply rounded_good|]. split; [by eapply rounded_good|].
    split; [|done].
    destruct (good64_exp m1 e1 H1) as (_ & He1 & _).
    destruct (good64_exp m2 e2 H2) as (_ & He2 & _).
    eapply (rounded_mono 53 1024 ltac:(lia) ltac:(lia) b0);
      [| | |exact Hr1|exact Hr2|]; try (unfold b0 in *; lia).
    unfold val in Hle. rewrite !Pos2Z.inj_mul.
    set (A1 := 2 ^ (e1 + 1074)). set (A2 := 2 ^ (e2 + 1074)).
    set (P := 2 ^ 126). set (Q := 2 ^ (ef + 126)).
    assert (0 < Q) by (apply Z.pow_pos_nonneg; lia).
    assert (0 < P) by (apply Z.pow_pos_nonneg; lia).
    assert (0 < A1) by (apply Z.pow_pos_nonneg; lia).
    assert (0 < A2) by (apply Z.pow_pos_nonneg; lia).
    assert (E1 : 2 ^ (e1 + ef - b0) = A1 * Q)
      by (unfold A1, Q; rewrite <- Z.pow_add_r by lia; f_equal; unfold b0; lia).
    assert (E2 : 2 ^ (e2 + ef - b0) = A2 * Q)
      by (unfold A2, Q; rewrite <- Z.pow_add_r by lia; f_equal; unfold b0; lia).
    assert (F1 : 2 ^ (e1 - b0) = A1 * P)
      by (unfold A1, P; rewrite <- Z.pow_add_r by lia; f_equal; unfold b0; lia).
    assert (F2 : 2 ^ (e2 - b0) = A2 * P)
      by (unfold A2, P; rewrite <- Z.pow_add_r by lia; f_equal; unfold b0; lia).
    rewrite E1, E2. rewrite F1, F2 in Hle. clearbody A1 A2 P Q.
    assert (Hc : Zpos m1 * A1 ≤ Zpos m2 * A2).
    { rewrite !Z.mul_assoc in Hle.
      by apply Z.mul_le_mono_pos_r in Hle. }
    replace (Zpos m1 * Zpos mf * (A1 * Q))
      with (Zpos m1 * A1 * (Zpos mf * Q)) by ring.
    replace (Zpos m2 * Zpos mf * (A2 * Q))
      with (Zpos m2 * A2 * (Zpos mf * Q)) by ring.
    apply Z.mul_le_mono_nonneg_r; [|exact Hc].
    apply Z.mul_nonneg_nonneg; lia.
Qed.

Lemma add_zero_r (t : spec_float) :
  good64 t → F64.add t (S754_zero false) = t.
Proof. by intros [->|(m & e & -> & _)]. Qed.

Lemma add_zero_l (mk : positive) (ek : Z) :
  F64.add (S754_zero false) (S754_finite false mk ek) = S754_finite false mk ek.
Proof. done. Qed.

(** A number of the format is its own rounding. *)
Lemma good64_self_rounded (mk : positive) (ek : Z) :
  good64 (S754_finite false mk ek) → below 4 (S754_finite false mk ek) →
  ∃ r, rounded 53 1024 b0 mk ek r ∧ val b0 r = val b0 (S754_finite false mk ek).
Proof.
  intros HK Hb. destruct (good64_exp mk ek HK) as (Hbd & He & Hd).
  pose proof (below_magnitude 4 mk ek ltac:(unfold b0; lia) HK Hb) as Hmag.
  assert (Hr : rounded 53 1024 b0 mk ek (binary_round 53 1024 false mk ek))
    by (apply round_rounded; unfold b0; lia).
  eexists. split; [exact Hr|].
  unfold bounded, canonical_mantissa in Hbd.
  apply andb_true_iff in Hbd as [Hc%Z.eqb_eq _].
  apply (rounded_exact 53 1024 b0 mk ek); try done.
  - rewrite Hc. unfold b0. lia.
  - rewrite Hc. lia.
Qed.

Lemma add_mono (K t1 t2 : spec_float) :
  good64 K → below 0 K → good64 t1 → good64 t2 →
  val b0 t1 ≤ val b0 t2 → below 1 t2 →
  good64 (F64.add t1 K) ∧ good64 (F64.add t2 K) ∧
  val b0 (F64.add t1 K) ≤ val b0 (F64.add t2 K) ∧ below 3 (F64.add t2 K).
Proof.
  intros HK HKb H1 H2 Hle Hb2.
  pose proof HK as HK'. destruct HK' as [->|(mk & ek & -> & _)].
  { rewrite !add_zero_r by done.
    split; [done|]. split; [done|]. split; [done|].
    by eapply below_weaken; [|exact Hb2]. }
  destruct (good64_exp mk ek HK) as (_ & Hek & _).
  assert (Hfin : ∀ m e, good64 (S754_finite false m e) →
            below 1 (S754_finite false m e) →
            ∃ s ez, b0 ≤ ez ∧
              Zpos s * 2 ^ (ez - b0)
              = val b0 (S754_finite false m e)
                + val b0 (S754_finite false mk ek) ∧
              rounded 53 1024 b0 s ez
                (F64.add (S754_finite false m e) (S754_finite false mk ek)) ∧
              below 3 (F64.add (S754_finite false m e)
                                (S754_finite false mk ek))).
  { intros m e Hg Hb. destruct (good64_exp m e Hg) as (_ & He & _).
    assert (Hsum : val b0 (S754_finite false m e)
                   + val b0 (S754_finite false mk ek) ≤ 2 ^ (2 - b0)).
    { unfold below in *.
      assert (2 ^ (0 - b0) ≤ 2 ^ (1 - b0)) by (apply Z.pow_le_mono_r; unfold b0; lia).
      assert (2 ^ (2 - b0) = 2 * 2 ^ (1 - b0)).
      { rewrite <- Z.pow_succ_r by (unfold b0; lia). f_equal; lia. }
      lia. }
    assert (2 ^ (2 - b0) ≤ 2 ^ (4 - b0)) by (apply Z.pow_le_mono_r; unfold b0; lia).
    destruct (add_rounded m e mk ek ltac:(unfold b0; lia) ltac:(unfold b0; lia)
                ltac:(lia)) as (s & ez & Hez & Hs & Hr).
    exists s, ez. split; [done|]. split; [done|]. split; [done|].
    unfold below. etrans; [apply (rounded_upper 53 1024 b0 _ _ _
                                    ltac:(unfold b0; lia) Hr)|].
    apply Z.pow_le_mono_r; [lia|].
    assert (Zpos (digits2_pos s) + ez ≤ 2 + 1); [|lia].
    apply val_le_magnitude; [done|unfold b0; lia|].
    change (val b0 (S754_finite false s ez)) with (Zpos s * 2 ^ (ez - b0)).
    by rewrite Hs. }
  assert (HKb3 : below 3 (S754_finite false mk ek))
    by (eapply below_weaken; [|exact HKb]; lia).
  pose proof H1 as H1'. pose proof H2 as H2'.
  destruct H2' as [->|(m2 & e2 & -> & _)].
  { destruct H1' as [->|(m1 & e1 & -> & _)].
    - rewrite add_zero_l. by repeat split.
    - pose proof (good64_val_pos m1 e1 H1) as Hpos.
      unfold val in Hle, Hpos. lia. }
  destruct (Hfin m2 e2 H2 Hb2) as (s2 & ez2 & Hez2 & Hs2 & Hr2 & Hb3).
  destruct H1' as [->|(m1 & e1 & -> & _)].
  - rewrite add_zero_l. split; [done|]. split; [by eapply rounded_good|].
    split; [|done].
    destruct (good64_self_rounded mk ek HK
                ltac:(eapply below_weaken; [|exact HKb]; lia))
      as (r & Hr & <-).
    eapply (rounded_mono 53 1024 ltac:(lia) ltac:(lia) b0);
      [| | |exact Hr|exact Hr2|]; try (unfold b0 in *; lia).
    rewrite Hs2. pose proof (good64_val_pos m2 e2 H2) as Hpos.
    unfold val in Hpos |- *. lia.
  - assert (Hb1 : below 1 (S754_finite false m1 e1)) by (unfold below in *; lia).
    destruct (Hfin m1 e1 H1 Hb1) as (s1 & ez1 & Hez1 & Hs1 & Hr1 & _).
    split; [by eapply rounded_good|]. split; [by eapply rounded_good|].
    split; [|done].
    eapply (rounded_mono 53 1024 ltac:(lia) ltac:(lia) b0);
      [| | |exact Hr1|exact Hr2|]; unfold b0 in *; lia.
Qed.

Lemma F32_round_mono (y1 y2 : spec_float) :
  good64 y1 → good64 y2 → val b0 y1 ≤ val b0 y2 → below 3 y2 →
  good64 (F32.round y1) ∧ good64 (F32.round y2) ∧
  val b0 (F32.round y1) ≤ val b0 (F32.round y2).
Proof.
  intros H1 H2 Hle Hb2.
  assert (Hfin : ∀ m e, good64 (S754_finite false m e) →
            below 3 (S754_finite false m e) →
            ∃ r32, rounded 24 128 b0 m e r32 ∧
                   good64 (F32.round (S754_finite false m e)) ∧
                   val b0 (F32.round (S754_finite false m e)) = val b0 r32).
  { intros m e Hg Hb. destruct (good64_exp m e Hg) as (_ & He & _).
    pose proof (below_magnitude 3 m e ltac:(unfold b0; lia) Hg Hb).
    apply F32_round_rounded; [unfold b0|]; lia. }
  pose proof H1 as H1'. pose proof H2 as H2'.
  destruct H2' as [->|(m2 & e2 & -> & _)].
  { destruct H1' as [->|(m1 & e1 & -> & _)].
    - by repeat split.
    - pose proof (good64_val_pos m1 e1 H1) as Hpos.
      unfold val in Hle, Hpos. lia. }
  destruct (Hfin m2 e2 H2 Hb2) as (r2 & Hr2 & Hg2 & Hv2).
  destruct H1' as [->|(m1 & e1 & -> & _)].
  - split; [done|]. split; [done|]. apply val_nonneg.
  - assert (Hb1 : below 3 (S754_finite false m1 e1)) by (unfold below in *; lia).
    destruct (Hfin m1 e1 H1 Hb1) as (r1 & Hr1 & Hg1 & Hv1).
    split; [done|]. split; [done|]. rewrite Hv1, Hv2.
    destruct (good64_exp m1 e1 H1) as (_ & He1 & _).
    destruct (good64_exp m2 e2 H2) as (_ & He2 & _).
    eapply (rounded_mono 24 128 ltac:(lia) ltac:(lia) b0);
      [| | |exact Hr1|exact Hr2|]; first [exact Hle|unfold b0 in *; lia].
Qed.

Lemma unit_value_zero : unit_value F64.zero.
Proof.
  split; [by left|]. unfold below. simpl. apply Z.pow_nonneg. lia.
Qed.

Lemma val_one : val b0 F64.one = 2 ^ (0 - b0).
Proof. by vm_compute. Qed.

Lemma unit_value_one : unit_value F64.one.
Proof.
  split; [by apply goodb64_good|]. unfold below. by rewrite val_one.
Qed.

Section Cell.
Variable factor : spec_float.
Variable c : byte.
Hypothesis Hok : cell_ok factor c = true.

Lemma cell_ok_parts :
  factor_okb factor = true ∧ good64 (addend factor c) ∧
  below 0 (addend factor c) ∧
  val b0 (cell_step factor c F64.one) ≤ val b0 F64.one.
Proof.
  unfold cell_ok in Hok. rewrite !andb_true_iff, !Z.leb_le in Hok.
  destruct Hok as [[[Hf HK] HKb] Hone].
  by rewrite goodb64_good in HK.
Qed.

Lemma blend_mono (x1 x2 : spec_float) :
  good64 x1 → good64 x2 → val b0 x1 ≤ val b0 x2 → below 0 x2 →
  good64 (blend factor x1 c) ∧ good64 (blend factor x2 c) ∧
  val b0 (blend factor x1 c) ≤ val b0 (blend factor x2 c) ∧
  below 3 (blend factor x2 c).
Proof.
  intros H1 H2 Hle Hb.
  destruct cell_ok_parts as (Hf & HK & HKb & _).
  destruct (mul_mono factor x1 x2 Hf H1 H2 Hle Hb) as (Hg1 & Hg2 & Hm & Hb1).
  exact (add_mono (addend factor c) _ _ HK HKb Hg1 Hg2 Hm Hb1).
Qed.

Lemma cell_step_mono (x1 x2 : spec_float) :
  good64 x1 → good64 x2 → val b0 x1 ≤ val b0 x2 → below 0 x2 →
  good64 (cell_step factor c x1) ∧ good64 (cell_step factor c x2) ∧
  val b0 (cell_step factor c x1) ≤ val b0 (cell_step factor c x2).
Proof.
  intros H1 H2 Hle Hb.
  destruct (blend_mono x1 x2 H1 H2 Hle Hb) as (Hg1 & Hg2 & Hm & Hb3).
  exact (F32_round_mono _ _ Hg1 Hg2 Hm Hb3).
Qed.

(** The history stays between 0 and 1. *)
Lemma cell_step_unit (x : spec_float) :
  unit_value x → unit_value (cell_step factor c x).
Proof.
  intros [Hg Hb]. destruct unit_value_one as [Hg1 Hb1].
  destruct cell_ok_parts as (_ & _ & _ & Hone).
  assert (Hle : val b0 x ≤ val b0 F64.one) by (rewrite val_one; exact Hb).
  destruct (cell_step_mono x F64.one Hg Hg1 Hle Hb1) as (Hgx & _ & Hm).
  split; [done|]. unfold below. rewrite <- val_one. lia.
Qed.

(** A history that starts between 0 and 1 stays between the history that
    starts at 0 and the one that starts at 1. *)
Lemma sandwich (x : spec_float) (n : nat) :
  unit_value x →
  unit_value (Nat.iter n (cell_step factor c) F64.zero) ∧
  unit_value (Nat.iter n (cell_step factor c) x) ∧
  unit_value (Nat.iter n (cell_step factor c) F64.one) ∧
  val b0 (Nat.iter n (cell_step factor c) F64.zero)
  ≤ val b0 (Nat.iter n (cell_step factor c) x) ∧
  val b0 (Nat.iter n (cell_step factor c) x)
  ≤ val b0 (Nat.iter n (cell_step factor c) F64.one).
Proof.
  intros Hx. induction n as [|n (H0 & Hn & H1 & Hlo & Hhi)].
  - change (Nat.iter 0 (cell_step factor c) ?y) with y.
    split; [apply unit_value_zero|]. split; [done|].
    split; [apply unit_value_one|]. split; [apply val_nonneg|].
    rewrite val_one. apply Hx.
  - rewrite !Nat.iter_succ.
    split; [by apply cell_step_unit|]. split; [by apply cell_step_unit|].
    split; [by apply cell_step_unit|].
    destruct H0 as [G0 B0], Hn as [Gn Bn], H1 as [G1 B1].
    split.
    + by destruct (cell_step_mono _ _ G0 Gn Hlo Bn) as (_ & _ & ?).
    + by destruct (cell_step_mono _ _ Gn G1 Hhi B1) as (_ & _ & ?).
Qed.

End Cell.

Lemma good64_half : good64 half.
Proof. by apply goodb64_good. Qed.

(** The threshold test follows the order of the values. *)
Lemma binarize_val (v : spec_float) :
  good64 v → binarize v = Byte.x01 ↔ val b0 half < val b0 v.
Proof.
  intros Hv. unfold binarize, F64.gtb.
  rewrite <- (SFltb_val 53 1024 b0 half v
                ltac:(unfold b0; lia) good64_half Hv).
  by destruct (SFltb half v).
Qed.

Lemma settled_fixed N factor c p n :
  settled N factor c p = true → (N ≤ n)%nat →
  Nat.iter n (cell_step factor c) p = Nat.iter N (cell_step factor c) p ∧
  cell_out factor c (Nat.iter N (cell_step factor c) p) = c.
Proof.
  unfold settled. cbv zeta. rewrite andb_true_iff.
  intros [Hfix%same_number_eq Hout%Byte.byte_dec_bl] Hn. split; [|done].
  replace n with ((n - N) + N)%nat by lia. rewrite Nat.iter_add.
  induction (n - N)%nat as [|d IH]; [done|].
  by rewrite Nat.iter_succ, IH.
Qed.

(** A cell whose history starts between 0 and 1 returns the mask bit from
    the frame on at which the histories from 0 and from 1 are settled. *)
Theorem cell_converges factor c x N n :
  cell_ok factor c = true →
  settled N factor c F64.zero = true →
  settled N factor c F64.one = true →
  is_bit c → unit_value x → (N ≤ n)%nat →
  cell_out factor c (Nat.iter n (cell_step factor c) x) = c.
Proof.
  intros Hok H0 H1 Hc Hx Hn.
  destruct (settled_fixed N factor c F64.zero n H0 Hn) as [E0 O0].
  destruct (settled_fixed N factor c F64.one n H1 Hn) as [E1 O1].
  destruct (sandwich factor c Hok x n Hx) as (U0 & Un & U1 & Hlo & Hhi).
  rewrite E0 in U0, Hlo. rewrite E1 in U1, Hhi.
  set (lo := Nat.iter N (cell_step factor c) F64.zero) in *.
  set (hi := Nat.iter N (cell_step factor c) F64.one) in *.
  set (p := Nat.iter n (cell_step factor c) x) in *.
  destruct U0 as [G0 B0], Un as [Gn Bn], U1 as [G1 B1].
  destruct (blend_mono factor c Hok lo p G0 Gn Hlo Bn) as (Gl & Gp & Hl & _).
  destruct (blend_mono factor c Hok p hi Gn G1 Hhi B1) as (_ & Gh & Hh & _).
  unfold cell_out in *.
  destruct Hc as [-> | ->].
  - destruct (binarize (blend factor p Byte.x00)) eqn:Hb;
      try (by unfold binarize in Hb; destruct (F64.gtb _ _)).
    apply (binarize_val _ Gp) in Hb.
    assert (Hhi1 : binarize (blend factor hi Byte.x00) = Byte.x01)
      by (apply (binarize_val _ Gh); lia).
    by rewrite O1 in Hhi1.
  - apply (binarize_val _ Gp). apply (binarize_val _ Gl) in O0. lia.
Qed.

Lemma cell_ok_settings k c :
  1 ≤ k ≤ 9 → is_bit c → cell_ok (factor_of k) c = true.
Proof.
  intros Hk Hc. pose proof (setting_cases k Hk) as H.
  destruct Hc as [-> | ->];
    repeat (destruct H as [->|H]; [by vm_compute|]); subst k; by vm_compute.
Qed.

Lemma unit_history_cases x :
  unit_history x → x = S754_zero true ∨ unit_value x.
Proof.
  intros [Hv Hu]. unfold in_unit_interval in Hu.
  apply andb_true_iff in Hu as [H0 H1].
  destruct x as [[]|[]| |[] m e]; try discriminate H0; try discriminate H1.
  - by left.
  - right. apply unit_value_zero.
  - right. simpl in Hv.
    assert (Hg : good64 (S754_finite false m e))
      by (apply goodb64_good; exact Hv).
    split; [done|]. unfold below. rewrite <- val_one.
    apply (SFleb_val 53 1024 b0 _ _ ltac:(unfold b0; lia) Hg
             (proj1 unit_value_one)). exact H1.
Qed.

Lemma blend_neg_zero factor c :
  cell_ok factor c = true →
  blend factor (S754_zero true) c = blend factor F64.zero c.
Proof.
  intros Hok. destruct (cell_ok_parts factor c Hok) as (Hf & HK & _).
  unfold blend. fold (addend factor c).
  destruct factor as [| | |[] mf ef]; try discriminate Hf.
  by destruct HK as [->|(mk & ek & -> & _)].
Qed.

Theorem history_cell_converges factor c x N n :
  cell_ok factor c = true →
  settled N factor c F64.zero = true →
  settled N factor c F64.one = true →
  is_bit c → unit_history x → (N ≤ n)%nat →
  cell_out factor c (Nat.iter n (cell_step factor c) x) = c.
Proof.
  intros Hok H0 H1 Hc Hx Hn.
  destruct (unit_history_cases x Hx) as [->|Hu].
  - etrans; [|exact (cell_converges factor c F64.zero N n Hok H0 H1 Hc
                           unit_value_zero Hn)].
    destruct n as [|n].
    + change (Nat.iter 0 (cell_step factor c) ?y) with y.
      unfold cell_out. by rewrite blend_neg_zero.
    + rewrite !Nat.iter_succ_r. do 2 f_equal.
      unfold cell_step. by rewrite blend_neg_zero.
  - by apply (cell_converges factor c x N n).
Qed.

(** ** The output under a constant mask *)

Lemma after_frames_settings r M width height n :
  settings (after_frames r M width height n) = settings r.
Proof.
  induction n as [|n IH]; [done|]. rewrite after_frames_S.
  by destruct (smoothMask_frame (after_frames r M width height n)
                 M width height) as [-> _].
Qed.

(** With smoothing 0 every frame resets the history. *)
Lemma output_at_pass_through r M width height n :
  F64.eqb (smoothing (settings r)) F64.zero = true →
  output_at r M width height n = M.
Proof.
  intros Hs. unfold output_at, smoothMask.
  by rewrite after_frames_settings, Hs.
Qed.

Lemma reset_cell_settled k c :
  1 ≤ k ≤ 9 → is_bit c →
  settled 0 (factor_of k) c (F64.of_Z (Z_of_byte c)) = true.
Proof.
  intros Hk Hc. pose proof (setting_cases k Hk) as H.
  destruct Hc as [-> | ->];
    repeat (destruct H as [->|H]; [by vm_compute|]); subst k; by vm_compute.
Qed.

(** A history that was just reset to the mask gives the mask back on
    every later frame. *)
Lemma output_after_reset r M width height k n :
  1 ≤ k ≤ 9 →
  smoothing (settings r) = F64.of_Z k →
  Forall is_bit M →
  smoothMask r M width height = (set_prevMask r (Float32Array_from M), M) →
  output_at r M width height n = M.
Proof.
  intros Hk Hs HM Hreset. destruct n as [|n].
  { unfold output_at, after_frames. simpl. by rewrite Hreset. }
  unfold output_at, after_frames. rewrite Nat.iter_succ_r, Hreset.
  cbn [fst].
  change (output_at (set_prevMask r (Float32Array_from M)) M width height n
          = M).
  assert (Hs' : smoothing (settings (set_prevMask r (Float32Array_from M)))
                = F64.of_Z k) by (by destruct r).
  rewrite (output_at_blend _ M width height (Float32Array_from M));
    [|by rewrite Hs'; apply factor_eqb_zero|by destruct r
     |by unfold Float32Array_from; rewrite length_fmap].
  rewrite Hs'. change (F64.div (F64.of_Z k) (F64.of_Z 10)) with (factor_of k).
  unfold Float32Array_from. clear Hreset Hs Hs'.
  induction HM as [|c M Hc HM IH]; [done|]. cbn [fmap list_fmap zip_with].
  f_equal; [|exact IH].
  exact (settled_forever 0 (factor_of k) c _ n
           (reset_cell_settled k c Hk Hc) ltac:(lia)).
Qed.

(** A history of the mask's size with cells from 0 to 1. *)
Lemma output_matching_history r M width height k prev n :
  1 ≤ k ≤ 9 →
  smoothing (settings r) = F64.of_Z k →
  prevMask r = Some prev →
  length prev = length M →
  Forall unit_history prev →
  Forall is_bit M →
  (1000 ≤ n)%nat →
  output_at r M width height n = M.
Proof.
  intros Hk Hs Hprev Hlen Hh HM Hn.
  rewrite (output_at_blend r M width height prev);
    [|by rewrite Hs; apply factor_eqb_zero|done..].
  rewrite Hs. change (F64.div (F64.of_Z k) (F64.of_Z 10)) with (factor_of k).
  clear Hprev Hs. revert M Hlen HM.
  induction Hh as [|p prev Hp Hh IH]; intros [|c M] Hlen HM;
    try done.
  apply Forall_cons in HM as [Hc HM]. cbn [zip_with]. f_equal.
  - apply (history_cell_converges (factor_of k) c p 1000 n);
      [by apply cell_ok_settings|by apply bit_cell_settled; auto
      |by apply bit_cell_settled; auto|done..].
  - apply IH; [simpl in Hlen; lia|done].
Qed.

(** C8, as the claim states it, fails at smoothing 10: the factor is 1,
    the blend is the history itself, and the mask never enters it.  A
    history of one cell holding 0, left by a first frame whose mask was
    0, answers 0 to the constant mask 1 on every frame. *)
Lemma C8_counterexample_smoothing_10 :
  let r0 := updateSettings (new_Renderer 1 1)
              (numeric_patch None (Some (F64.of_Z 10))) in
  let r := (smoothMask r0 [Byte.x00] 1 1).1 in
  smoothing (settings r) = F64.of_Z 10 ∧
  prevMask r = Some [F64.zero] ∧
  in_unit_interval F64.zero = true ∧
  (∀ n, output_at r [Byte.x01] 1 1 n = [Byte.x00]) ∧
  ¬ (∃ N, ∀ n, (N ≤ n)%nat → output_at r [Byte.x01] 1 1 n = [Byte.x01]).
Proof.
  intros r0 r.
  assert (Hstep : smoothMask r [Byte.x01] 1 1 = (r, [Byte.x00]))
    by (by vm_compute).
  assert (Hall : ∀ n, after_frames r [Byte.x01] 1 1 n = r).
  { induction n as [|n IH]; [done|]. by rewrite after_frames_S, IH, Hstep. }
  assert (Hout : ∀ n, output_at r [Byte.x01] 1 1 n = [Byte.x00]).
  { intros n. unfold output_at. by rewrite Hall, Hstep. }
  split; [by vm_compute|]. split; [by vm_compute|]. split; [by vm_compute|].
  split; [exact Hout|].
  intros [N HN]. specialize (HN N (Nat.le_refl N)).
  rewrite Hout in HN. discriminate HN.
Qed.

(** C8, amended: for every integer smoothing setting from 0 to 9, every
    history buffer (of any size, or none yet) whose cells hold numbers
    from 0 to 1, and every binary mask M fed unchanged on every frame,
    the mask returned by the temporal smoothing is M on every frame from
    the 1000th on. *)
Theorem C8_constant_mask_settles (r : Renderer) (M : list byte)
    (width height : nat) (k : Z) (n : nat) :
  0 ≤ k ≤ 9 →
  smoothing (settings r) = F64.of_Z k →
  Forall unit_history (history_cells r) →
  Forall is_bit M →
  (1000 ≤ n)%nat →
  output_at r M width height n = M.
Proof.
  intros Hk Hs Hh HM Hn.
  destruct (decide (k = 0)) as [->|Hk0].
  { apply output_at_pass_through. by rewrite Hs. }
  assert (Hk' : 1 ≤ k ≤ 9) by lia.
  assert (Hz : F64.eqb (smoothing (settings r)) F64.zero = false)
    by (rewrite Hs; by apply factor_eqb_zero).
  unfold history_cells in Hh.
  destruct (prevMask r) as [prev|] eqn:Hprev.
  - destruct (decide (length prev = length M)) as [Hlen|Hlen].
    + by apply (output_matching_history r M width height k prev n).
    + apply (output_after_reset r M width height k n Hk' Hs HM).
      unfold smoothMask. rewrite Hz, Hprev.
      by rewrite (bool_decide_eq_true_2 _ Hlen).
  - apply (output_after_reset r M width height k n Hk' Hs HM).
    unfold smoothMask. by rewrite Hz, Hprev.
Qed.

Lemma C8_constant_mask_witness :
  let r := set_prevMask
             (updateSettings (new_Renderer 2 1)
                (numeric_patch None (Some (F64.of_Z 9))))
             [F32.round (F64.lit 3 10); F64.one] in
  output_at r [Byte.x01; Byte.x00] 2 1 1000 = [Byte.x01; Byte.x00].
Proof.
  intros r.
  apply (C8_constant_mask_settles r [Byte.x01; Byte.x00] 2 1 9 1000).
  - lia.
  - reflexivity.
  - apply Forall_cons; split; [split; vm_compute; reflexivity|].
    apply Forall_cons; split; [split; vm_compute; reflexivity|].
    apply Forall_nil_2.
  - apply Forall_cons; split; [by right|].
    apply Forall_cons; split; [by left|]. apply Forall_nil_2.
  - lia.
Defined.

(** * The detector *)

(** ** Comparisons *)

Lemma SFcompare_antisym a b :
  SFcompare b a = CompOpp <$> SFcompare a b.
Proof.
  assert (Hp : ∀ m1 m2, Pos.compare_cont Eq m2 m1
                        = CompOpp (Pos.compare_cont Eq m1 m2)).
  { intros m1 m2. by rewrite (Pos.compare_cont_antisym m1 m2 Eq). }
  destruct a as [[]|[]| |[] m1 e1], b as [[]|[]| |[] m2 e2]; try done; simpl;
    rewrite (Z.compare_antisym e1 e2), (Hp m1 m2);
    destruct (e1 ?= e2); simpl; try done;
    by destruct (Pos.compare_cont Eq m1 m2).
Qed.

Lemma SFcompare_NaN_r a : SFcompare a S754_nan = None.
Proof. by destruct a as [[]|[]| |[] m e]. Qed.

(** The three cases of a comparison with a number. *)
Lemma SFcompare_cases a b :
  SFcompare a b = None ∨
  (SFcompare a b = Some Lt ∧ SFcompare b a = Some Gt) ∨
  (SFcompare a b = Some Eq ∧ SFcompare b a = Some Eq) ∨
  (SFcompare a b = Some Gt ∧ SFcompare b a = Some Lt).
Proof.
  rewrite (SFcompare_antisym a b).
  destruct (SFcompare a b) as [[]|]; simpl; auto.
Qed.

Lemma SFcompare_None a b :
  SFcompare a b = None → a = S754_nan ∨ b = S754_nan.
Proof.
  destruct a as [[]|[]| |[] m1 e1], b as [[]|[]| |[] m2 e2]; simpl;
    try discriminate; auto.
Qed.

(** Equal to a finite number means identical to it. *)
Lemma SFcompare_Eq_finite s m e b :
  SFcompare (S754_finite s m e) b = Some Eq → b = S754_finite s m e.
Proof.
  destruct b as [[]|[]| |s2 m2 e2], s; simpl; try discriminate;
    destruct s2; try discriminate;
    destruct (e ?= e2) eqn:He; try discriminate;
    apply Z.compare_eq in He as <-; intros [= H];
    [apply (f_equal CompOpp) in H; simpl in H;
     rewrite CompOpp_involutive in H|];
    apply Pos.compare_eq in H as <-; done.
Qed.

Lemma SFcompare_Eq_zero s b :
  SFcompare (S754_zero s) b = Some Eq → ∃ s', b = S754_zero s'.
Proof.
  destruct b as [s'|[]| |[] m e]; simpl; try discriminate. eauto.
Qed.

(** ** setConfidence *)

(** [Math.max(0, Math.min(1, value))] case by case. *)
Lemma clamp_cases (value : spec_float) :
  let c := F64.max F64.zero (Math_min F64.one value) in
  (value = S754_nan ∧ c = S754_nan) ∨
  (SFltb F64.one value = true ∧ c = F64.one) ∨
  (SFltb value F64.zero = true ∧ c = F64.zero) ∨
  (in_unit_interval value = true ∧
   c = match value with S754_zero true => F64.zero | _ => value end).
Proof.
  cbv zeta. unfold in_unit_interval, SFltb, SFleb, Math_min, F64.max.
  destruct (SFcompare_cases F64.one value) as [H|[[H H']|[[H H']|[H H']]]];
    rewrite H.
  - left. apply SFcompare_None in H as [H|H]; [discriminate H|].
    by subst value.
  - right; left. done.
  - right; right; right. apply SFcompare_Eq_finite in H as ->. done.
  - rewrite H'.
    destruct (SFcompare_cases F64.zero value) as [G|[[G G']|[[G G']|[G G']]]];
      rewrite G.
    + apply SFcompare_None in G as [G|G]; [discriminate G|].
      subst value. discriminate H.
    + right; right; right. split; [done|].
      destruct value as [[]|[]| |[] m e]; try done.
    + right; right; right. split; [done|].
      apply SFcompare_Eq_zero in G as [[] ->]; done.
    + right; right; left. by rewrite G'.
Qed.

Lemma clamp_range (value : spec_float) :
  let c := F64.max F64.zero (Math_min F64.one value) in
  c = S754_nan ∨ in_unit_interval c = true.
Proof.
  cbv zeta.
  destruct (clamp_cases value) as [[_ ->]|[[_ ->]|[[_ ->]|[H ->]]]]; auto.
  right. destruct value as [[]|[]| |[] m e]; done.
Qed.

Section DetectorFacts.
Context {Source People : Type}.
Implicit Types (d : Detector Source People) (source : Source).

(** X1: [setConfidence] keeps the threshold in range.  NaN stays NaN; any
    other value is stored as a number from 0 to 1: a value above 1 as 1,
    a value below 0 as 0, and a value from 0 to 1 as it is (-0 as +0).
    Nothing else of the detector changes. *)
Theorem X1_setConfidence_clamps d (value : spec_float) :
  let d' := setConfidence d value in
  let c := confidence d' in
  (value = S754_nan → c = S754_nan) ∧
  (value ≠ S754_nan → in_unit_interval c = true) ∧
  (SFltb F64.one value = true → c = F64.one) ∧
  (SFltb value F64.zero = true → c = F64.zero) ∧
  (in_unit_interval value = true →
   c = match value with S754_zero true => F64.zero | _ => value end) ∧
  setConfidence d' c = d' ∧
  cocoModel d' = cocoModel d ∧ bodyPixModel d' = bodyPixModel d ∧
  isReady d' = isReady d ∧ personOnly d' = personOnly d ∧ mode d' = mode d.
Proof.
  cbv zeta. unfold setConfidence. cbn [confidence cocoModel bodyPixModel
    isReady personOnly mode].
  pose proof (clamp_cases value) as Hc.
  pose proof (clamp_range value) as Hr. cbv zeta in Hc, Hr.
  remember (F64.max F64.zero (Math_min F64.one value)) as c eqn:Ec0.
  clear Ec0.
  assert (Hex : ∀ v, SFltb F64.one v = true → in_unit_interval v = true →
                     False).
  { intros v. unfold in_unit_interval, SFltb, SFleb.
    destruct (SFcompare_cases F64.one v) as [H|[[H H']|[[H H']|[H H']]]];
      rewrite H; try done. rewrite H'. by rewrite andb_false_r. }
  assert (Hex' : ∀ v, SFltb v F64.zero = true → in_unit_interval v = true →
                      False).
  { intros v. unfold in_unit_interval, SFltb, SFleb.
    destruct (SFcompare_cases v F64.zero) as [H|[[H H']|[[H H']|[H H']]]];
      rewrite H; try done. by rewrite H'. }
  assert (Hex2 : ∀ v, SFltb F64.one v = true → SFltb v F64.zero = true →
                      False).
  { intros v. by destruct v as [[]|[]| |[] m e]. }
  repeat split; try done.
  - intros ->. by destruct Hc as [[_ ->]|[[H _]|[[H _]|[H _]]]].
  - intros Hn.
    destruct Hr as [H|H]; [|exact H].
    destruct Hc as [[Hv _]|[[_ Hc]|[[_ Hc]|[Hu Hc]]]]; try done;
      rewrite Hc in H; try discriminate H.
    destruct value as [[]|[]| |[] m e]; done.
  - intros H1.
    destruct Hc as [[-> _]|[[_ Hc]|[[H _]|[H _]]]]; try done.
    + by destruct (Hex2 value).
    + by destruct (Hex value).
  - intros H0.
    destruct Hc as [[-> _]|[[H _]|[[_ Hc]|[H _]]]]; try done.
    + by destruct (Hex2 value).
    + by destruct (Hex' value).
  - intros Hu.
    destruct Hc as [[-> _]|[[H _]|[[H _]|[_ Hc]]]]; try done.
    + by destruct (Hex value).
    + by destruct (Hex' value).
  - f_equal.
    destruct Hr as [H|H].
    + by rewrite H.
    + destruct (clamp_cases c) as [[Hn _]|[[H1 _]|[[H0 _]|[_ Hc']]]].
      * by rewrite Hn.
      * by destruct (Hex c).
      * by destruct (Hex' c).
      * cbv zeta in Hc'. rewrite Hc'.
        destruct c as [[]|[]| |[] m e]; try done.
        (* the stored value is never -0 *)
        exfalso. clear -Hc.
        destruct Hc as [[_ Hc]|[[_ Hc]|[[_ Hc]|[_ Hc]]]];
          try discriminate Hc.
        by destruct value as [[]|[]| |[] m e].
Qed.

End DetectorFacts.

Lemma X1_setConfidence_witness :
  confidence (setConfidence (@new_Detector unit unit) (F64.lit 15 10))
  = F64.one.
Proof.
  apply (X1_setConfidence_clamps new_Detector (F64.lit 15 10)).
  vm_compute. reflexivity.
Defined.

(** ** detect *)

Lemma filter_sublist {A} (f : A → bool) (l : list A) :
  List.filter f l `sublist_of` l.
Proof.
  induction l as [|a l IH]; simpl; [constructor|].
  destruct (f a); by constructor.
Qed.

Lemma elem_of_filter {A} (f : A → bool) (l : list A) (x : A) :
  x ∈ List.filter f l ↔ x ∈ l ∧ f x = true.
Proof. rewrite !list_elem_of_In. apply filter_In. Qed.

Lemma filter_none {A} (f : A → bool) (l : list A) :
  (∀ x, f x = false) → List.filter f l = [].
Proof.
  intros H. induction l as [|a l IH]; simpl; [done|]. by rewrite H.
Qed.

Lemma filter_filter_and {A} (f g : A → bool) (l : list A) :
  List.filter g (List.filter f l) = List.filter (fun x => f x && g x) l.
Proof.
  induction l as [|a l IH]; simpl; [done|].
  destruct (f a); simpl; [|done]. destruct (g a); by rewrite IH.
Qed.

Section DetectFacts.
Context {Source People : Type}.
Implicit Types (d : Detector Source People) (source : Source).

Lemma kept_filter d (predictions : list Prediction) :
  (if personOnly d
   then List.filter is_person (List.filter (meets_threshold d) predictions)
   else List.filter (meets_threshold d) predictions)
  = List.filter (fun pred => meets_threshold d pred
                             && (negb (personOnly d) || is_person pred))
                predictions.
Proof.
  destruct (personOnly d); simpl.
  - apply filter_filter_and.
  - apply filter_ext_in. intros a _. by rewrite andb_true_r.
Qed.

(** The predictions [detect] keeps. *)
Lemma detect_cases d source :
  detect d source = ([], None) ∨
  ∃ coco predictions,
    isReady d = true ∧ cocoModel d = Some coco ∧
    coco_detect coco source = Fulfilled predictions ∧
    (detect d source).1
    = to_detection <$>
        List.filter (fun pred => meets_threshold d pred
                                 && (negb (personOnly d) || is_person pred))
                    predictions.
Proof.
  unfold detect.
  destruct (isReady d); [|by left].
  destruct (cocoModel d) as [coco|]; [|by left].
  destruct (coco_detect coco source) as [predictions|] eqn:Hc; [|by left].
  pose proof (kept_filter d predictions) as Hf.
  destruct (String.eqb (mode d) "segmentation"), (bodyPixModel d) as [bp|];
    try (right; exists coco, predictions; by rewrite Hf).
  destruct (bp_segmentPerson bp source); [|by left].
  right; exists coco, predictions. by rewrite Hf.
Qed.

(** X2: what [detect] returns is filtered.  Every detection returned has
    a score at or above the threshold, is a person when the person-only
    mode is on, and is built from a prediction of the model; the
    detections come in the order of the predictions. *)
Theorem X2_detect_returns_filtered d source :
  Forall (fun det =>
            SFleb (confidence d) (det_confidence det) = true ∧
            (personOnly d = true → det_class det = "person"))
         (detect d source).1 ∧
  ∀ coco predictions,
    cocoModel d = Some coco →
    coco_detect coco source = Fulfilled predictions →
    (detect d source).1 `sublist_of` (to_detection <$> predictions).
Proof.
  destruct (detect_cases d source)
    as [->|(coco & predictions & Hr & Hm & Hp & ->)].
  { split; [constructor|]. intros. apply sublist_nil_l. }
  split.
  - apply Forall_forall. intros det (pred & -> & Hin)%list_elem_of_fmap.
    apply elem_of_filter in Hin as [_ [Ht Hc]%andb_true_iff].
    unfold to_detection. destruct (pr_bbox pred) as [[[x y] w] h]. simpl.
    split; [exact Ht|]. intros Hpo. rewrite Hpo in Hc. simpl in Hc.
    by apply String.eqb_eq in Hc.
  - intros coco' predictions' Hm' Hp'.
    rewrite Hm in Hm'. injection Hm' as <-.
    rewrite Hp in Hp'. injection Hp' as <-.
    apply fmap_sublist, filter_sublist.
Qed.

(** X3: [detect] misses nothing when no call fails.  With the models
    loaded, a COCO-SSD call that resolves and, in segmentation mode, a
    BodyPix call that resolves, a prediction is among the detections
    exactly when its score reaches the threshold and, in person-only
    mode, its class is person. *)
Theorem X3_detect_keeps_all_passing d source coco predictions :
  isReady d = true →
  cocoModel d = Some coco →
  coco_detect coco source = Fulfilled predictions →
  (∀ bodyPix, mode d = "segmentation" → bodyPixModel d = Some bodyPix →
              bp_segmentPerson bodyPix source ≠ Rejected) →
  ∀ det, det ∈ (detect d source).1 ↔
         ∃ pred, pred ∈ predictions ∧ det = to_detection pred ∧
                 SFleb (confidence d) (pr_score pred) = true ∧
                 (personOnly d = true → pr_class pred = "person").
Proof.
  intros Hr Hm Hp Hbp det.
  assert (Hd : (detect d source).1
               = to_detection <$>
                   List.filter (fun pred => meets_threshold d pred
                                  && (negb (personOnly d) || is_person pred))
                               predictions).
  { unfold detect. rewrite Hr, Hm, Hp, kept_filter.
    destruct (String.eqb (mode d) "segmentation") eqn:Hmode; [|done].
    apply String.eqb_eq in Hmode.
    destruct (bodyPixModel d) as [bp|] eqn:Hb; [|done].
    specialize (Hbp bp Hmode eq_refl).
    by destruct (bp_segmentPerson bp source). }
  rewrite Hd, list_elem_of_fmap. split.
  - intros (pred & -> & [Hin [Ht Hc]%andb_true_iff]%elem_of_filter).
    exists pred. repeat split; try done.
    intros Hpo. rewrite Hpo in Hc. by apply String.eqb_eq in Hc.
  - intros (pred & Hin & -> & Ht & Hc). exists pred. split; [done|].
    apply elem_of_filter. split; [done|]. apply andb_true_iff.
    split; [exact Ht|].
    destruct (personOnly d); [|done]. simpl. apply String.eqb_eq. by apply Hc.
Qed.

Lemma detect_segmentation_mode d source (s : Segmentation) :
  (detect d source).2 = Some s → mode d = "segmentation".
Proof.
  unfold detect.
  destruct (isReady d); [|discriminate].
  destruct (cocoModel d) as [coco|]; [|discriminate].
  destruct (coco_detect coco source); [|discriminate].
  destruct (String.eqb (mode d) "segmentation") eqn:Hmode; [|discriminate].
  intros _. by apply String.eqb_eq.
Qed.

(** X4: a segmentation is returned only in segmentation mode.  [detect]
    returns a segmentation exactly when the detector is ready, both
    models are loaded, the mode is 'segmentation', and both model calls
    resolve; it is then what BodyPix resolved to. *)
Theorem X4_detect_segmentation d source (s : Segmentation) :
  (detect d source).2 = Some s ↔
  isReady d = true ∧ mode d = "segmentation" ∧
  ∃ coco bodyPix predictions,
    cocoModel d = Some coco ∧ bodyPixModel d = Some bodyPix ∧
    coco_detect coco source = Fulfilled predictions ∧
    bp_segmentPerson bodyPix source = Fulfilled s.
Proof.
  unfold detect. split.
  - destruct (isReady d); [|discriminate].
    destruct (cocoModel d) as [coco|]; [|discriminate].
    destruct (coco_detect coco source) as [predictions|] eqn:Hc;
      [|discriminate].
    destruct (String.eqb (mode d) "segmentation") eqn:Hmode; [|discriminate].
    destruct (bodyPixModel d) as [bp|]; [|discriminate].
    destruct (bp_segmentPerson bp source) as [s'|] eqn:Hs; [|discriminate].
    simpl. intros [= ->]. apply String.eqb_eq in Hmode.
    repeat split; try done. by exists coco, bp, predictions.
  - intros (-> & Hmode & coco & bp & predictions & -> & -> & -> & ->).
    apply String.eqb_eq in Hmode. by rewrite Hmode.
Qed.

(** X5: a failure inside [detect] loses the whole frame.  When the
    detector is not ready, COCO-SSD is missing or its call is rejected,
    or (in segmentation mode) the BodyPix call is rejected, the result is
    the empty list and no segmentation, even if COCO-SSD had predicted
    objects above the threshold. *)
Theorem X5_detect_failure_is_empty d source :
  (isReady d = false ∨ cocoModel d = None ∨
   (∃ coco, cocoModel d = Some coco ∧ coco_detect coco source = Rejected) ∨
   (∃ bodyPix, mode d = "segmentation" ∧ bodyPixModel d = Some bodyPix ∧
               bp_segmentPerson bodyPix source = Rejected)) →
  detect d source = ([], None).
Proof.
  unfold detect.
  intros [->|[->|[(coco & -> & ->)|(bp & Hmode & -> & ->)]]]; try done.
  - by destruct (isReady d).
  - by destruct (isReady d).
  - apply String.eqb_eq in Hmode. rewrite Hmode.
    destruct (isReady d); [|done].
    destruct (cocoModel d) as [coco|]; [|done].
    by destruct (coco_detect coco source).
Qed.

(** X6: a NaN threshold silences the detector.  After [setConfidence]
    was given NaN, no prediction passes [score >= confidence], so
    [detect] returns no detection whatever the model predicts. *)
Theorem X6_NaN_threshold_detects_nothing d source :
  (detect (setConfidence d S754_nan) source).1 = [].
Proof.
  destruct (detect_cases (setConfidence d S754_nan) source)
    as [->|(coco & predictions & _ & _ & _ & ->)]; [done|].
  rewrite filter_none; [done|]. intros pred.
  unfold meets_threshold, setConfidence. simpl. done.
Qed.

(** What every reachable detector satisfies. *)
Lemma after_call_invariant d (c : detector_call Source People) :
  (isReady d = true → is_Some (cocoModel d) ∧ is_Some (bodyPixModel d)) →
  (confidence d = S754_nan ∨ in_unit_interval (confidence d) = true) →
  let d' := after_call d c in
  (isReady d' = true → is_Some (cocoModel d') ∧ is_Some (bodyPixModel d')) ∧
  (confidence d' = S754_nan ∨ in_unit_interval (confidence d') = true).
Proof.
  intros Hm Hc. destruct c as [onProgress coco bodyPix|m|value|enabled]; simpl.
  - destruct coco as [c|]; [|done].
    destruct bodyPix as [b|]; simpl; [by eauto|].
    split; [|done]. intros Hr. destruct (Hm Hr) as [_ Hb]. by eauto.
  - done.
  - split; [done|]. apply clamp_range.
  - done.
Qed.

(** X7: the detector is ready only with both models, and its threshold
    never leaves [0, 1].  After any sequence of calls of [load],
    [setMode], [setConfidence] and [setPersonOnly] on a new detector,
    [isReady] implies that both models are loaded, and the threshold is
    NaN or a number from 0 to 1. *)
Theorem X7_detector_invariant (calls : list (detector_call Source People)) :
  let d := foldl after_call new_Detector calls in
  (isReady d = true → is_Some (cocoModel d) ∧ is_Some (bodyPixModel d)) ∧
  (confidence d = S754_nan ∨ in_unit_interval (confidence d) = true).
Proof.
  cbv zeta.
  assert (H0 : (isReady (@new_Detector Source People) = true →
                is_Some (cocoModel (@new_Detector Source People)) ∧
                is_Some (bodyPixModel (@new_Detector Source People))) ∧
               (confidence (@new_Detector Source People) = S754_nan ∨
                in_unit_interval (confidence (@new_Detector Source People))
                = true)).
  { split; [discriminate|]. right. by vm_compute. }
  revert H0. generalize (@new_Detector Source People) as d.
  induction calls as [|c calls IH]; intros d [Hm Hc]; [done|].
  simpl. apply IH. by apply after_call_invariant.
Qed.

(** X8: [setDetectMode] keeps the detector and the renderer in step.
    After it, the detector's mode is the one given, the renderer's
    segmentationMode is on exactly for 'segmentation', every other
    setting and the smoothing history are as before, and [detect]
    returns a segmentation only if the renderer is in segmentation
    mode. *)
Theorem X8_setDetectMode_in_step (a : App Source People) (m : string) :
  let a' := setDetectMode a m in
  mode (detector a') = m ∧
  (segmentationMode (settings (renderer a')) = true ↔ m = "segmentation") ∧
  (∀ f, f ≠ F_segmentationMode →
        field_of (settings (renderer a')) f
        = field_of (settings (renderer a)) f) ∧
  prevMask (renderer a') = prevMask (renderer a) ∧
  ∀ source s, (detect (detector a') source).2 = Some s →
              segmentationMode (settings (renderer a')) = true.
Proof.
  cbv zeta. unfold setDetectMode. simpl.
  assert (Hs : String.eqb m "segmentation" = true ↔ m = "segmentation")
    by apply String.eqb_eq.
  repeat split.
  - apply Hs.
  - apply Hs.
  - intros f Hf. by destruct f.
  - intros source s Hmode%detect_segmentation_mode. simpl in Hmode.
    by apply Hs.
Qed.
End DetectFacts.

Lemma X3_detect_keeps_all_passing_witness :
  let person := {| pr_class := "person"; pr_score := F64.lit 9 10;
                   pr_bbox := (F64.of_Z 10, F64.of_Z 20, F64.of_Z 30,
                               F64.of_Z 40) |} in
  let cup := {| pr_class := "cup"; pr_score := F64.lit 3 10;
                pr_bbox := (F64.of_Z 1, F64.of_Z 2, F64.of_Z 3,
                            F64.of_Z 4) |} in
  let coco : CocoModel unit := {| coco_detect _ := Fulfilled [cup; person] |} in
  let bodyPix : BodyPixModel unit unit :=
    {| bp_segmentPerson _ := Rejected; bp_segmentMultiPerson _ := Rejected |} in
  let d := (load new_Detector false (Fulfilled coco) (Fulfilled bodyPix)).1.1 in
  to_detection person ∈ (detect d ()).1 ↔
  ∃ pred, pred ∈ [cup; person] ∧ to_detection person = to_detection pred ∧
          SFleb (confidence d) (pr_score pred) = true ∧
          (personOnly d = true → pr_class pred = "person").
Proof.
  intros person cup coco bodyPix d.
  apply (X3_detect_keeps_all_passing d () coco [cup; person]).
  - reflexivity.
  - reflexivity.
  - reflexivity.
  - intros bp Hmode. discriminate Hmode.
Defined.

Lemma X5_detect_failure_witness :
  let person := {| pr_class := "person"; pr_score := F64.lit 9 10;
                   pr_bbox := (F64.of_Z 10, F64.of_Z 20, F64.of_Z 30,
                               F64.of_Z 40) |} in
  let coco : CocoModel unit := {| coco_detect _ := Fulfilled [person] |} in
  let bodyPix : BodyPixModel unit unit :=
    {| bp_segmentPerson _ := Rejected; bp_segmentMultiPerson _ := Rejected |} in
  let d := setMode
             (load new_Detector false (Fulfilled coco) (Fulfilled bodyPix)).1.1
             "segmentation" in
  detect d () = ([], None).
Proof.
  intros person coco bodyPix d.
  apply (X5_detect_failure_is_empty d ()).
  right; right; right. exists bodyPix. repeat split; reflexivity.
Defined.

(** * More of the renderer *)

(** ** hexToRGB *)

Lemma hex_pairs_value_true : hex_pairs_value = true.
Proof. by vm_compute. Qed.

Lemma parseInt16_pair a b x y :
  hex_digit a = Some x → hex_digit b = Some y →
  parseInt16 (String a (String b "")) = F64.of_Z (16 * x + y).
Proof.
  intros Ha Hb. pose proof hex_pairs_value_true as H.
  unfold hex_pairs_value in H.
  rewrite forallb_forall in H. specialize (H a (elem_of_all_ascii a)).
  rewrite Ha in H.
  rewrite forallb_forall in H. specialize (H b (elem_of_all_ascii b)).
  rewrite Hb in H. by apply same_number_eq.
Qed.

Lemma parseInt16_digit a x :
  hex_digit a = Some x → parseInt16 (String a "") = F64.of_Z x.
Proof.
  destruct a as [[] [] [] [] [] [] [] []]; intros H; vm_compute in H;
    try discriminate H; injection H as <-; by vm_compute.
Qed.

Lemma substring_short (n m : nat) (s : string) :
  (String.length s ≤ n)%nat → String.substring n m s = "".
Proof.
  revert n. induction s as [|c s IH]; intros [|n] Hn; simpl in *;
    try (by destruct m); try lia.
  apply IH. lia.
Qed.

(** X9: [hexToRGB] reads the six characters after the first, whatever
    the first is and whatever follows the seventh.  When those six are
    hexadecimal digits (of either case), the three channels are the
    numbers [16 * high + low], each from 0 to 255. *)
Theorem X9_hexToRGB_reads_six_digits (c0 r1 r2 g1 g2 b1 b2 : ascii)
    (rest : string) (xr1 xr2 xg1 xg2 xb1 xb2 : Z) :
  hex_digit r1 = Some xr1 → hex_digit r2 = Some xr2 →
  hex_digit g1 = Some xg1 → hex_digit g2 = Some xg2 →
  hex_digit b1 = Some xb1 → hex_digit b2 = Some xb2 →
  hexToRGB (String c0 (String r1 (String r2 (String g1 (String g2
             (String b1 (String b2 rest)))))))
  = (F64.of_Z (16 * xr1 + xr2), F64.of_Z (16 * xg1 + xg2),
     F64.of_Z (16 * xb1 + xb2)) ∧
  0 ≤ 16 * xr1 + xr2 ≤ 255 ∧ 0 ≤ 16 * xg1 + xg2 ≤ 255 ∧
  0 ≤ 16 * xb1 + xb2 ≤ 255.
Proof.
  intros Hr1 Hr2 Hg1 Hg2 Hb1 Hb2.
  assert (Hd : ∀ a x, hex_digit a = Some x → 0 ≤ x ≤ 15).
  { intros a x. unfold hex_digit.
    repeat case_match; intros [= <-]; lia. }
  pose proof (Hd _ _ Hr1). pose proof (Hd _ _ Hr2). pose proof (Hd _ _ Hg1).
  pose proof (Hd _ _ Hg2). pose proof (Hd _ _ Hb1). pose proof (Hd _ _ Hb2).
  split; [|lia].
  unfold hexToRGB, slice. cbn [String.substring Nat.sub].
  assert (Hrest : String.substring 0 0 rest = "") by (by destruct rest).
  rewrite Hrest.
  by rewrite (parseInt16_pair _ _ _ _ Hr1 Hr2),
    (parseInt16_pair _ _ _ _ Hg1 Hg2), (parseInt16_pair _ _ _ _ Hb1 Hb2).
Qed.

Lemma X9_hexToRGB_witness :
  hexToRGB "#ffA500cc"
  = (F64.of_Z (16 * 15 + 15), F64.of_Z (16 * 10 + 5), F64.of_Z (16 * 0 + 0)) ∧
  0 ≤ 16 * 15 + 15 ≤ 255 ∧ 0 ≤ 16 * 10 + 5 ≤ 255 ∧ 0 ≤ 16 * 0 + 0 ≤ 255.
Proof.
  apply (X9_hexToRGB_reads_six_digits "#" "f" "f" "A" "5" "0" "0" "cc");
    reflexivity.
Defined.

(** X10: [hexToRGB] does not reject or expand a short colour.  A channel
    whose two characters lie past the end of the string is NaN: blue for
    a string of at most 5 characters, green for at most 3, red for at
    most 1.  A three-digit shorthand [#abc] therefore gives red [0xab],
    green [0xc] and blue NaN. *)
Theorem X10_hexToRGB_short_color (hex : string) :
  ((String.length hex ≤ 5)%nat → (hexToRGB hex).2 = F64.NaN) ∧
  ((String.length hex ≤ 3)%nat → (hexToRGB hex).1.2 = F64.NaN) ∧
  ((String.length hex ≤ 1)%nat → (hexToRGB hex).1.1 = F64.NaN) ∧
  ∀ c0 a b c xa xb xc,
    hex = String c0 (String a (String b (String c ""))) →
    hex_digit a = Some xa → hex_digit b = Some xb → hex_digit c = Some xc →
    hexToRGB hex = (F64.of_Z (16 * xa + xb), F64.of_Z xc, F64.NaN).
Proof.
  unfold hexToRGB, slice. cbn [fst snd Nat.sub].
  repeat split.
  - intros H. by rewrite substring_short.
  - intros H. by rewrite substring_short.
  - intros H. by rewrite substring_short.
  - intros c0 a b c xa xb xc -> Ha Hb Hc. cbn [String.substring].
    by rewrite (parseInt16_pair _ _ _ _ Ha Hb), (parseInt16_digit _ _ Hc).
Qed.

Lemma X10_hexToRGB_short_witness :
  hexToRGB "#f80" = (F64.of_Z (16 * 15 + 8), F64.of_Z 0, F64.NaN).
Proof.
  apply (proj2 (proj2 (proj2 (X10_hexToRGB_short_color "#f80")))
           "#"%char "f"%char "8"%char "0"%char 15 8 0); reflexivity.
Defined.

(** ** blurMask *)

(** Two loops that store a value per cell fill the grid row by row. *)
Lemma fill_row {A} (f : nat → A) (base : nat) (k : nat) (init : list A) :
  let out := foldl (fun acc x => <[(base + x)%nat := f x]> acc) init (seq 0 k) in
  length out = length init ∧
  (∀ x, (x < k)%nat → (base + x < length init)%nat →
        out !! (base + x)%nat = Some (f x)) ∧
  (∀ j, (j < base ∨ base + k ≤ j)%nat → out !! j = init !! j).
Proof.
  induction k as [|k IH]; cbv zeta in *.
  - simpl. split; [done|]. split; [intros; lia|done].
  - destruct IH as (IHlen & IHown & IHother).
    rewrite seq_S, foldl_app. simpl.
    split; [by rewrite length_insert|]. split.
    + intros x Hx Hlen. destruct (decide (x = k)) as [->|Hne].
      * apply list_lookup_insert_eq. by rewrite IHlen.
      * rewrite list_lookup_insert_ne by lia. apply IHown; lia.
    + intros j Hj. rewrite list_lookup_insert_ne by lia. apply IHother. lia.
Qed.

Lemma fill_grid {A} (f : nat → nat → A) (w h : nat) (init : list A) :
  let out := foldl (fun acc y =>
                      foldl (fun acc x => <[(y * w + x)%nat := f y x]> acc)
                            acc (seq 0 w))
                   init (seq 0 h) in
  length out = length init ∧
  (∀ y x, (y < h)%nat → (x < w)%nat → (y * w + x < length init)%nat →
          out !! (y * w + x)%nat = Some (f y x)) ∧
  (∀ j, (h * w ≤ j)%nat → out !! j = init !! j).
Proof.
  induction h as [|h IH]; cbv zeta in *.
  - simpl. split; [done|]. split; [intros; lia|done].
  - destruct IH as (IHlen & IHown & IHother).
    rewrite seq_S, foldl_app. simpl.
    match goal with
    | |- context [foldl _ (foldl ?g init (seq 0 h)) (seq 0 w)] =>
        set (mid := foldl g init (seq 0 h)) in *
    end.
    destruct (fill_row (f h) (h * w) w mid) as (Hlen & Hown & Hother).
    split; [by rewrite Hlen|]. split.
    + intros y x Hy Hx Hl. destruct (decide (y = h)) as [->|Hne].
      * apply Hown; [done|]. by rewrite IHlen.
      * rewrite Hother by nia. apply IHown; [lia|done..].
    + intros j Hj. rewrite Hother by nia. apply IHother. nia.
Qed.

(** One pass, cell by cell: the cells of the grid take the mean of their
    neighbourhood, the cells past the grid are zero. *)
Lemma blur_pass_spec (width height : nat) (data : list spec_float) :
  let out := blur_pass width height data in
  length out = length data ∧
  (∀ y x, (y < height)%nat → (x < width)%nat →
          (y * width + x < length data)%nat →
          out !! (y * width + x)%nat
          = Some (blur_cell data width height x y)) ∧
  (∀ j, (height * width ≤ j)%nat → (j < length data)%nat →
        out !! j = Some F64.zero).
Proof.
  cbv zeta.
  assert (Heq : blur_pass width height data
                = foldl (fun acc y =>
                    foldl (fun acc x =>
                      <[(y * width + x)%nat
                        := blur_cell data width height x y]> acc)
                      acc (seq 0 width))
                    (replicate (length data) F64.zero) (seq 0 height)).
  { unfold blur_pass. apply foldl_ext. intros acc y.
    apply foldl_ext. intros acc' x. unfold blur_cell.
    by destruct (kernel data width height x y). }
  rewrite Heq.
  destruct (fill_grid (fun y x => blur_cell data width height x y)
              width height (replicate (length data) F64.zero))
    as (Hlen & Hown & Hother).
  rewrite length_replicate in *.
  split; [done|]. split; [done|].
  intros j Hj Hl. rewrite Hother by done. by apply lookup_replicate_2.
Qed.

Lemma blur_passes_length (width height : nat) (n : nat)
    (data : list spec_float) :
  length (Nat.iter n (blur_pass width height) data) = length data.
Proof.
  induction n as [|n IH]; [done|]. simpl.
  by destruct (blur_pass_spec width height
                 (Nat.iter n (blur_pass width height) data)) as [-> _].
Qed.

Lemma binarize_bit v : is_bit (binarize v).
Proof. unfold binarize, is_bit. destruct (F64.gtb v half); auto. Qed.

Lemma trip_count_positive (it : spec_float) (n : nat) :
  SFltb F64.zero it = true → trip_count it = Some n → (1 ≤ n)%nat.
Proof.
  destruct it as [[]|[]| |[] m e]; try discriminate. intros _.
  unfold trip_count.
  assert (Hc : 1 ≤ (if 0 <=? e then Zpos m * 2 ^ e
                    else (Zpos m + 2 ^ (- e) - 1) / 2 ^ (- e))).
  { destruct (Z.leb_spec 0 e) as [He|He].
    - pose proof (Z.pow_pos_nonneg 2 e ltac:(lia) He). nia.
    - pose proof (Z.pow_pos_nonneg 2 (- e) ltac:(lia) ltac:(lia)) as Hp.
      apply Z.div_le_lower_bound; lia. }
  destruct (_ <? _); [discriminate|]. intros [= <-]. lia.
Qed.

(** X11: the blur keeps the size of the mask, returns only 0 and 1 once
    it runs, and erases what lies past the grid.  Whatever [blurMask]
    returns has the length of the mask given; unless the iteration count
    is 0 (then the mask is returned as it is) every cell returned is 0
    or 1; and with a positive count every cell at an index of
    [width * height] or more is 0, so a mask blurred with width 0 or
    height 0 comes back all 0. *)
Theorem X11_blurMask_shape (maskData : list byte) (width height : nat)
    (iterations : spec_float) (out : list byte) :
  blurMask maskData width height iterations = Some out →
  length out = length maskData ∧
  (F64.eqb iterations F64.zero = true → out = maskData) ∧
  (F64.eqb iterations F64.zero = false → Forall is_bit out) ∧
  (SFltb F64.zero iterations = true →
   ∀ j, (width * height ≤ j)%nat → (j < length maskData)%nat →
        out !! j = Some Byte.x00).
Proof.
  unfold blurMask. destruct (F64.eqb iterations F64.zero) eqn:Hz.
  { intros [= <-]. repeat split; try done.
    intros Hpos. exfalso. revert Hz Hpos. unfold F64.eqb, SFeqb, SFltb.
    rewrite (SFcompare_antisym iterations F64.zero).
    by destruct (SFcompare iterations F64.zero) as [[]|]. }
  destruct (trip_count iterations) as [n|] eqn:Hn; [|discriminate].
  simpl. intros [= <-].
  split; [|split; [done|split]].
  - rewrite length_fmap, blur_passes_length. unfold Float32Array_from.
    by rewrite length_fmap.
  - intros _. apply Forall_fmap, Forall_forall. intros v _.
    apply binarize_bit.
  - intros Hpos j Hj Hl.
    pose proof (trip_count_positive _ _ Hpos Hn) as Hn1.
    destruct n as [|n]; [lia|]. simpl.
    set (data := Nat.iter n (blur_pass width height)
                   (Float32Array_from maskData)).
    assert (Hlen : length data = length maskData).
    { unfold data. rewrite blur_passes_length. unfold Float32Array_from.
      by rewrite length_fmap. }
    destruct (blur_pass_spec width height data) as (_ & _ & Hout).
    rewrite list_lookup_fmap, Hout by (rewrite ?Hlen; lia).
    by vm_compute.
Qed.

Lemma X11_blurMask_shape_witness :
  ∃ out, blurMask [Byte.x01; Byte.x01; Byte.x01] 1 2 (F64.of_Z 2) = Some out ∧
         length out = 3%nat ∧ out !! 2%nat = Some Byte.x00.
Proof.
  destruct (blurMask [Byte.x01; Byte.x01; Byte.x01] 1 2 (F64.of_Z 2))
    as [out|] eqn:Hb; [|vm_compute in Hb; discriminate Hb].
  exists out. split; [reflexivity|].
  destruct (X11_blurMask_shape _ _ _ _ _ Hb) as (Hlen & _ & _ & Hpast).
  split; [exact Hlen|].
  apply Hpast; [reflexivity|simpl; lia|simpl; lia].
Defined.

(** *** The kernel on a binary mask *)

Lemma foldl_bind {A B C} (f : A → C → A) (g : B → list C) (l : list B)
    (a : A) :
  foldl f a (l ≫= g) = foldl (fun a x => foldl f a (g x)) a l.
Proof.
  revert a. induction l as [|x l IH]; intros a; [done|].
  by rewrite bind_cons, foldl_app, IH.
Qed.

(** The kernel is one loop over the neighbourhood. *)
Lemma kernel_neighbourhood data width height x y :
  kernel data width height x y
  = foldl (fun '(sum, count) i =>
             (F64.add sum (num_of_f32 (data !! i)), count + 1))
          (F64.zero, 0) (neighbourhood width height x y).
Proof.
  unfold kernel, neighbourhood. rewrite foldl_bind.
  apply foldl_ext. intros acc dy. rewrite foldl_bind.
  apply foldl_ext. intros [sum count] dx.
  by destruct (in_bounds _ _ _ _).
Qed.

Lemma length_bind_le {A B} (g : A → list B) (l : list A) (n : nat) :
  (∀ a, length (g a) ≤ n)%nat → (length (l ≫= g) ≤ n * length l)%nat.
Proof.
  intros H. induction l as [|a l IH]; [simpl; lia|].
  rewrite bind_cons, length_app. specialize (H a). simpl. lia.
Qed.

Lemma neighbourhood_length width height x y :
  (length (neighbourhood width height x y) ≤ 9)%nat.
Proof.
  unfold neighbourhood.
  etrans; [apply (length_bind_le _ _ 3)|simpl; lia].
  intros dy. etrans; [apply (length_bind_le _ _ 1)|simpl; lia].
  intros dx. destruct (in_bounds _ _ _ _); simpl; lia.
Qed.

(** The cell itself is in its neighbourhood. *)
Lemma neighbourhood_self width height x y :
  (x < width)%nat → (y < height)%nat →
  (y * width + x)%nat ∈ neighbourhood width height x y.
Proof.
  intros Hx Hy. unfold neighbourhood.
  apply list_elem_of_bind. exists 0. split; [|set_solver].
  apply list_elem_of_bind. exists 0. split; [|set_solver].
  rewrite !Z.add_0_r.
  assert (Hin : in_bounds width height (Z.of_nat x) (Z.of_nat y) = true).
  { unfold in_bounds. rewrite !andb_true_iff, !Z.leb_le, !Z.ltb_lt. lia. }
  rewrite Hin. apply list_elem_of_singleton. lia.
Qed.

(** Every cell of the neighbourhood is a cell of the grid. *)
Lemma neighbourhood_grid width height x y i :
  i ∈ neighbourhood width height x y → (i < width * height)%nat.
Proof.
  unfold neighbourhood.
  intros (dy & Hi & _)%list_elem_of_bind.
  apply list_elem_of_bind in Hi as (dx & Hi & _).
  destruct (in_bounds _ _ _ _) eqn:Hin; [|by apply elem_of_nil in Hi].
  apply list_elem_of_singleton in Hi as ->.
  unfold in_bounds in Hin.
  rewrite !andb_true_iff, !Z.leb_le, !Z.ltb_lt in Hin. nia.
Qed.

Lemma small_sum_cases (k : Z) :
  0 ≤ k ≤ 9 →
  k = 0 ∨ k = 1 ∨ k = 2 ∨ k = 3 ∨ k = 4 ∨ k = 5 ∨ k = 6 ∨ k = 7 ∨ k = 8
  ∨ k = 9.
Proof. lia. Qed.

Lemma add_one_small (k : Z) :
  0 ≤ k ≤ 8 → F64.add (F64.of_Z k) F64.one = F64.of_Z (k + 1).
Proof.
  intros Hk. pose proof (small_sum_cases k ltac:(lia)) as H.
  repeat (destruct H as [->|H]; [by vm_compute|]). lia.
Qed.

Lemma add_zero_small (k : Z) :
  0 ≤ k ≤ 9 → F64.add (F64.of_Z k) F64.zero = F64.of_Z k.
Proof.
  intros Hk. pose proof (small_sum_cases k Hk) as H.
  repeat (destruct H as [->|H]; [by vm_compute|]). subst k. by vm_compute.
Qed.

(** On data whose cells around [(x, y)] hold 0 or 1 ([hot] tells which),
    the kernel counts: the sum is the number of ones, the count the size
    of the neighbourhood. *)
Lemma kernel_counts (data : list spec_float) (hot : nat → bool)
    (l : list nat) (k c : Z) :
  (∀ i, i ∈ l → data !! i = Some (if hot i then F64.one else F64.zero)) →
  0 ≤ k → k + Z.of_nat (length l) ≤ 9 →
  foldl (fun '(sum, count) i =>
           (F64.add sum (num_of_f32 (data !! i)), count + 1))
        (F64.of_Z k, c) l
  = (F64.of_Z (k + Z.of_nat (length (List.filter hot l))),
     c + Z.of_nat (length l)).
Proof.
  revert k c. induction l as [|i l IH]; intros k c Hd Hk Hl; simpl.
  { by rewrite !Z.add_0_r. }
  simpl in Hl. rewrite (Hd i) by set_solver. simpl.
  destruct (hot i); simpl.
  - rewrite add_one_small by lia.
    rewrite IH by (try lia; intros j Hj; apply Hd; set_solver).
    f_equal; [f_equal|]; lia.
  - rewrite add_zero_small by lia.
    rewrite IH by (try lia; intros j Hj; apply Hd; set_solver).
    f_equal; lia.
Qed.

(** The mean of up to nine zeros and ones is above one half exactly when
    the ones are the majority. *)
Lemma majority_table (k c : Z) :
  0 ≤ k ≤ c → 1 ≤ c ≤ 9 →
  binarize (F32.round (F64.div (F64.of_Z k) (F64.of_Z c)))
  = if c <? 2 * k then Byte.x01 else Byte.x00.
Proof.
  intros Hk Hc.
  pose proof (small_sum_cases c ltac:(lia)) as H.
  pose proof (small_sum_cases k ltac:(lia)) as G.
  destruct H as [->|[->|[->|[->|[->|[->|[->|[->|[->| ->]]]]]]]]];
    destruct G as [->|[->|[->|[->|[->|[->|[->|[->|[->| ->]]]]]]]]];
    first [lia | by vm_compute].
Qed.

Lemma Float32Array_from_lookup (mask : list byte) (i : nat) (b : byte) :
  mask !! i = Some b →
  Float32Array_from mask !! i = Some (F64.of_Z (Z_of_byte b)).
Proof.
  intros H. unfold Float32Array_from. by rewrite list_lookup_fmap, H.
Qed.

(** One pass of the blur, cell by cell: the vote over the cells the
    kernel visits. *)
Lemma blur_pass_vote (maskData : list byte)
    (width height : nat) (x y : nat) :
  length maskData = (width * height)%nat →
  Forall is_bit maskData →
  (x < width)%nat → (y < height)%nat →
  ∃ out,
    blurMask maskData width height (F64.of_Z 1) = Some out ∧
    out !! (y * width + x)%nat
    = Some (if (length (neighbourhood width height x y)
                <? 2 * ones_around maskData width height x y)%nat
            then Byte.x01 else Byte.x00).
Proof.
  intros Hlen Hbits Hx Hy.
  assert (Hb : blurMask maskData width height (F64.of_Z 1)
               = Some (binarize <$> blur_pass width height
                                      (Float32Array_from maskData)))
    by done.
  eexists. split; [exact Hb|].
  destruct (blur_pass_spec width height (Float32Array_from maskData))
    as (_ & Hcell & _).
  assert (Hl : length (Float32Array_from maskData) = (width * height)%nat).
  { unfold Float32Array_from. by rewrite length_fmap. }
  rewrite list_lookup_fmap, Hcell by (rewrite ?Hl; nia).
  cbn [fmap option_fmap option_map]. f_equal. unfold blur_cell. rewrite kernel_neighbourhood.
  pose proof (neighbourhood_length width height x y) as Hn9.
  pose proof (neighbourhood_self width height x y Hx Hy) as Hself.
  change F64.zero with (F64.of_Z 0).
  rewrite (kernel_counts _ (fun i => cell_is (maskData !! i) Byte.x01));
    [|intros i Hi|lia|lia].
  - fold (ones_around maskData width height x y).
    set (n := length (neighbourhood width height x y)) in *.
    set (k := ones_around maskData width height x y).
    assert (Hk : (k ≤ n)%nat) by apply List.filter_length_le.
    assert (Hn1 : (1 ≤ n)%nat).
    { unfold n. destruct (neighbourhood width height x y);
        [by apply elem_of_nil in Hself|simpl; lia]. }
    clearbody n k.
    rewrite !Z.add_0_l, majority_table by lia.
    destruct (Z.ltb_spec (Z.of_nat n) (2 * Z.of_nat k)),
      (Nat.ltb_spec n (2 * k)); (done || lia).
  - apply neighbourhood_grid in Hi.
    destruct (lookup_lt_is_Some_2 maskData i ltac:(lia)) as [b Hb'].
    rewrite (Float32Array_from_lookup _ _ _ Hb'), Hb'.
    rewrite Forall_forall in Hbits.
    by destruct (Hbits b (list_elem_of_lookup_2 _ _ _ Hb')) as [-> | ->].
Qed.

Lemma bind_singleton_if {A B} (p : A → bool) (f : A → B) (l : list A) :
  l ≫= (fun a => if p a then [f a] else []) = f <$> List.filter p l.
Proof.
  induction l as [|a l IH]; [done|].
  rewrite bind_cons, IH. simpl. by destruct (p a).
Qed.

Lemma filter_fmap {A B} (g : B → bool) (f : A → B) (l : list A) :
  List.filter g (f <$> l) = f <$> List.filter (fun a => g (f a)) l.
Proof.
  induction l as [|a l IH]; [done|].
  simpl. destruct (g (f a)); simpl; [f_equal|]; exact IH.
Qed.

Lemma in_bounds_in_grid w h (c : Z * Z) :
  in_bounds w h c.1 c.2 = in_grid w h c.
Proof.
  apply eq_true_iff_eq. unfold in_grid.
  by rewrite in_bounds_true, bool_decide_eq_true.
Qed.

(** The cells the kernel visits are the cells of the 3x3 window that lie
    in the grid, in the same order. *)
Lemma neighbourhood_window width height x y :
  neighbourhood width height x y
  = cell_index width <$> window_cells width height x y.
Proof.
  unfold window_cells. rewrite <- bind_singleton_if.
  unfold neighbourhood, offsets, window.
  cbn [mbind list_bind app].
  rewrite <- !in_bounds_in_grid. unfold cell_index. cbn [fst snd].
  rewrite !Z.add_0_r, !app_nil_r, <- !app_assoc. reflexivity.
Qed.

Lemma ones_around_window mask width height x y :
  ones_around mask width height x y = window_ones mask width height x y.
Proof.
  unfold ones_around, window_ones.
  by rewrite neighbourhood_window, filter_fmap, length_fmap.
Qed.

Lemma window_inside width height x y :
  (0 < x)%nat → (x + 1 < width)%nat → (0 < y)%nat → (y + 1 < height)%nat →
  window_cells width height x y = window x y.
Proof.
  intros Hx0 Hx1 Hy0 Hy1. unfold window_cells, window, in_grid.
  cbn [List.filter fst snd].
  by rewrite !bool_decide_eq_true_2 by lia.
Qed.

(** X12: one pass of the blur is a majority vote over the 3x3 window.
    On a binary mask that fills its grid, [blurMask] with one iteration
    returns, at every cell of the grid, 1 exactly when more than half of
    the cells of the 3x3 window around it that lie in the grid (the cell
    itself included) hold 1; a tie gives 0.  Away from the border all
    nine cells of the window lie in the grid. *)
Theorem X12_blur_pass_is_majority (maskData : list byte)
    (width height : nat) (x y : nat) :
  length maskData = (width * height)%nat →
  Forall is_bit maskData →
  (x < width)%nat → (y < height)%nat →
  (∃ out,
     blurMask maskData width height (F64.of_Z 1) = Some out ∧
     out !! (y * width + x)%nat
     = Some (if (length (window_cells width height x y)
                 <? 2 * window_ones maskData width height x y)%nat
             then Byte.x01 else Byte.x00)) ∧
  ((0 < x)%nat → (x + 1 < width)%nat → (0 < y)%nat → (y + 1 < height)%nat →
   window_cells width height x y = window x y).
Proof.
  intros Hlen Hbits Hx Hy. split; [|apply window_inside].
  destruct (blur_pass_vote maskData width height x y Hlen Hbits Hx Hy)
    as (out & Hout & Hcell).
  exists out. split; [done|].
  by rewrite Hcell, ones_around_window, neighbourhood_window, length_fmap.
Qed.

(** On the 3x2 mask 010 / 110 the corner cell (0, 0) has three 1s among
    the four cells of its window and becomes 1; the corner cell (2, 0)
    has two among four, a tie, and stays 0. *)
Lemma X12_blur_majority_witness :
  let mask := [Byte.x00; Byte.x01; Byte.x00;
               Byte.x01; Byte.x01; Byte.x00] in
  ∃ out,
    blurMask mask 3 2 (F64.of_Z 1) = Some out ∧
    out !! 0%nat = Some Byte.x01 ∧ out !! 2%nat = Some Byte.x00 ∧
    window_cells 3 2 2 0 = [(1, 0); (2, 0); (1, 1); (2, 1)].
Proof.
  intros mask.
  assert (Hbits : Forall is_bit mask).
  { repeat (apply Forall_cons; split; [(by left) || (by right)|]).
    apply Forall_nil_2. }
  destruct (proj1 (X12_blur_pass_is_majority mask 3 2 0 0 eq_refl Hbits
                     ltac:(lia) ltac:(lia))) as (out & Hout & H0).
  destruct (proj1 (X12_blur_pass_is_majority mask 3 2 2 0 eq_refl Hbits
                     ltac:(lia) ltac:(lia))) as (out' & Hout' & H2).
  rewrite Hout in Hout'. injection Hout' as <-.
  exists out. split; [exact Hout|]. split; [exact H0|]. split; [exact H2|].
  reflexivity.
Defined.

Lemma filter_all {A} (l : list A) : List.filter (fun _ => true) l = l.
Proof. induction l as [|a l IH]; simpl; [done|]. by rewrite IH. Qed.

Lemma mean_of_ones (c : Z) :
  1 ≤ c ≤ 9 → F32.round (F64.div (F64.of_Z c) (F64.of_Z c)) = F64.one.
Proof.
  intros Hc. pose proof (small_sum_cases c ltac:(lia)) as H.
  destruct H as [->|[->|[->|[->|[->|[->|[->|[->|[->| ->]]]]]]]]];
    first [lia | by vm_compute].
Qed.

Lemma mean_of_zeros (c : Z) :
  1 ≤ c ≤ 9 → F32.round (F64.div (F64.of_Z 0) (F64.of_Z c)) = F64.zero.
Proof.
  intros Hc. pose proof (small_sum_cases c ltac:(lia)) as H.
  destruct H as [->|[->|[->|[->|[->|[->|[->|[->|[->| ->]]]]]]]]];
    first [lia | by vm_compute].
Qed.

(** A pass on a grid that holds the same bit everywhere changes
    nothing. *)
Lemma blur_pass_uniform (width height : nat) (hot : bool) :
  let v := if hot then F64.one else F64.zero in
  blur_pass width height (replicate (width * height) v)
  = replicate (width * height) v.
Proof.
  intros v. set (data := replicate (width * height) v).
  destruct (blur_pass_spec width height data) as (Hlen & Hcell & _).
  assert (Hd : length data = (width * height)%nat)
    by apply length_replicate.
  apply (list_eq_same_length _ _ (width * height)%nat);
    [done|by rewrite Hlen|].
  intros j a b Hj Ha Hb.
  apply lookup_replicate in Hb as [-> _].
  assert (Hw : (0 < width)%nat) by nia.
  assert (Hxy : j = (j / width * width + j mod width)%nat).
  { rewrite (Nat.div_mod_eq j width) at 1. lia. }
  assert (Hx : (j mod width < width)%nat) by (apply Nat.mod_upper_bound; lia).
  assert (Hy : (j / width < height)%nat).
  { apply Nat.Div0.div_lt_upper_bound. lia. }
  rewrite Hxy, Hcell in Ha by (rewrite ?Hd; lia).
  injection Ha as <-.
  unfold blur_cell. rewrite kernel_neighbourhood.
  pose proof (neighbourhood_length width height (j mod width) (j / width))
    as Hn9.
  pose proof (neighbourhood_self width height _ _ Hx Hy) as Hself.
  change F64.zero with (F64.of_Z 0) at 1.
  rewrite (kernel_counts _ (fun _ => hot)); [|intros i Hi|lia|lia].
  - set (l := neighbourhood width height (j mod width) (j / width)) in *.
    assert (Hn1 : (1 ≤ length l)%nat).
    { destruct l; [by apply elem_of_nil in Hself|simpl; lia]. }
    rewrite !Z.add_0_l. unfold v. destruct hot.
    + rewrite filter_all. apply mean_of_ones. lia.
    + rewrite filter_none by done. apply mean_of_zeros. lia.
  - apply neighbourhood_grid in Hi.
    unfold data. by rewrite lookup_replicate_2.
Qed.

(** X13: the blur leaves a uniform mask as it is.  A mask that fills its
    grid and holds the same bit in every cell is returned unchanged,
    borders included, whatever the number of iterations. *)
Theorem X13_blur_uniform_mask (width height : nat) (b : byte)
    (iterations : spec_float) (out : list byte) :
  is_bit b →
  blurMask (replicate (width * height) b) width height iterations
  = Some out →
  out = replicate (width * height) b.
Proof.
  intros Hb. unfold blurMask.
  destruct (F64.eqb iterations F64.zero); [by intros [= <-]|].
  destruct (trip_count iterations) as [n|]; [|discriminate].
  simpl. intros [= <-].
  set (hot := Byte.eqb b Byte.x01).
  set (v := if hot then F64.one else F64.zero).
  assert (Hfrom : Float32Array_from (replicate (width * height) b)
                  = replicate (width * height) v).
  { unfold Float32Array_from. rewrite fmap_replicate. f_equal.
    unfold v, hot. by destruct Hb as [-> | ->]. }
  rewrite Hfrom.
  assert (Hiter : Nat.iter n (blur_pass width height)
                    (replicate (width * height) v)
                  = replicate (width * height) v).
  { induction n as [|n IH]; [done|]. simpl. rewrite IH.
    apply blur_pass_uniform. }
  rewrite Hiter, fmap_replicate. f_equal.
  unfold v, hot. by destruct Hb as [-> | ->].
Qed.

Lemma X13_blur_uniform_witness :
  blurMask (replicate (2 * 2) Byte.x01) 2 2 (F64.of_Z 3)
  = Some (replicate (2 * 2) Byte.x01).
Proof.
  destruct (blurMask (replicate (2 * 2) Byte.x01) 2 2 (F64.of_Z 3))
    as [out|] eqn:Hb; [|vm_compute in Hb; discriminate Hb].
  f_equal. apply (X13_blur_uniform_mask 2 2 Byte.x01 (F64.of_Z 3) out).
  - by right.
  - exact Hb.
Defined.

(** *** The number of passes *)

Lemma blurMask_passes (maskData : list byte) (width height : nat) (n : Z) :
  0 ≤ n ≤ 3 →
  blurMask maskData width height (F64.of_Z n)
  = Some (if n =? 0 then maskData
          else binarize <$> Nat.iter (Z.to_nat n) (blur_pass width height)
                              (Float32Array_from maskData)).
Proof.
  intros Hn. unfold blurMask.
  assert (H : n = 0 ∨ n = 1 ∨ n = 2 ∨ n = 3) by lia.
  destruct H as [->|[->|[->| ->]]]; done.
Qed.

Lemma floor_third (k : Z) :
  0 ≤ k ≤ 10 →
  F64.floor (F64.div (F64.of_Z k) (F64.of_Z 3)) = F64.of_Z (k / 3).
Proof.
  intros Hk.
  assert (H : k = 0 ∨ k = 1 ∨ k = 2 ∨ k = 3 ∨ k = 4 ∨ k = 5 ∨ k = 6 ∨ k = 7
              ∨ k = 8 ∨ k = 9 ∨ k = 10) by lia.
  destruct H as [->|[->|[->|[->|[->|[->|[->|[->|[->|[->| ->]]]]]]]]]];
    by vm_compute.
Qed.

(** X14: the smoothing setting decides the number of blur passes.  For
    an integer smoothing setting [k] from 0 to 10, the mask pipeline of
    [drawSegmentation] is the temporal smoothing followed by exactly
    [k / 3] (rounded down) passes of the blur and the threshold; below 3
    the output of the temporal smoothing is used as it is. *)
Theorem X14_process_blur_passes (r : Renderer) (mask : list byte)
    (width height : nat) (k : Z) :
  0 ≤ k ≤ 10 →
  smoothing (settings r) = F64.of_Z k →
  process r mask width height
  = ((smoothMask r mask width height).1,
     Some (if k <? 3 then (smoothMask r mask width height).2
           else binarize <$>
                  Nat.iter (Z.to_nat (k / 3)) (blur_pass width height)
                    (Float32Array_from (smoothMask r mask width height).2))).
Proof.
  intros Hk Hs. unfold process.
  pose proof (smoothMask_frame r mask width height) as (Hs' & _).
  destruct (smoothMask r mask width height) as [r' m'].
  cbn [fst snd] in *.
  rewrite Hs', Hs, (floor_third k Hk).
  assert (Hq : 0 ≤ k / 3 ≤ 3).
  { split; [apply Z.div_pos; lia|].
    apply Z.lt_succ_r, Z.div_lt_upper_bound; lia. }
  rewrite blurMask_passes by done.
  do 2 f_equal.
  destruct (Z.ltb_spec k 3), (Z.eqb_spec (k / 3) 0); try done.
  - rewrite Z.div_small in n by lia. done.
  - apply Z.div_small_iff in e; lia.
Qed.

Lemma X14_process_blur_passes_witness :
  let r := updateSettings (new_Renderer 2 2)
             (numeric_patch None (Some (F64.of_Z 7))) in
  let mask := [Byte.x01; Byte.x00; Byte.x00; Byte.x00] in
  process r mask 2 2
  = ((smoothMask r mask 2 2).1,
     Some (if 7 <? 3 then (smoothMask r mask 2 2).2
           else binarize <$>
                  Nat.iter (Z.to_nat (7 / 3)) (blur_pass 2 2)
                    (Float32Array_from (smoothMask r mask 2 2).2))).
Proof.
  intros r mask. apply (X14_process_blur_passes r mask 2 2 7).
  - lia.
  - reflexivity.
Defined.

(** ** smoothMask *)

(** X15: [smoothMask] keeps the sizes in step.  After any call the
    history buffer exists and has the length of the mask just given, the
    mask returned has that length too, and the settings and the canvas
    are untouched; the mask returned is the one given (a reset) or holds
    only 0 and 1 (a blend). *)
Theorem X15_smoothMask_sizes (r : Renderer) (currentMask : list byte)
    (width height : nat) :
  let r' := (smoothMask r currentMask width height).1 in
  let out := (smoothMask r currentMask width height).2 in
  (∃ prev', prevMask r' = Some prev' ∧
            length prev' = length currentMask) ∧
  length out = length currentMask ∧
  (out = currentMask ∨ Forall is_bit out) ∧
  settings r' = settings r ∧
  canvas_width r' = canvas_width r ∧ canvas_height r' = canvas_height r.
Proof.
  cbv zeta.
  pose proof (smoothMask_frame r currentMask width height) as (Hs & Hw & Hh).
  split; [|split; [|split; [|done]]].
  - unfold smoothMask.
    destruct (F64.eqb _ _);
      [eexists; split; [done|]; unfold Float32Array_from;
       by rewrite length_fmap|].
    destruct (prevMask r) as [prev|] eqn:Hprev;
      [|eexists; split; [done|]; unfold Float32Array_from;
        by rewrite length_fmap].
    case_bool_decide as Hlen;
      [eexists; split; [done|]; unfold Float32Array_from;
       by rewrite length_fmap|].
    rewrite smooth_loop by (by destruct (decide (length prev
                                                 = length currentMask))).
    eexists; split; [done|]. rewrite length_zip_with.
    destruct (decide (length prev = length currentMask)); [lia|done].
  - unfold smoothMask.
    destruct (F64.eqb _ _); [done|].
    destruct (prevMask r) as [prev|] eqn:Hprev; [|done].
    case_bool_decide as Hlen; [done|].
    assert (Hl : length prev = length currentMask)
      by (by destruct (decide (length prev = length currentMask))).
    rewrite smooth_loop by done. simpl. rewrite length_zip_with. lia.
  - unfold smoothMask.
    destruct (F64.eqb _ _); [by left|].
    destruct (prevMask r) as [prev|] eqn:Hprev; [|by left].
    case_bool_decide as Hlen; [by left|].
    assert (Hl : length prev = length currentMask)
      by (by destruct (decide (length prev = length currentMask))).
    rewrite smooth_loop by done. simpl. right.
    apply Forall_forall. intros b Hb.
    apply list_elem_of_lookup in Hb as [i Hb].
    apply lookup_zip_with_Some in Hb as (p & c & -> & _ & _).
    apply binarize_bit.
Qed.

(** ** Presets *)

(** Every row of the preset table lists the same five keys. *)
Lemma presets_rows key p :
  presets !! key = Some p →
  ∃ fill outline opacity thickness viz,
    p = preset fill outline opacity thickness viz.
Proof.
  intros Hp.
  assert (Hk : key ∈ preset_keys).
  { destruct (decide (key ∈ preset_keys)) as [|Hn]; [done|].
    apply presets_lookup_None in Hn. by rewrite Hn in Hp. }
  unfold preset_keys in Hk.
  repeat (apply elem_of_cons in Hk as [->|Hk];
          [vm_compute in Hp; injection Hp as <-; by eauto 6|]).
  by apply elem_of_nil in Hk.
Qed.

(** X16: a preset overrides the one applied before it completely.
    Applying a preset of the table after any other call of [applyPreset]
    gives the same renderer and the same result as applying it alone, so
    no value of the earlier preset survives and applying a preset twice
    is the same as once. *)
Theorem X16_presets_override (r : Renderer) (first second : string) :
  second ∈ preset_keys →
  applyPreset (applyPreset r first).1 second = applyPreset r second.
Proof.
  intros Hk.
  destruct (presets !! second) as [p2|] eqn:H2;
    [|by apply presets_lookup_None in H2].
  destruct (presets_rows _ _ H2) as (f2 & o2 & a2 & t2 & v2 & ->).
  rewrite !(applyPreset_own _ second _ H2).
  destruct (presets !! first) as [p1|] eqn:H1.
  - destruct (presets_rows _ _ H1) as (f1 & o1 & a1 & t1 & v1 & ->).
    by rewrite (applyPreset_own _ first _ H1).
  - by rewrite (applyPreset_not_own _ _ H1).
Qed.

Lemma X16_presets_override_witness :
  applyPreset (applyPreset (new_Renderer 4 4) "R").1 "E"
  = applyPreset (new_Renderer 4 4) "E".
Proof.
  apply (X16_presets_override (new_Renderer 4 4) "R" "E").
  unfold preset_keys. apply elem_of_cons. by left.
Defined.

(** ** The pixel loop in overlay mode *)

(** X17: without background replacement a pixel outside the mask is the
    video's.  With bgReplace off, every pixel whose mask cell is not 1,
    and every pixel when vizMode is neither 'fill' nor 'both', holds the
    bytes of the video pixel read for it (0 where the read is out of the
    frame); and no outline is drawn unless vizMode is 'outline' or
    'both'. *)
Theorem X17_overlay_keeps_video (r : Renderer) (videoData : list byte)
    (segmentation : option (list byte * nat * nat))
    (r' : Renderer) (image : list byte) (outline : list FillRect) :
  drawSegmentation r videoData segmentation = (r', Drew image outline) →
  bgReplace (settings r) = false →
  ∃ data width height maskData,
    segmentation = Some (data, width, height) ∧
    process r data width height = (r', Some maskData) ∧
    (outlines (settings r) = false → outline = []) ∧
    ∀ y x, (y < canvas_height r)%nat → (x < canvas_width r)%nat →
      let i := mask_cell_of width (canvas_scaleX r width)
                 (canvas_scaleY r height) y x in
      let o := pixel_offset (canvas_width r) y x in
      get maskData i ≠ Some Byte.x01 ∨ fills (settings r) = false →
      image !! o = Some (default Byte.x00 (source_channel videoData i 0)) ∧
      image !! (o + 1)%nat
      = Some (default Byte.x00 (source_channel videoData i 1)) ∧
      image !! (o + 2)%nat
      = Some (default Byte.x00 (source_channel videoData i 2)).
Proof.
  intros H Hbg.
  pose proof (drawSegmentation_Drew _ _ _ _ _ _ H)
    as (data0 & w0 & h0 & m0 & E0 & Hp0 & _ & _ & _ & _ & _ & Hout).
  apply drawn_image_lookup
    in H as (data & width & height & maskData & -> & Hp & _ & Hpix).
  injection E0 as <- <- <-. rewrite Hp in Hp0. injection Hp0 as <-.
  exists data, width, height, maskData. split; [done|]. split; [done|].
  split; [intros Ho; by rewrite Ho in Hout|].
  intros y x Hy Hx i o Hcase.
  pose proof (Hpix y x 0%nat Hy Hx ltac:(lia)) as H0.
  pose proof (Hpix y x 1%nat Hy Hx ltac:(lia)) as H1.
  pose proof (Hpix y x 2%nat Hy Hx ltac:(lia)) as H2.
  rewrite Nat.add_0_r in H0. fold o in H0, H1, H2.
  unfold pixel_byte, channel in H0, H1, H2. fold i in H0, H1, H2.
  rewrite Hbg in H0, H1, H2.
  destruct (hexToRGB (fillColor (settings r))) as [[fillR fillG] fillB].
  destruct (hexToRGB (bgColor (settings r))) as [[bgR bgG] bgB].
  assert (Hoff : cell_is (get maskData i) Byte.x01 && fills (settings r)
                 = false).
  { destruct Hcase as [Hseg|Hf]; [|by rewrite Hf, andb_false_r].
    apply andb_false_iff. left. apply not_true_is_false.
    by rewrite cell_is_true. }
  rewrite Hoff, ToUint8Clamp_read in H0, H1, H2.
  by rewrite source_channel_0 in H0.
Qed.

Lemma X17_overlay_keeps_video_witness :
  let r := updateSettings (new_Renderer 2 1)
             {| p_vizMode := Some "fill"; p_colorMode := None;
                p_fillColor := Some "#00ff00"; p_outlineColor := None;
                p_bgColor := None; p_fillOpacity := None;
                p_outlineThickness := None; p_showLabels := None;
                p_segmentationMode := None; p_bgReplace := Some false;
                p_smoothing := None |} in
  let videoData := [Byte.x0a; Byte.x14; Byte.x1e; Byte.xff;
                    Byte.x28; Byte.x32; Byte.x3c; Byte.xff] in
  ∃ r' image outline,
    drawSegmentation r videoData (Some ([Byte.x01; Byte.x00], 2%nat, 1%nat))
    = (r', Drew image outline) ∧
    outline = [] ∧ image !! 4%nat = Some Byte.x28.
Proof.
  intros r videoData.
  destruct (drawSegmentation r videoData
              (Some ([Byte.x01; Byte.x00], 2%nat, 1%nat)))
    as [r' drawn] eqn:Hd.
  assert (∃ image outline, drawn = Drew image outline)
    as (image & outline & ->).
  { vm_compute in Hd. injection Hd as <- <-. by eexists _, _. }
  exists r', image, outline. split; [done|].
  destruct (X17_overlay_keeps_video r videoData _ _ _ _ Hd eq_refl)
    as (data & width & height & maskData & Hseg & Hp & Hout & Hpix).
  injection Hseg as <- <- <-.
  vm_compute in Hp. injection Hp as <- <-.
  split; [by apply Hout|].
  destruct (Hpix 0%nat 1%nat ltac:(vm_compute; lia) ltac:(vm_compute; lia)
              ltac:(left; by vm_compute)) as (H0 & _).
  exact H0.
Defined.

(** *** Opacity 0 and 1 *)

Lemma Z_of_byte_of_Z (n : Z) : 0 ≤ n ≤ 255 → Z_of_byte (byte_of_Z n) = n.
Proof.
  intros Hn. unfold Z_of_byte, byte_of_Z.
  destruct (Byte.of_N (Z.to_N n)) as [b|] eqn:E.
  - apply Byte.to_of_N in E. rewrite E. lia.
  - apply Byte.of_N_None_iff in E. lia.
Qed.

Lemma hex_digit_range a x : hex_digit a = Some x → 0 ≤ x ≤ 15.
Proof. unfold hex_digit. repeat case_match; intros [= <-]; lia. Qed.

(** The number [parseInt] gives for two digits is the number of the
    byte they write. *)
Lemma parseInt16_byte a b v :
  hex_pair a b = Some v →
  parseInt16 (String a (String b "")) = F64.of_Z (Z_of_byte v).
Proof.
  unfold hex_pair.
  destruct (hex_digit a) as [x|] eqn:Ha; [|discriminate].
  destruct (hex_digit b) as [y|] eqn:Hb; [|discriminate].
  intros [= <-]. rewrite (parseInt16_pair _ _ _ _ Ha Hb).
  apply hex_digit_range in Ha, Hb. by rewrite Z_of_byte_of_Z by lia.
Qed.

Lemma hexToRGB_numbers hex R G B :
  rgb_of_color hex = Some (R, G, B) →
  hexToRGB hex = (F64.of_Z (Z_of_byte R), F64.of_Z (Z_of_byte G),
                  F64.of_Z (Z_of_byte B)).
Proof.
  unfold rgb_of_color. intros H.
  repeat match type of H with
         | match ?x with _ => _ end = _ => destruct x; try discriminate H
         end.
  apply bind_Some in H as (R' & HR & H).
  apply bind_Some in H as (G' & HG & H).
  apply bind_Some in H as (B' & HB & H).
  injection H as <- <- <-.
  unfold hexToRGB, slice. cbn [fst snd String.substring Nat.sub].
  by rewrite (parseInt16_byte _ _ _ HR), (parseInt16_byte _ _ _ HG),
    (parseInt16_byte _ _ _ HB).
Qed.

Lemma byte_mul_one (b : byte) :
  F64.mul (F64.of_Z (Z_of_byte b)) F64.one = F64.of_Z (Z_of_byte b).
Proof. destruct b; by vm_compute. Qed.

Lemma byte_mul_zero (b : byte) :
  F64.mul (F64.of_Z (Z_of_byte b)) F64.zero = F64.zero.
Proof. destruct b; by vm_compute. Qed.

Lemma byte_add_zero_r (b : byte) :
  F64.add (F64.of_Z (Z_of_byte b)) F64.zero = F64.of_Z (Z_of_byte b).
Proof. destruct b; by vm_compute. Qed.

Lemma byte_add_zero_l (b : byte) :
  F64.add F64.zero (F64.of_Z (Z_of_byte b)) = F64.of_Z (Z_of_byte b).
Proof. destruct b; by vm_compute. Qed.

(** At opacity 0 the blend is the video channel (NaN for a read outside
    the frame), at opacity 1 the fill channel. *)
Lemma blend_channel_zero (vid : option byte) (fill : byte) :
  ToUint8Clamp (blend_channel (num_of_u8 vid) (F64.of_Z (Z_of_byte fill))
                  F64.zero)
  = default Byte.x00 vid.
Proof.
  unfold blend_channel.
  change (F64.sub F64.one F64.zero) with F64.one.
  rewrite byte_mul_zero. destruct vid as [v|]; simpl.
  - rewrite byte_mul_one, byte_add_zero_r. apply (ToUint8Clamp_byte v).
  - done.
Qed.

Lemma blend_channel_one (vid fill : byte) :
  ToUint8Clamp (blend_channel (F64.of_Z (Z_of_byte vid))
                  (F64.of_Z (Z_of_byte fill)) F64.one)
  = fill.
Proof.
  unfold blend_channel.
  change (F64.sub F64.one F64.one) with F64.zero.
  rewrite byte_mul_zero, byte_mul_one, byte_add_zero_l.
  apply (ToUint8Clamp_byte fill).
Qed.

(** X18: the two ends of the opacity scale.  For a fill colour of the
    form #rrggbb and a pixel of the mask in a filling mode ('fill' or
    'both'), with or without background replacement: at fillOpacity 0
    the pixel holds the video's bytes, and at fillOpacity 1 it holds
    exactly the fill colour (when the video pixel is read inside the
    frame). *)
Theorem X18_opacity_extremes (r : Renderer) (videoData : list byte)
    (segmentation : option (list byte * nat * nat))
    (r' : Renderer) (image : list byte) (outline : list FillRect)
    (R G B : byte) :
  drawSegmentation r videoData segmentation = (r', Drew image outline) →
  fills (settings r) = true →
  rgb_of_color (fillColor (settings r)) = Some (R, G, B) →
  ∃ data width height maskData,
    segmentation = Some (data, width, height) ∧
    process r data width height = (r', Some maskData) ∧
    ∀ y x, (y < canvas_height r)%nat → (x < canvas_width r)%nat →
      let i := mask_cell_of width (canvas_scaleX r width)
                 (canvas_scaleY r height) y x in
      let o := pixel_offset (canvas_width r) y x in
      get maskData i = Some Byte.x01 →
      (fillOpacity (settings r) = F64.zero →
       image !! o = Some (default Byte.x00 (source_channel videoData i 0)) ∧
       image !! (o + 1)%nat
       = Some (default Byte.x00 (source_channel videoData i 1)) ∧
       image !! (o + 2)%nat
       = Some (default Byte.x00 (source_channel videoData i 2))) ∧
      (fillOpacity (settings r) = F64.one →
       is_Some (source_channel videoData i 0) →
       is_Some (source_channel videoData i 1) →
       is_Some (source_channel videoData i 2) →
       image !! o = Some R ∧ image !! (o + 1)%nat = Some G ∧
       image !! (o + 2)%nat = Some B).
Proof.
  intros H Hfill Hcol.
  apply drawn_image_lookup
    in H as (data & width & height & maskData & -> & Hp & _ & Hpix).
  exists data, width, height, maskData. split; [done|]. split; [done|].
  intros y x Hy Hx i o Hseg.
  pose proof (Hpix y x 0%nat Hy Hx ltac:(lia)) as H0.
  pose proof (Hpix y x 1%nat Hy Hx ltac:(lia)) as H1.
  pose proof (Hpix y x 2%nat Hy Hx ltac:(lia)) as H2.
  rewrite Nat.add_0_r in H0. fold o in H0, H1, H2.
  unfold pixel_byte, channel in H0, H1, H2. fold i in H0, H1, H2.
  rewrite (hexToRGB_numbers _ _ _ _ Hcol) in H0, H1, H2.
  destruct (hexToRGB (bgColor (settings r))) as [[bgR bgG] bgB].
  apply cell_is_true in Hseg. rewrite Hseg, Hfill in H0, H1, H2.
  rewrite source_channel_0 in H0.
  assert (H0' : image !! o
                = Some (ToUint8Clamp
                          (blend_channel
                             (num_of_u8 (source_channel videoData i 0))
                             (F64.of_Z (Z_of_byte R))
                             (fillOpacity (settings r)))))
    by (by destruct (bgReplace (settings r))).
  assert (H1' : image !! (o + 1)%nat
                = Some (ToUint8Clamp
                          (blend_channel
                             (num_of_u8 (source_channel videoData i 1))
                             (F64.of_Z (Z_of_byte G))
                             (fillOpacity (settings r)))))
    by (by destruct (bgReplace (settings r))).
  assert (H2' : image !! (o + 2)%nat
                = Some (ToUint8Clamp
                          (blend_channel
                             (num_of_u8 (source_channel videoData i 2))
                             (F64.of_Z (Z_of_byte B))
                             (fillOpacity (settings r)))))
    by (by destruct (bgReplace (settings r))).
  clear H0 H1 H2. split.
  - intros Ho. rewrite Ho in H0', H1', H2'.
    by rewrite blend_channel_zero in H0', H1', H2'.
  - intros Ho [v0 E0] [v1 E1] [v2 E2].
    rewrite Ho, E0 in H0'. rewrite Ho, E1 in H1'. rewrite Ho, E2 in H2'.
    simpl num_of_u8 in H0', H1', H2'.
    by rewrite blend_channel_one in H0', H1', H2'.
Qed.

Lemma X18_opacity_extremes_witness :
  let r := updateSettings (new_Renderer 1 1)
             {| p_vizMode := Some "fill"; p_colorMode := None;
                p_fillColor := Some "#ffa500"; p_outlineColor := None;
                p_bgColor := None; p_fillOpacity := Some F64.one;
                p_outlineThickness := None; p_showLabels := None;
                p_segmentationMode := None; p_bgReplace := None;
                p_smoothing := None |} in
  let videoData := [Byte.x0a; Byte.x14; Byte.x1e; Byte.xff] in
  ∃ r' image outline,
    drawSegmentation r videoData (Some ([Byte.x01], 1%nat, 1%nat))
    = (r', Drew image outline) ∧
    image !! 0%nat = Some Byte.xff ∧ image !! 1%nat = Some Byte.xa5 ∧
    image !! 2%nat = Some Byte.x00.
Proof.
  intros r videoData.
  destruct (drawSegmentation r videoData (Some ([Byte.x01], 1%nat, 1%nat)))
    as [r' drawn] eqn:Hd.
  assert (∃ image outline, drawn = Drew image outline)
    as (image & outline & ->).
  { vm_compute in Hd. injection Hd as <- <-. by eexists _, _. }
  exists r', image, outline. split; [done|].
  destruct (X18_opacity_extremes r videoData _ _ _ _
              Byte.xff Byte.xa5 Byte.x00 Hd eq_refl eq_refl)
    as (data & width & height & maskData & Hseg & Hp & Hpix).
  injection Hseg as <- <- <-.
  vm_compute in Hp. injection Hp as <- <-.
  destruct (Hpix 0%nat 0%nat ltac:(vm_compute; lia) ltac:(vm_compute; lia)
              ltac:(by vm_compute)) as (_ & Hone).
  destruct (Hone eq_refl ltac:(by eexists) ltac:(by eexists)
              ltac:(by eexists)) as (H0 & H1 & H2).
  change (pixel_offset (canvas_width r) 0 0) with 0%nat in H0, H1, H2.
  repeat split; assumption.
Defined.

(** * Rendering a frame *)

Lemma drawSegmentation_frame r videoData segmentation :
  settings (drawSegmentation r videoData segmentation).1 = settings r ∧
  canvas_width (drawSegmentation r videoData segmentation).1
  = canvas_width r ∧
  canvas_height (drawSegmentation r videoData segmentation).1
  = canvas_height r.
Proof.
  unfold drawSegmentation.
  destruct segmentation as [[[data width] height]|]; [|done].
  pose proof (process_frame r data width height) as Hf.
  destruct (process r data width height) as [r1 [maskData|]]; [|done].
  by case_bool_decide.
Qed.

(** [drawSegmentation] leaves the history alone when it skips. *)
Lemma drawSegmentation_skipped r videoData segmentation r' :
  drawSegmentation r videoData segmentation = (r', Skipped) → r' = r.
Proof.
  unfold drawSegmentation.
  destruct segmentation as [[[data width] height]|]; [|by intros [= <-]].
  destruct (process r data width height) as [r1 [maskData|]]; [|done].
  by case_bool_decide.
Qed.

Section RenderFacts.
Variable text_width : Label → spec_float.

Lemma draw_label_counts className confidence x y :
  let calls := draw_label text_width className confidence x y in
  length (List.filter is_stroke calls) = 0%nat ∧
  length (List.filter is_text calls) = 1%nat.
Proof. done. Qed.

Lemma drawDetection_counts r detection :
  let calls := drawDetection text_width r detection in
  length (List.filter is_stroke calls)
  = (if outlines (settings r) then 1 else 0)%nat ∧
  length (List.filter is_text calls)
  = (if showLabels (settings r) then 1 else 0)%nat.
Proof.
  unfold drawDetection.
  by destruct (fills (settings r)), (outlines (settings r)),
    (showLabels (settings r)).
Qed.

Lemma draw_detection_or_label_counts r segmentation detection :
  let calls := draw_detection_or_label text_width r segmentation detection in
  length (List.filter is_stroke calls)
  = (if outlines (settings r) && boxed r segmentation detection
     then 1 else 0)%nat ∧
  length (List.filter is_text calls)
  = (if showLabels (settings r) then 1 else 0)%nat.
Proof.
  unfold draw_detection_or_label, boxed.
  destruct (drawDetection_counts r detection) as [Hs Ht].
  destruct (negb (bool_decide (is_Some segmentation))
            || negb (segmentationMode (settings r))
            || negb (String.eqb (det_class detection) "person")) eqn:Hb.
  - rewrite andb_true_r. done.
  - rewrite andb_false_r.
    apply orb_false_iff in Hb as [_ Hp]. apply negb_false_iff in Hp.
    rewrite Hp, andb_true_r.
    by destruct (showLabels (settings r)).
Qed.

Lemma boxes_counts r segmentation (detections : list Detection) :
  let calls :=
    detections ≫= draw_detection_or_label text_width r segmentation in
  length (List.filter is_stroke calls)
  = (if outlines (settings r)
     then length (List.filter (boxed r segmentation) detections)
     else 0)%nat ∧
  length (List.filter is_text calls)
  = (if showLabels (settings r) then length detections else 0)%nat.
Proof.
  induction detections as [|d l [IHs IHt]]; cbv zeta in *.
  { by destruct (outlines (settings r)), (showLabels (settings r)). }
  rewrite bind_cons, !List.filter_app, !length_app, IHs, IHt.
  destruct (draw_detection_or_label_counts r segmentation d) as [-> ->].
  simpl.
  by destruct (outlines (settings r)), (boxed r segmentation d),
    (showLabels (settings r)).
Qed.

(** X19: [render] sizes the canvas to the video and touches nothing
    else without need.  After any call the canvas has the video's width
    and height and the settings are as before; without a segmentation,
    or outside segmentation mode, the smoothing history is untouched,
    the call returns and its first call on the context is the plain
    [drawImage] of the frame. *)
Theorem X19_render_frame (r : Renderer) (video : Video)
    (detections : list Detection) (segmentation : option Segmentation) :
  let '(r', calls, e) := render text_width r video detections segmentation in
  canvas_width r' = videoWidth video ∧
  canvas_height r' = videoHeight video ∧
  settings r' = settings r ∧
  (segmentation = None ∨ segmentationMode (settings r) = false →
   prevMask r' = prevMask r ∧ e = Returns ∧ head calls = Some DrawImage).
Proof.
  unfold render.
  set (r1 := if bool_decide _ then _ else r).
  assert (H1 : canvas_width r1 = videoWidth video ∧
               canvas_height r1 = videoHeight video ∧
               settings r1 = settings r ∧ prevMask r1 = prevMask r).
  { unfold r1. case_bool_decide as Hd; [done|].
    repeat split; try done.
    - destruct (decide (canvas_width r = videoWidth video)); [done|].
      exfalso. apply Hd. by left.
    - destruct (decide (canvas_height r = videoHeight video)); [done|].
      exfalso. apply Hd. by right. }
  destruct H1 as (Hw & Hh & Hs & Hp).
  destruct segmentation as [seg|].
  - destruct (segmentationMode (settings r1)) eqn:Hm.
    + pose proof (drawSegmentation_frame r1
                    (frame_at video (seg_width seg) (seg_height seg))
                    (mask_of seg)) as (Hs' & Hw' & Hh').
      destruct (drawSegmentation r1 _ (mask_of seg)) as [r2 o].
      simpl in Hs', Hw', Hh'.
      assert (Hno : segmentationMode (settings r) = true)
        by (by rewrite <- Hs).
      destruct o; (split; [congruence|split; [congruence|split;
                                  [congruence|]]]);
        (intros [Hn|Hn]; [discriminate Hn|congruence]).
    + by repeat split.
  - by repeat split.
Qed.

(** X20: every detection gets its label, and a box unless it is a
    segmented person.  When [render] returns, the boxes it strokes are
    those of the detections that are not persons, or of all detections
    when there is no segmentation or segmentation mode is off (and none
    at all unless vizMode is 'outline' or 'both'); the labels it writes
    are one per detection when showLabels is on and none otherwise.
    When it does not return, nothing was drawn on the canvas. *)
Theorem X20_render_boxes_and_labels (r : Renderer) (video : Video)
    (detections : list Detection) (segmentation : option Segmentation) :
  let '(r', calls, e) := render text_width r video detections segmentation in
  (e = Returns →
   length (List.filter is_stroke calls)
   = (if outlines (settings r)
      then length (List.filter (boxed r segmentation) detections)
      else 0)%nat ∧
   length (List.filter is_text calls)
   = (if showLabels (settings r) then length detections else 0)%nat) ∧
  (e ≠ Returns → calls = []).
Proof.
  unfold render in *.
  set (r1 := if bool_decide _ then _ else r) in *.
  assert (Hs : settings r1 = settings r).
  { unfold r1. by case_bool_decide. }
  assert (Hb : ∀ r2, settings r2 = settings r →
                     boxed r2 segmentation = boxed r segmentation).
  { intros r2 E. unfold boxed. by rewrite E. }
  destruct segmentation as [seg|].
  - destruct (segmentationMode (settings r1)) eqn:Hm.
    + pose proof (drawSegmentation_frame r1
                    (frame_at video (seg_width seg) (seg_height seg))
                    (mask_of seg)) as (Hs' & _).
      destruct (drawSegmentation r1 _ (mask_of seg)) as [r2 o].
      simpl in Hs'. rewrite Hs in Hs'.
      pose proof (boxes_counts r2 (Some seg) detections) as Hc.
      cbv zeta in Hc. rewrite Hs', (Hb r2 Hs') in Hc.
      destruct o; (split; [intros He; try discriminate He|
                           intros He; try done]); done.
    + pose proof (boxes_counts r1 (Some seg) detections) as Hc.
      cbv zeta in Hc. rewrite Hs, (Hb r1 Hs) in Hc.
      split; [intros _; exact Hc|done].
  - pose proof (boxes_counts r1 None detections) as Hc.
    cbv zeta in Hc. rewrite Hs, (Hb r1 Hs) in Hc.
    split; [intros _; exact Hc|done].
Qed.
End RenderFacts.

(** ** load *)

Section LoadFacts.
Context {Source People : Type}.
Implicit Types (d : Detector Source People) (source : Source).

(** X21: [load] makes the detector ready only when both models load.
    The call resolves (to true) exactly when both loads resolve, and
    only then does it set [isReady], with both models stored; when
    COCO-SSD fails nothing changes, and when BodyPix fails the COCO-SSD
    model that was loaded is kept (it replaces the one held before) but
    the detector is not made ready and the BodyPix model held before
    stays.  A new detector whose [load] failed therefore detects nothing.
    [onProgress] is told of the BodyPix load only after COCO-SSD has
    loaded. *)
Theorem X21_load_ready_with_both d (onProgress : bool)
    (coco : awaited (CocoModel Source))
    (bodyPix : awaited (BodyPixModel Source People)) :
  let '(d', said, result) := load d onProgress coco bodyPix in
  (result = Fulfilled true ↔
   ∃ c b, coco = Fulfilled c ∧ bodyPix = Fulfilled b) ∧
  (result = Fulfilled true →
   isReady d' = true ∧ is_Some (cocoModel d') ∧ is_Some (bodyPixModel d')) ∧
  (∀ c b, coco = Fulfilled c → bodyPix = Fulfilled b →
   cocoModel d' = Some c ∧ bodyPixModel d' = Some b ∧ isReady d' = true) ∧
  (result ≠ Fulfilled true →
   result = Rejected ∧ isReady d' = isReady d ∧
   bodyPixModel d' = bodyPixModel d ∧
   (coco = Rejected → d' = d)) ∧
  (∀ c, coco = Fulfilled c → bodyPix = Rejected →
   cocoModel d' = Some c ∧ bodyPixModel d' = bodyPixModel d ∧
   isReady d' = isReady d) ∧
  ("Loading BodyPix model..." ∈ said → ∃ c, coco = Fulfilled c) ∧
  confidence d' = confidence d ∧ personOnly d' = personOnly d ∧
  mode d' = mode d ∧
  (d = new_Detector → result ≠ Fulfilled true →
   ∀ source, detect d' source = ([], None)).
Proof.
  unfold load. destruct coco as [c|], bodyPix as [b|]; simpl;
    repeat split; try done; eauto; try congruence;
    try (by intros (? & ? & ? & ?));
    try (by intros ->);
    destruct onProgress; simpl; intros Hsaid;
      (by apply list_elem_of_singleton in Hsaid)
      || (by apply elem_of_nil in Hsaid).
Qed.
End LoadFacts.

(** * The overlay renderer *)

Lemma stamp_length i p image : length (stamp i p image) = length image.
Proof.
  unfold stamp. destruct p as [[[[r g] b] a]|]; [|done].
  by rewrite !length_insert.
Qed.

(** A stamp writes the four bytes of its own cell only. *)
Lemma stamp_other i p image j :
  (j < i * 4 ∨ i * 4 + 4 ≤ j)%nat → stamp i p image !! j = image !! j.
Proof.
  intros Hj. unfold stamp. destruct p as [[[[r g] b] a]|]; [|done].
  by rewrite !list_lookup_insert_ne by lia.
Qed.

Lemma stamp_own i p image c :
  (c < 4)%nat → (i * 4 + c < length image)%nat →
  stamp i p image !! (i * 4 + c)%nat
  = match p with
    | Some px => Some (component px c)
    | None => image !! (i * 4 + c)%nat
    end.
Proof.
  intros Hc Hl. unfold stamp. destruct p as [[[[r g] b] a]|]; [|done].
  destruct c as [|[|[|[|c]]]]; [rewrite Nat.add_0_r in *| | | |lia]; simpl;
    repeat first
      [ rewrite list_lookup_insert_ne by lia
      | rewrite list_lookup_insert_eq by (rewrite ?length_insert; lia) ];
    done.
Qed.

(** A loop of stamps over the cells [base], [base + 1], ... *)
Lemma stamp_row (px : nat → option pixel) (base k : nat)
    (init : list byte) :
  let out := foldl (fun acc x => stamp (base + x) (px x) acc) init (seq 0 k) in
  length out = length init ∧
  (∀ x c, (x < k)%nat → (c < 4)%nat →
          ((base + x) * 4 + c < length init)%nat →
          out !! ((base + x) * 4 + c)%nat
          = match px x with
            | Some p => Some (component p c)
            | None => init !! ((base + x) * 4 + c)%nat
            end) ∧
  (∀ j, (j < base * 4 ∨ (base + k) * 4 ≤ j)%nat → out !! j = init !! j).
Proof.
  induction k as [|k IH]; cbv zeta in *.
  - simpl. split; [done|]. split; [intros; lia|done].
  - destruct IH as (IHlen & IHown & IHother).
    rewrite seq_S, foldl_app. simpl.
    set (mid := foldl (fun acc x => stamp (base + x) (px x) acc) init
                      (seq 0 k)) in *.
    split; [by rewrite stamp_length|]. split.
    + intros x c Hx Hc Hl. destruct (decide (x = k)) as [->|Hne].
      * rewrite stamp_own by (rewrite ?IHlen; lia).
        destruct (px k); [done|]. apply IHother. lia.
      * rewrite stamp_other by lia. apply IHown; lia.
    + intros j Hj. rewrite stamp_other by lia. apply IHother. lia.
Qed.

(** Two loops of stamps over a grid. *)
Lemma stamp_grid (px : nat → nat → option pixel) (w h : nat)
    (init : list byte) :
  let out := foldl (fun acc y =>
                      foldl (fun acc x => stamp (y * w + x) (px y x) acc)
                            acc (seq 0 w))
                   init (seq 0 h) in
  length out = length init ∧
  (∀ y x c, (y < h)%nat → (x < w)%nat → (c < 4)%nat →
            ((y * w + x) * 4 + c < length init)%nat →
            out !! ((y * w + x) * 4 + c)%nat
            = match px y x with
              | Some p => Some (component p c)
              | None => init !! ((y * w + x) * 4 + c)%nat
              end) ∧
  (∀ j, (h * w * 4 ≤ j)%nat → out !! j = init !! j).
Proof.
  induction h as [|h IH]; cbv zeta in *.
  - simpl. split; [done|]. split; [intros; lia|done].
  - destruct IH as (IHlen & IHown & IHother).
    rewrite seq_S, foldl_app. simpl.
    match goal with
    | |- context [foldl _ (foldl ?g init (seq 0 h)) (seq 0 w)] =>
        set (mid := foldl g init (seq 0 h)) in *
    end.
    destruct (stamp_row (px h) (h * w) w mid) as (Hlen & Hown & Hother).
    split; [by rewrite Hlen|]. split.
    + intros y x c Hy Hx Hc Hl. destruct (decide (y = h)) as [->|Hne].
      * rewrite Hown by (rewrite ?IHlen; lia).
        destruct (px h x); [done|]. apply IHother. nia.
      * rewrite Hother by nia. apply IHown; [lia|done..].
    + intros j Hj. rewrite Hother by nia. apply IHother. nia.
Qed.

(** The two loop bodies are stamps. *)
Lemma fill_cell_stamp s data fillRGB alpha maskData i :
  Overlay.fill_cell s data fillRGB alpha maskData i
  = stamp (0 + i)
      (if cell_is (data !! i) Byte.x01 && Overlay.fills s
       then Some (stored fillRGB alpha) else None) maskData.
Proof.
  unfold Overlay.fill_cell, stamp, stored, put.
  destruct fillRGB as [[fillR fillG] fillB]. simpl.
  by destruct (cell_is (data !! i) Byte.x01), (Overlay.fills s).
Qed.

Lemma outline_cell_stamp data width height outlineRGB maskData y x :
  Overlay.outline_cell data width height outlineRGB maskData y x
  = stamp (y * width + x)
      (if edge_cell data width height x y
       then Some (stored outlineRGB (F64.of_Z 255)) else None) maskData.
Proof.
  unfold Overlay.outline_cell, edge_cell, stamp, stored, put.
  destruct outlineRGB as [[outlineR outlineG] outlineB].
  by destruct (cell_is (data !! (y * width + x)%nat) Byte.x01),
    (isEdge data width height x y).
Qed.

Lemma on_edge_true data w h x y :
  on_edge data w h x y = true ↔
  data !! (y * w + x)%nat = Some Byte.x01 ∧
  ∃ dx dy : Z, -1 ≤ dx ≤ 1 ∧ -1 ≤ dy ≤ 1 ∧ (dx, dy) ≠ (0, 0) ∧
    0 ≤ Z.of_nat x + dx < Z.of_nat w ∧ 0 ≤ Z.of_nat y + dy < Z.of_nat h ∧
    data !! Z.to_nat ((Z.of_nat y + dy) * Z.of_nat w + (Z.of_nat x + dx))
    = Some Byte.x00.
Proof.
  unfold on_edge. rewrite andb_true_iff, cell_is_true, existsb_exists.
  split.
  - intros [H1 ([dx dy] & Hin & H)]. split; [done|].
    apply andb_true_iff in H as [[Hx Hy]%bool_decide_eq_true
                                 H0%cell_is_true].
    exists dx, dy. unfold neighbour_offsets in Hin. simpl in Hin.
    repeat (destruct Hin as [[= <- <-]|Hin];
            [repeat split; (lia || done || discriminate)|]).
    destruct Hin.
  - intros [H1 (dx & dy & Hdx & Hdy & Hne & Hx & Hy & H0)]. split; [done|].
    exists (dx, dy). split.
    + assert (Hc : (dx = -1 ∨ dx = 0 ∨ dx = 1) ∧ (dy = -1 ∨ dy = 0 ∨ dy = 1))
        by lia.
      unfold neighbour_offsets. simpl.
      destruct Hc as [[-> | [-> | ->]] [-> | [-> | ->]]]; tauto.
    + apply andb_true_iff. by rewrite bool_decide_eq_true, cell_is_true.
Qed.

Lemma edge_cell_on_edge data w h x y :
  edge_cell data w h x y = on_edge data w h x y.
Proof.
  apply eq_true_iff_eq. by rewrite edge_cell_true, on_edge_true.
Qed.

(** X23: the overlay image, pixel by pixel.  The overlay's
    [drawSegmentation] skips exactly when the segmentation has no data,
    throws exactly when it has data on a grid of zero width or height,
    and draws otherwise.  The image it draws has four bytes per cell of
    the mask grid, and the pixel of every cell is the outline colour at
    alpha 255 on an edge cell (a cell that holds 1 with one of its eight
    neighbours in the grid holding 0; in the modes 'outline' and 'both'),
    else the fill colour at alpha round(fillOpacity * 255) on a cell of
    the mask (in the modes 'fill' and 'both'), else transparent black. *)
Theorem X23_overlay_image (s : Overlay.Settings) (seg : Segmentation) :
  Overlay.drawSegmentation s None = Overlay.Skipped ∧
  (Overlay.drawSegmentation s (Some seg) = Overlay.Skipped ↔
   seg_data seg = None) ∧
  (Overlay.drawSegmentation s (Some seg) = Overlay.Throws ↔
   is_Some (seg_data seg) ∧ (seg_width seg = 0 ∨ seg_height seg = 0)%nat) ∧
  (∀ data, seg_data seg = Some data →
     seg_width seg ≠ 0%nat → seg_height seg ≠ 0%nat →
     ∃ image,
       Overlay.drawSegmentation s (Some seg) = Overlay.Drew image ∧
       length image = (seg_width seg * seg_height seg * 4)%nat ∧
       ∀ x y c, (x < seg_width seg)%nat → (y < seg_height seg)%nat →
                (c < 4)%nat →
         image !! ((y * seg_width seg + x) * 4 + c)%nat
         = Some (component
                   (overlay_pixel s data (seg_width seg) (seg_height seg)
                      x y) c)).
Proof.
  split; [done|].
  unfold Overlay.drawSegmentation.
  destruct (seg_data seg) as [data|];
    [|split; [done|]; split; [|done]; split; [done|];
      by intros [[? [=]] _]].
  set (w := seg_width seg). set (h := seg_height seg).
  case_bool_decide as Hdims.
  { split; [done|]. split; [by eauto|]. intros ? _ Hw Hh. lia. }
  split; [done|]. split; [split; [done|by intros [_ ?]]|].
  intros ? [= <-] _ _. eexists. split; [done|].
  set (init := replicate (w * h * 4) Byte.x00).
  set (fillpx := fun i : nat =>
         if cell_is (data !! i) Byte.x01 && Overlay.fills s
         then Some (stored (hexToRGB (Overlay.fillColor s))
                      (Math_round (F64.mul (Overlay.fillOpacity s)
                                     (F64.of_Z 255))))
         else None).
  assert (Hfill : foldl (Overlay.fill_cell s data
                           (hexToRGB (Overlay.fillColor s))
                           (Math_round (F64.mul (Overlay.fillOpacity s)
                                          (F64.of_Z 255))))
                        init (seq 0 (length data))
                  = foldl (fun acc i => stamp (0 + i) (fillpx i) acc)
                          init (seq 0 (length data))).
  { apply foldl_ext. intros acc i. apply fill_cell_stamp. }
  rewrite Hfill.
  destruct (stamp_row fillpx 0 (length data) init)
    as (Hlen1 & Hown1 & Hother1).
  set (filled := foldl (fun acc i => stamp (0 + i) (fillpx i) acc) init
                       (seq 0 (length data))) in *.
  assert (Hinit : length init = (w * h * 4)%nat)
    by apply length_replicate.
  (* the image after the first loop *)
  assert (Hfilled : ∀ x y c, (x < w)%nat → (y < h)%nat → (c < 4)%nat →
            filled !! ((y * w + x) * 4 + c)%nat
            = Some (component
                      (if Overlay.fills s
                          && cell_is (data !! (y * w + x)%nat) Byte.x01
                       then stored (hexToRGB (Overlay.fillColor s))
                              (Math_round (F64.mul (Overlay.fillOpacity s)
                                             (F64.of_Z 255)))
                       else (Byte.x00, Byte.x00, Byte.x00, Byte.x00)) c)).
  { intros x y c Hx Hy Hc.
    assert (Hin : ((y * w + x) * 4 + c < w * h * 4)%nat) by nia.
    assert (Hzero : init !! ((y * w + x) * 4 + c)%nat = Some Byte.x00)
      by (by apply lookup_replicate_2).
    destruct (decide (y * w + x < length data)%nat) as [Hd|Hd].
    - specialize (Hown1 (y * w + x)%nat c Hd Hc ltac:(simpl; lia)).
      simpl in Hown1. rewrite Hown1. unfold fillpx.
      rewrite (andb_comm (Overlay.fills s)).
      destruct (cell_is (data !! (y * w + x)%nat) Byte.x01 && Overlay.fills s);
        [done|]. rewrite Hzero. by destruct c as [|[|[|c]]].
    - rewrite Hother1 by (simpl; lia). rewrite Hzero.
      rewrite (lookup_ge_None_2 data) by lia. simpl.
      rewrite andb_false_r. by destruct c as [|[|[|c]]]. }
  destruct (Overlay.outlines s) eqn:Ho.
  - set (outpx := fun y x : nat =>
           if edge_cell data w h x y
           then Some (stored (hexToRGB (Overlay.outlineColor s))
                        (F64.of_Z 255))
           else None).
    assert (Hout : foldl (fun maskData y =>
                      foldl (fun maskData x =>
                        Overlay.outline_cell data w h
                          (hexToRGB (Overlay.outlineColor s)) maskData y x)
                        maskData (seq 0 w)) filled (seq 0 h)
                   = foldl (fun acc y =>
                       foldl (fun acc x => stamp (y * w + x) (outpx y x) acc)
                             acc (seq 0 w)) filled (seq 0 h)).
    { apply foldl_ext. intros acc y. apply foldl_ext. intros acc' x.
      apply outline_cell_stamp. }
    rewrite Hout.
    destruct (stamp_grid outpx w h filled) as (Hlen2 & Hown2 & _).
    split; [by rewrite Hlen2, Hlen1|].
    intros x y c Hx Hy Hc.
    rewrite Hown2 by (rewrite ?Hlen1, ?Hinit; nia || done).
    unfold overlay_pixel, outpx. rewrite Ho, <- edge_cell_on_edge. simpl.
    destruct (edge_cell data w h x y); [done|]. by apply Hfilled.
  - split; [by rewrite Hlen1|].
    intros x y c Hx Hy Hc. unfold overlay_pixel. rewrite Ho. simpl.
    by apply Hfilled.
Qed.

(** A 3x3 mask with a 0 in the middle of the right column, in the mode
    'both' with the default colours: the cell to the left of the 0 is an
    edge cell and shows the outline colour, the cell in the left column
    shows the fill colour at alpha 128, the 0 itself is transparent. *)
Lemma X23_overlay_witness :
  let seg := {| seg_data := Some [Byte.x01; Byte.x01; Byte.x01;
                                  Byte.x01; Byte.x01; Byte.x00;
                                  Byte.x01; Byte.x01; Byte.x01];
                seg_width := 3; seg_height := 3 |} in
  ∃ image,
    Overlay.drawSegmentation Overlay.default_settings (Some seg)
    = Overlay.Drew image ∧
    (image !! 16%nat, image !! 17%nat, image !! 18%nat, image !! 19%nat)
    = (Some Byte.x25, Some Byte.x63, Some Byte.xeb, Some Byte.xff) ∧
    (image !! 12%nat, image !! 13%nat, image !! 14%nat, image !! 15%nat)
    = (Some Byte.x3b, Some Byte.x82, Some Byte.xf6, Some Byte.x80) ∧
    (image !! 20%nat, image !! 21%nat, image !! 22%nat, image !! 23%nat)
    = (Some Byte.x00, Some Byte.x00, Some Byte.x00, Some Byte.x00).
Proof.
  intros seg.
  destruct (X23_overlay_image Overlay.default_settings seg)
    as (_ & _ & _ & Hdraw).
  destruct (Hdraw _ eq_refl ltac:(done) ltac:(done))
    as (image & Himage & _ & Hpix).
  exists image. split; [exact Himage|].
  assert (Hpx : ∀ x y c v, (x < 3)%nat → (y < 3)%nat → (c < 4)%nat →
            component (overlay_pixel Overlay.default_settings
                         [Byte.x01; Byte.x01; Byte.x01;
                          Byte.x01; Byte.x01; Byte.x00;
                          Byte.x01; Byte.x01; Byte.x01] 3 3 x y) c = v →
            image !! ((y * 3 + x) * 4 + c)%nat = Some v).
  { intros x y c v Hx Hy Hc <-. by apply Hpix. }
  split; [|split]; repeat f_equal.
  - apply (Hpx 1 1 0)%nat; [lia..|by vm_compute].
  - apply (Hpx 1 1 1)%nat; [lia..|by vm_compute].
  - apply (Hpx 1 1 2)%nat; [lia..|by vm_compute].
  - apply (Hpx 1 1 3)%nat; [lia..|by vm_compute].
  - apply (Hpx 0 1 0)%nat; [lia..|by vm_compute].
  - apply (Hpx 0 1 1)%nat; [lia..|by vm_compute].
  - apply (Hpx 0 1 2)%nat; [lia..|by vm_compute].
  - apply (Hpx 0 1 3)%nat; [lia..|by vm_compute].
  - apply (Hpx 2 1 0)%nat; [lia..|by vm_compute].
  - apply (Hpx 2 1 1)%nat; [lia..|by vm_compute].
  - apply (Hpx 2 1 2)%nat; [lia..|by vm_compute].
  - apply (Hpx 2 1 3)%nat; [lia..|by vm_compute].
Defined.

(** * The pixel loop when the canvas has the size of the mask *)

(** ** Exact divisions *)

Lemma div_eucl_exact (a b : Z) :
  b ≠ 0 → Z.div_eucl (a * b) b = (a, 0).
Proof.
  intros Hb.
  assert (H : Z.div_eucl (a * b) b = ((a * b) / b, (a * b) mod b)).
  { unfold Z.div, Z.modulo. by destruct (Z.div_eucl (a * b) b). }
  by rewrite H, Z.div_mul, Z.mod_mul.
Qed.

(** A number divided by itself is 1. *)
Lemma div_self (m : positive) (e : Z) :
  F64.div (S754_finite false m e) (S754_finite false m e) = F64.one.
Proof.
  unfold F64.div, SFdiv, SFdiv_core_binary.
  rewrite !Z.sub_diag.
  change (fexp F64.prec F64.emax 0) with (-53).
  change (Z.min (-53) 0) with (-53).
  change (0 - -53) with 53.
  cbv iota beta.
  assert (Hq : Z.div_eucl (Z.shiftl (Zpos m) 53) (Zpos m) = (2 ^ 53, 0)).
  { rewrite Z.shiftl_mul_pow2, Z.mul_comm by lia.
    by apply div_eucl_exact. }
  rewrite Hq.
  assert (Hl : new_location (Zpos m) 0 = loc_Exact).
  { unfold new_location, new_location_even, new_location_odd.
    by destruct (Z.even (Zpos m)). }
  rewrite Hl. by vm_compute.
Qed.

(** A rounding whose input is a multiple of the unit of the result is
    exact. *)
Lemma rounded_exact_multiple prec emax b mx ex res K :
  let E := fexp prec emax (Zpos (digits2_pos mx) + ex) in
  b ≤ E →
  Zpos mx * 2 ^ (ex - b) = K * 2 ^ (E - b) →
  rounded prec emax b mx ex res →
  val b res = Zpos mx * 2 ^ (ex - b).
Proof.
  intros E HbE HK (M & HM & (N1 & N2 & _) & _ & _ & _ & Henc).
  fold E in N1, N2, Henc.
  rewrite (encodes_val prec emax b res M E HbE Henc).
  pose proof (Z.pow_pos_nonneg 2 (E - b) ltac:(lia) ltac:(lia)) as Hu.
  rewrite HK in *. clear HK Henc.
  generalize dependent (2 ^ (E - b)). intros u N1 N2 Hu.
  assert (HMK : M = K).
  { destruct (Z.lt_trichotomy M K) as [Hlt|[Heq|Hgt]]; [|done|].
    - assert (u * 1 ≤ u * (K - M)) by (apply Z.mul_le_mono_nonneg_l; lia).
      lia.
    - assert (u * 1 ≤ u * (M - K)) by (apply Z.mul_le_mono_nonneg_l; lia).
      lia. }
  by rewrite HMK.
Qed.

(** Two numbers of the format with the same value are the same. *)
Lemma good64_val_inj (x y : spec_float) :
  good64 x → good64 y → val b0 x = val b0 y → x = y.
Proof.
  intros Hx Hy Hv.
  pose proof (SFcompare_val 53 1024 b0 x y ltac:(unfold b0; lia) Hx Hy) as Hc.
  rewrite Hv, Z.compare_refl in Hc.
  destruct Hx as [->|(m & e & -> & Hb)].
  - destruct Hy as [->|(m' & e' & -> & Hb')]; [done|].
    pose proof (good64_val_pos m' e'
                  ltac:(right; by exists m', e')) as Hp.
    rewrite <- Hv in Hp. simpl in Hp. lia.
  - symmetry. by apply SFcompare_Eq_finite.
Qed.

(** A number below 2^53 divided by 1 is itself. *)
Lemma div_one (m : positive) (e : Z) :
  good64 (S754_finite false m e) →
  Zpos (digits2_pos m) + e ≤ 53 →
  F64.div (S754_finite false m e) F64.one = S754_finite false m e.
Proof.
  intros Hg Hmag.
  destruct (good64_exp m e Hg) as (Hb & He & Hd).
  assert (Hcanon : fexp 53 1024 (Zpos (digits2_pos m) + e) = e).
  { unfold bounded, canonical_mantissa in Hb.
    apply andb_true_iff in Hb as [Hb _]. by apply Z.eqb_eq in Hb. }
  set (d := Zpos (digits2_pos m)) in *.
  set (e' := fexp 53 1024 (d + e - 1)).
  assert (He' : -1074 ≤ e' ≤ e).
  { unfold e'. rewrite fexp_eq. rewrite fexp_eq in Hcanon. lia. }
  set (s := e + 52 - e').
  assert (Hs : 52 ≤ s) by (unfold s; lia).
  change F64.one with (S754_finite false 4503599627370496 (-52)).
  unfold F64.div, SFdiv, SFdiv_core_binary.
  change (Zdigits2 (Zpos m)) with d.
  change (Zdigits2 4503599627370496) with 53.
  replace (d + e - (53 + -52)) with (d + e - 1) by lia.
  change (fexp F64.prec F64.emax (d + e - 1)) with e'.
  replace (Z.min e' (e - -52)) with e' by lia.
  replace (e - -52 - e') with s by (unfold s; lia).
  destruct s as [|ps|ps] eqn:Es; [lia| |lia].
  rewrite <- Es in *. clear Es ps.
  assert (Hq : Z.div_eucl (Z.shiftl (Zpos m) s) 4503599627370496
               = (Zpos m * 2 ^ (s - 52), 0)).
  { rewrite Z.shiftl_mul_pow2 by lia.
    replace (2 ^ s) with (2 ^ (s - 52) * 2 ^ 52)
      by (rewrite <- Z.pow_add_r by lia; f_equal; lia).
    change 4503599627370496 with (2 ^ 52).
    rewrite Z.mul_assoc. by apply div_eucl_exact. }
  rewrite Hq.
  change (new_location 4503599627370496 0) with loc_Exact.
  change (xorb false false) with false.
  pose proof (Z.pow_pos_nonneg 2 (s - 52) ltac:(lia) ltac:(lia)) as Hpow.
  destruct (Zpos m * 2 ^ (s - 52)) as [|q|q] eqn:Eq; [lia| |lia].
  assert (Hdq : Zpos (digits2_pos q) = d + (s - 52)).
  { apply (digits_shift m q (s - 52)); [lia|by rewrite Eq]. }
  assert (Hr : rounded 53 1024 b0 q e'
                 (binary_round_aux F64.prec F64.emax false (Zpos q) e'
                    loc_Exact)).
  { apply (round_aux_rounded 53 1024 ltac:(lia) ltac:(lia)).
    - unfold b0. lia.
    - rewrite Hdq. replace (d + (s - 52) + e') with (d + e)
        by (unfold s; lia). lia.
    - rewrite Hdq. replace (d + (s - 52) + e') with (d + e)
        by (unfold s; lia). lia. }
  apply good64_val_inj; [by apply (rounded_good 53 1024 b0 q e')|done|].
  rewrite (rounded_exact_multiple 53 1024 b0 q e' _ (Zpos m)); [| |
    |exact Hr].
  - simpl. rewrite <- Eq, <- Z.mul_assoc, <- Z.pow_add_r by (unfold b0; lia).
    do 2 f_equal. unfold s. lia.
  - rewrite Hdq. replace (d + (s - 52) + e') with (d + e)
      by (unfold s; lia). rewrite Hcanon. unfold b0. lia.
  - rewrite Hdq. replace (d + (s - 52) + e') with (d + e)
      by (unfold s; lia). rewrite Hcanon.
    rewrite <- Eq, <- Z.mul_assoc, <- Z.pow_add_r by (unfold b0; lia).
    do 2 f_equal. unfold s. lia.
Qed.

(** ** Counters as numbers *)

(** A positive integer below 2^53 is a number of the format. *)
Lemma of_Z_pos (p : positive) :
  Zpos p < 2 ^ 53 →
  ∃ m e, F64.of_Z (Zpos p) = S754_finite false m e ∧
         good64 (S754_finite false m e) ∧
         Zpos m * 2 ^ (e - b0) = Zpos p * 2 ^ (0 - b0) ∧
         Zpos (digits2_pos m) + e ≤ 53.
Proof.
  intros Hp.
  pose proof (digits2_pos_bounds p) as Hd.
  assert (Hd53 : Zpos (digits2_pos p) ≤ 53).
  { destruct (Z.le_gt_cases (Zpos (digits2_pos p)) 53) as [|Hgt]; [done|].
    pose proof (Z.pow_le_mono_r 2 53 (Zpos (digits2_pos p) - 1)
                  ltac:(lia) ltac:(lia)). lia. }
  assert (Hr : rounded 53 1024 b0 p 0 (F64.of_Z (Zpos p))).
  { apply (round_rounded 53 1024 ltac:(lia) ltac:(lia));
      unfold b0; lia. }
  pose proof (rounded_good 53 1024 b0 p 0 _ Hr) as Hg.
  pose proof (rounded_exact 53 1024 b0 p 0 _ ltac:(lia)
                ltac:(rewrite fexp_eq; unfold b0; lia)
                ltac:(rewrite fexp_eq; lia) Hr) as Hv.
  pose proof (Z.pow_pos_nonneg 2 (0 - b0) ltac:(lia)
                ltac:(unfold b0; lia)) as Hpow.
  destruct Hg as [E|(m & e & E & Hb)].
  { rewrite E in Hv. simpl in Hv. lia. }
  exists m, e. rewrite E in Hv. simpl in Hv.
  assert (Hg : good64 (S754_finite false m e)) by (right; by exists m, e).
  split; [done|]. split; [done|]. split; [done|].
  destruct (good64_exp m e Hg) as (_ & He & _).
  pose proof (val_finite_bounds b0 m e ltac:(unfold b0; lia)) as [Hlo _].
  simpl in Hlo. rewrite Hv in Hlo.
  assert (Hlt : 2 ^ (Zpos (digits2_pos m) - 1 + e - b0) < 2 ^ (53 + (0 - b0))).
  { rewrite Z.pow_add_r by (unfold b0; lia). nia. }
  apply Z.pow_lt_mono_r_iff in Hlt; unfold b0 in *; lia.
Qed.

Lemma floor_of_Z (n : Z) :
  0 ≤ n < 2 ^ 53 → F64.floor (F64.of_Z n) = F64.of_Z n.
Proof.
  intros Hn. destruct n as [|p|p]; [done| |lia].
  destruct (of_Z_pos p ltac:(lia)) as (m & e & E & Hg & Hv & _).
  destruct (good64_exp m e Hg) as (_ & Hexp & _).
  rewrite E. unfold F64.floor.
  destruct (Z.leb_spec 0 e) as [He|He]; [done|].
  assert (Hm : Zpos m = Zpos p * 2 ^ (- e)).
  { replace (0 - b0) with (e - b0 + - e) in Hv by lia.
    rewrite Z.pow_add_r in Hv by (unfold b0; lia).
    pose proof (Z.pow_pos_nonneg 2 (e - b0) ltac:(lia)
                  ltac:(unfold b0; lia)). nia. }
  simpl cond_Zopp. rewrite Z.shiftr_div_pow2 by lia.
  rewrite Hm, Z.div_mul
    by (pose proof (Z.pow_pos_nonneg 2 (- e) ltac:(lia) ltac:(lia)); lia).
  exact E.
Qed.

Lemma to_int_of_Z (n : Z) :
  0 ≤ n < 2 ^ 53 → F64.to_int (F64.of_Z n) = Some n.
Proof.
  intros Hn. destruct n as [|p|p]; [done| |lia].
  destruct (of_Z_pos p ltac:(lia)) as (m & e & E & Hg & Hv & _).
  destruct (good64_exp m e Hg) as (_ & Hexp & _).
  rewrite E. unfold F64.to_int. simpl cond_Zopp.
  destruct (Z.leb_spec 0 e) as [He|He].
  - f_equal.
    replace (e - b0) with (e + (0 - b0)) in Hv by lia.
    rewrite Z.pow_add_r in Hv by (unfold b0; lia).
    pose proof (Z.pow_pos_nonneg 2 (0 - b0) ltac:(lia)
                  ltac:(unfold b0; lia)). nia.
  - assert (Hm : Zpos m = Zpos p * 2 ^ (- e)).
    { replace (0 - b0) with (e - b0 + - e) in Hv by lia.
      rewrite Z.pow_add_r in Hv by (unfold b0; lia).
      pose proof (Z.pow_pos_nonneg 2 (e - b0) ltac:(lia)
                    ltac:(unfold b0; lia)). nia. }
    pose proof (Z.pow_pos_nonneg 2 (- e) ltac:(lia) ltac:(lia)) as Hpow.
    rewrite Hm, Z.mod_mul, Z.div_mul by lia. done.
Qed.

Lemma div_of_Z_self (n : Z) :
  0 < n < 2 ^ 53 → F64.div (F64.of_Z n) (F64.of_Z n) = F64.one.
Proof.
  intros Hn. destruct n as [|p|p]; [lia| |lia].
  destruct (of_Z_pos p ltac:(lia)) as (m & e & -> & _).
  apply div_self.
Qed.

Lemma div_of_Z_one (n : Z) :
  0 ≤ n < 2 ^ 53 → F64.div (F64.of_Z n) F64.one = F64.of_Z n.
Proof.
  intros Hn. destruct n as [|p|p]; [done| |lia].
  destruct (of_Z_pos p ltac:(lia)) as (m & e & -> & Hg & _ & Hmag).
  by apply div_one.
Qed.

(** At scale 1 a pixel reads the mask cell of its own coordinates. *)
Lemma mask_cell_of_same_size (width height : nat) (r : Renderer) (y x : nat) :
  canvas_width r = width → canvas_height r = height →
  Z.of_nat width < 2 ^ 53 → Z.of_nat height < 2 ^ 53 →
  (y < height)%nat → (x < width)%nat →
  mask_cell_of width (canvas_scaleX r width) (canvas_scaleY r height) y x
  = Some (Z.of_nat (y * width + x)).
Proof.
  intros Hw Hh Hwb Hhb Hy Hx.
  unfold mask_cell_of, canvas_scaleX, canvas_scaleY, mask_coord, F64.of_nat.
  rewrite Hw, Hh.
  rewrite !div_of_Z_self, !div_of_Z_one, !floor_of_Z by lia.
  unfold mask_index. rewrite !to_int_of_Z by lia. f_equal. lia.
Qed.

(** X24: when the canvas has the size of the mask, every pixel is
    computed from its own mask cell and its own video pixel.  For a
    canvas and a mask of the same width and height (below 2^53), both
    scale factors are exactly 1, the pixel [(x, y)] reads the mask cell
    and the video pixel of index [y * width + x], and the bytes it gets
    are those the branch taken computes from these two. *)
Theorem X24_same_size_reads_own_cell (r : Renderer) (videoData : list byte)
    (data : list byte) (width height : nat)
    (r' : Renderer) (image : list byte) (outline : list FillRect) :
  drawSegmentation r videoData (Some (data, width, height))
  = (r', Drew image outline) →
  canvas_width r = width → canvas_height r = height →
  Z.of_nat width < 2 ^ 53 → Z.of_nat height < 2 ^ 53 →
  canvas_scaleX r width = F64.one ∧ canvas_scaleY r height = F64.one ∧
  ∃ maskData,
    process r data width height = (r', Some maskData) ∧
    ∀ y x, (y < height)%nat → (x < width)%nat →
      mask_cell_of width (canvas_scaleX r width) (canvas_scaleY r height) y x
      = Some (Z.of_nat (y * width + x)) ∧
      ∀ c, (c < 4)%nat →
        image !! ((y * width + x) * 4 + c)%nat
        = Some (own_pixel_byte (settings r) maskData videoData
                  (hexToRGB (fillColor (settings r)))
                  (hexToRGB (bgColor (settings r))) (y * width + x) c).
Proof.
  intros H Hw Hh Hwb Hhb.
  pose proof (drawSegmentation_Drew _ _ _ _ _ _ H)
    as (data0 & w0 & h0 & m0 & E0 & _ & Hw0 & Hh0 & _).
  injection E0 as <- <- <-.
  apply drawn_image_lookup
    in H as (data1 & w1 & h1 & maskData & E1 & Hp & _ & Hpix).
  injection E1 as <- <- <-.
  split; [unfold canvas_scaleX, F64.of_nat; rewrite Hw;
          apply div_of_Z_self; lia|].
  split; [unfold canvas_scaleY, F64.of_nat; rewrite Hh;
          apply div_of_Z_self; lia|].
  exists maskData. split; [done|].
  intros y x Hy Hx.
  pose proof (mask_cell_of_same_size width height r y x Hw Hh Hwb Hhb Hy Hx)
    as Hcell.
  split; [done|]. intros c Hc.
  specialize (Hpix y x c ltac:(lia) ltac:(lia) Hc).
  unfold pixel_offset in Hpix. rewrite Hw in Hpix. rewrite Hpix. f_equal.
  unfold pixel_byte, own_pixel_byte, source_channel. rewrite Hcell.
  assert (Hget : ∀ (l : list byte) (n : nat),
            get l (Some (Z.of_nat n)) = l !! n).
  { intros l n. unfold get.
    destruct (Z.leb_spec 0 (Z.of_nat n)); [|lia]. by rewrite Nat2Z.id. }
  cbn [fmap option_fmap option_map].
  replace (Z.of_nat (y * width + x) * 4)
    with (Z.of_nat ((y * width + x) * 4)) by lia.
  replace (Z.of_nat ((y * width + x) * 4) + 1)
    with (Z.of_nat ((y * width + x) * 4 + 1)) by lia.
  replace (Z.of_nat ((y * width + x) * 4) + 2)
    with (Z.of_nat ((y * width + x) * 4 + 2)) by lia.
  by rewrite !Hget.
Qed.

Lemma X24_same_size_witness :
  let r := new_Renderer 2 1 in
  let videoData := [Byte.x0a; Byte.x14; Byte.x1e; Byte.xff;
                    Byte.x28; Byte.x32; Byte.x3c; Byte.xff] in
  ∃ r' image outline,
    drawSegmentation r videoData (Some ([Byte.x01; Byte.x00], 2%nat, 1%nat))
    = (r', Drew image outline) ∧
    canvas_scaleX r 2 = F64.one ∧
    mask_cell_of 2 (canvas_scaleX r 2) (canvas_scaleY r 1) 0 1
    = Some (Z.of_nat (0 * 2 + 1)).
Proof.
  intros r videoData.
  destruct (drawSegmentation r videoData
              (Some ([Byte.x01; Byte.x00], 2%nat, 1%nat)))
    as [r' drawn] eqn:Hd.
  assert (∃ image outline, drawn = Drew image outline)
    as (image & outline & ->).
  { vm_compute in Hd. injection Hd as <- <-. by eexists _, _. }
  exists r', image, outline. split; [done|].
  destruct (X24_same_size_reads_own_cell r videoData _ 2 1 _ _ _ Hd
              eq_refl eq_refl ltac:(vm_compute; reflexivity)
              ltac:(vm_compute; reflexivity))
    as (Hx & _ & maskData & _ & Hpix).
  split; [exact Hx|].
  by destruct (Hpix 0%nat 1%nat ltac:(lia) ltac:(lia)) as [Hcell _].
Defined.

(** * The delay of the temporal smoothing *)

Lemma follows_spec (steps : nat) factor c q j :
  follows steps factor c q = true → (j < steps)%nat →
  cell_out factor c (Nat.iter j (cell_step factor c) q) = c.
Proof.
  revert q j. induction steps as [|s IH]; intros q j H Hj; [lia|].
  cbn [follows] in H. apply andb_true_iff in H as [H0 Hs].
  destruct j as [|j].
  - by apply Byte.byte_dec_bl.
  - rewrite Nat.iter_succ_r. apply IH; [done|lia].
Qed.

(** Between the histories from 0 and from 1: if both give the mask bit
    on a frame, so does every history between them. *)
Lemma cell_between factor c x n :
  cell_ok factor c = true → is_bit c → unit_value x →
  cell_out factor c (Nat.iter n (cell_step factor c) F64.zero) = c →
  cell_out factor c (Nat.iter n (cell_step factor c) F64.one) = c →
  cell_out factor c (Nat.iter n (cell_step factor c) x) = c.
Proof.
  intros Hok Hc Hx O0 O1.
  destruct (sandwich factor c Hok x n Hx) as (U0 & Un & U1 & Hlo & Hhi).
  set (lo := Nat.iter n (cell_step factor c) F64.zero) in *.
  set (hi := Nat.iter n (cell_step factor c) F64.one) in *.
  set (p := Nat.iter n (cell_step factor c) x) in *.
  destruct U0 as [G0 B0], Un as [Gn Bn], U1 as [G1 B1].
  destruct (blend_mono factor c Hok lo p G0 Gn Hlo Bn) as (Gl & Gp & Hl & _).
  destruct (blend_mono factor c Hok p hi Gn G1 Hhi B1) as (_ & Gh & Hh & _).
  unfold cell_out in *.
  destruct Hc as [-> | ->].
  - destruct (binarize_bit (blend factor p Byte.x00)) as [Hb|Hb]; [done|].
    apply (binarize_val _ Gp) in Hb.
    assert (Hhi1 : binarize (blend factor hi Byte.x00) = Byte.x01)
      by (apply (binarize_val _ Gh); lia).
    by rewrite O1 in Hhi1.
  - apply (binarize_val _ Gp). apply (binarize_val _ Gl) in O0. lia.
Qed.

Lemma history_cell_between factor c x n :
  cell_ok factor c = true → is_bit c → unit_history x →
  cell_out factor c (Nat.iter n (cell_step factor c) F64.zero) = c →
  cell_out factor c (Nat.iter n (cell_step factor c) F64.one) = c →
  cell_out factor c (Nat.iter n (cell_step factor c) x) = c.
Proof.
  intros Hok Hc Hx O0 O1.
  destruct (unit_history_cases x Hx) as [->|Hu].
  - etrans; [|exact O0].
    destruct n as [|n].
    + change (Nat.iter 0 (cell_step factor c) ?y) with y.
      unfold cell_out. by rewrite blend_neg_zero.
    + rewrite !Nat.iter_succ_r. do 2 f_equal.
      unfold cell_step. by rewrite blend_neg_zero.
  - by apply cell_between.
Qed.

(** From a history of 0 or 1, the returned cell is the mask bit from the
    frame [latency k] on, up to frame 1000. *)
Lemma bit_cell_follows_early k c p :
  1 ≤ k ≤ 9 → is_bit c → p = F64.zero ∨ p = F64.one →
  follows (1000 - latency k) (factor_of k) c
    (Nat.iter (latency k) (cell_step (factor_of k) c) p) = true.
Proof.
  intros Hk Hc Hp. pose proof (setting_cases k Hk) as H.
  destruct Hc as [-> | ->], Hp as [-> | ->];
    repeat (destruct H as [->|H]; [by vm_compute|]); subst k; by vm_compute.
Qed.

Lemma bit_cell_follows k c p n :
  1 ≤ k ≤ 9 → is_bit c → p = F64.zero ∨ p = F64.one →
  (latency k ≤ n)%nat →
  cell_out (factor_of k) c (Nat.iter n (cell_step (factor_of k) c) p) = c.
Proof.
  intros Hk Hc Hp Hn.
  destruct (decide (n < 1000)%nat) as [Hlt|Hge].
  - replace n with ((n - latency k) + latency k)%nat by lia.
    rewrite Nat.iter_add.
    apply (follows_spec (1000 - latency k)); [|lia].
    by apply bit_cell_follows_early.
  - destruct (settled_fixed 1000 (factor_of k) c p n
                (bit_cell_settled k c p Hk Hc Hp) ltac:(lia)) as [-> Ho].
    exact Ho.
Qed.

(** A history of the mask's size with cells from 0 to 1. *)
Lemma output_follows_history r M width height k prev n :
  1 ≤ k ≤ 9 →
  smoothing (settings r) = F64.of_Z k →
  prevMask r = Some prev →
  length prev = length M →
  Forall unit_history prev →
  Forall is_bit M →
  (latency k ≤ n)%nat →
  output_at r M width height n = M.
Proof.
  intros Hk Hs Hprev Hlen Hh HM Hn.
  rewrite (output_at_blend r M width height prev);
    [|by rewrite Hs; apply factor_eqb_zero|done..].
  rewrite Hs. change (F64.div (F64.of_Z k) (F64.of_Z 10)) with (factor_of k).
  clear Hprev Hs. revert M Hlen HM.
  induction Hh as [|p prev Hp Hh IH]; intros [|c M] Hlen HM;
    try done.
  apply Forall_cons in HM as [Hc HM]. cbn [zip_with]. f_equal.
  - apply history_cell_between; [by apply cell_ok_settings|done..| |];
      apply bit_cell_follows; auto.
  - apply IH; [simpl in Hlen; lia|done].
Qed.

(** X25: how long the temporal smoothing holds back a change.  For an
    integer smoothing setting from 0 to 9, any history (of any size, or
    none) with cells from 0 to 1 and any binary mask fed unchanged on
    every frame, the mask returned is the mask fed from a fixed frame
    on: at once for settings 0 to 4, after 1 frame for 5 to 7, after 3
    frames for 8 and after 6 frames for 9.  These delays are reached:
    for each setting with a positive delay some history and mask still
    differ one frame earlier. *)
Theorem X25_smoothing_delay (k : Z) :
  0 ≤ k ≤ 9 →
  (∀ (r : Renderer) (M : list byte) (width height : nat) (n : nat),
     smoothing (settings r) = F64.of_Z k →
     Forall unit_history (history_cells r) →
     Forall is_bit M →
     (latency k ≤ n)%nat →
     output_at r M width height n = M) ∧
  ((0 < latency k)%nat →
   let r := set_prevMask
              (updateSettings (new_Renderer 1 1)
                 (numeric_patch None (Some (F64.of_Z k))))
              [F64.zero] in
   smoothing (settings r) = F64.of_Z k ∧
   Forall unit_history (history_cells r) ∧
   output_at r [Byte.x01] 1 1 (latency k - 1) ≠ [Byte.x01]).
Proof.
  intros Hk. split.
  - intros r M width height n Hs Hh HM Hn.
    destruct (decide (k = 0)) as [->|Hk0].
    { apply output_at_pass_through. by rewrite Hs. }
    assert (Hk' : 1 ≤ k ≤ 9) by lia.
    assert (Hz : F64.eqb (smoothing (settings r)) F64.zero = false)
      by (rewrite Hs; by apply factor_eqb_zero).
    unfold history_cells in Hh.
    destruct (prevMask r) as [prev|] eqn:Hprev.
    + destruct (decide (length prev = length M)) as [Hlen|Hlen].
      * by apply (output_follows_history r M width height k prev n).
      * apply (output_after_reset r M width height k n Hk' Hs HM).
        unfold smoothMask. rewrite Hz, Hprev.
        by rewrite (bool_decide_eq_true_2 _ Hlen).
    + apply (output_after_reset r M width height k n Hk' Hs HM).
      unfold smoothMask. by rewrite Hz, Hprev.
  - intros Hpos.
    assert (H : k = 5 ∨ k = 6 ∨ k = 7 ∨ k = 8 ∨ k = 9).
    { unfold latency in Hpos.
      destruct (Z.leb_spec k 4); [simpl in Hpos|]; lia. }
    assert (Hu : Forall unit_history [F64.zero]).
    { apply Forall_cons; split; [split; by vm_compute|apply Forall_nil_2]. }
    destruct H as [->|[->|[->|[->| ->]]]];
      (split; [reflexivity|split; [exact Hu|by vm_compute]]).
Qed.

Lemma X25_smoothing_delay_witness :
  let r := set_prevMask
             (updateSettings (new_Renderer 2 1)
                (numeric_patch None (Some (F64.of_Z 9))))
             [F32.round (F64.lit 3 10); F64.one] in
  output_at r [Byte.x01; Byte.x00] 2 1 6 = [Byte.x01; Byte.x00].
Proof.
  intros r.
  apply (proj1 (X25_smoothing_delay 9 ltac:(lia))
           r [Byte.x01; Byte.x00] 2%nat 1%nat 6%nat).
  - reflexivity.
  - apply Forall_cons; split; [split; vm_compute; reflexivity|].
    apply Forall_cons; split; [split; vm_compute; reflexivity|].
    apply Forall_nil_2.
  - apply Forall_cons; split; [by right|].
    apply Forall_cons; split; [by left|]. apply Forall_nil_2.
  - vm_compute. lia.
Defined.

(** ** Settings out of range *)

(** *** The sign of a result *)

Lemma round_aux_sign prec emax (mx ex : Z) (lx : location) :
  sign_clear (binary_round_aux prec emax false mx ex lx).
Proof.
  unfold binary_round_aux.
  destruct (shr_fexp prec emax mx ex lx) as [mrs' e'].
  destruct (shr_fexp prec emax _ e' loc_Exact) as [mrs'' e''].
  destruct (shr_m mrs''); [done| |done].
  by destruct (_ <=? _).
Qed.

Lemma round_sign prec emax (m : positive) (e : Z) :
  sign_clear (binary_round prec emax false m e).
Proof.
  unfold binary_round. destruct (shl_align _ _ _) as [mz ez].
  apply round_aux_sign.
Qed.

Lemma F32_round_sign (x : spec_float) :
  sign_clear x → sign_clear (F32.round x).
Proof.
  destruct x as [s|s| |s m e]; try done.
  intros Hs. simpl in Hs. subst s. unfold F32.round.
  pose proof (round_sign F32.prec F32.emax m e) as H.
  destruct (binary_round F32.prec F32.emax false m e) as [s|s| |s m' e'];
    try done.
  simpl in H. subst s. apply round_sign.
Qed.

Lemma div_ten_sign (m : positive) (e : Z) :
  sign_clear (F64.div (S754_finite false m e) (F64.of_Z 10)).
Proof.
  remember (F64.of_Z 10) as ten eqn:E. vm_compute in E. subst ten.
  unfold F64.div, SFdiv.
  destruct (SFdiv_core_binary _ _ _ _ _ _) as [[mz ez] lz].
  apply round_aux_sign.
Qed.

Lemma mul_one_sign (f : spec_float) :
  sign_clear f → sign_clear (F64.mul F64.one f).
Proof.
  change F64.one with (S754_finite false 4503599627370496 (-52)).
  destruct f as [s|s| |s m e]; try done.
  intros Hs. simpl in Hs. subst s. apply round_aux_sign.
Qed.

Lemma mul_zero_shape (t : spec_float) :
  (∃ s, F64.mul F64.zero t = S754_zero s) ∨ F64.mul F64.zero t = S754_nan.
Proof. destruct t as [s|s| |s m e]; simpl; eauto. Qed.

Lemma add_zero_sign (a b : spec_float) :
  sign_clear a → (∃ s, b = S754_zero s) ∨ b = S754_nan →
  sign_clear (F64.add a b).
Proof.
  intros Ha [[s ->]| ->].
  - destruct a as [sa|sa| |sa m e]; simpl in *; try done.
    subst sa. by destruct s.
  - by destruct a.
Qed.

(** The history cell stored for a mask bit 0 over a history of 1. *)
Lemma cell_step_sign (f : spec_float) :
  sign_clear f → sign_clear (cell_step f Byte.x00 F64.one).
Proof.
  intros Hf. unfold cell_step, blend. apply F32_round_sign.
  apply add_zero_sign; [by apply mul_one_sign|].
  change (num_of_u8 (Some Byte.x00)) with F64.zero.
  apply mul_zero_shape.
Qed.

(** A non-negative integer is a zero or a positive finite number. *)
Lemma is_natural_shape (k : spec_float) :
  is_natural k = true →
  (∃ s, k = S754_zero s) ∨ ∃ m e, k = S754_finite false m e.
Proof.
  unfold is_natural. destruct k as [s|s| |s m e]; try done; [by eauto|].
  destruct s; [|by eauto].
  destruct (F64.to_int _); [|done]. by rewrite andb_false_r.
Qed.

(** *** A blend of 0 and 1 *)

(** A number of the format multiplied by 1 is itself. *)
Lemma mul_one_l (m : positive) (e : Z) :
  good64 (S754_finite false m e) →
  Zpos (digits2_pos m) + e ≤ 53 →
  F64.mul F64.one (S754_finite false m e) = S754_finite false m e.
Proof.
  intros Hg Hmag.
  destruct (good64_exp m e Hg) as (Hb & He & Hd).
  assert (Hcanon : fexp 53 1024 (Zpos (digits2_pos m) + e) = e).
  { unfold bounded, canonical_mantissa in Hb.
    apply andb_true_iff in Hb as [Hb _]. by apply Z.eqb_eq in Hb. }
  change F64.one with (S754_finite false 4503599627370496 (-52)).
  unfold F64.mul, SFmul. change (xorb false false) with false.
  assert (Hq : Zpos (4503599627370496 * m) = Zpos m * 2 ^ 52) by lia.
  assert (Hdq : Zpos (digits2_pos (4503599627370496 * m))
                = Zpos (digits2_pos m) + 52).
  { by apply (digits_shift m _ 52). }
  assert (Hr : rounded 53 1024 b0 (4503599627370496 * m) (-52 + e)
                 (binary_round_aux F64.prec F64.emax false
                    (Zpos (4503599627370496 * m)) (-52 + e) loc_Exact)).
  { apply (round_aux_rounded 53 1024 ltac:(lia) ltac:(lia)).
    - unfold b0. lia.
    - rewrite Hdq.
      replace (Zpos (digits2_pos m) + 52 + (-52 + e))
        with (Zpos (digits2_pos m) + e) by lia. lia.
    - rewrite Hdq. lia. }
  apply good64_val_inj;
    [exact (rounded_good 53 1024 b0 (4503599627370496 * m) (-52 + e) _ Hr)
    |done|].
  rewrite (rounded_exact_multiple 53 1024 b0 (4503599627370496 * m)
             (-52 + e) _ (Zpos m));
    [| | |exact Hr].
  - simpl val. rewrite Hq, <- Z.mul_assoc, <- Z.pow_add_r by (unfold b0; lia).
    do 2 f_equal. lia.
  - rewrite Hdq.
    replace (Zpos (digits2_pos m) + 52 + (-52 + e))
      with (Zpos (digits2_pos m) + e) by lia.
    rewrite Hcanon. unfold b0. lia.
  - rewrite Hdq.
    replace (Zpos (digits2_pos m) + 52 + (-52 + e))
      with (Zpos (digits2_pos m) + e) by lia.
    rewrite Hcanon, Hq, <- Z.mul_assoc, <- Z.pow_add_r by (unfold b0; lia).
    do 2 f_equal. lia.
Qed.

(** A number from 0 to 1 is stored in a byte as 0 or 1. *)
Lemma ToUint8Clamp_unit (x : spec_float) :
  unit_value x → ToUint8Clamp x = Byte.x00 ∨ ToUint8Clamp x = Byte.x01.
Proof.
  intros [[->|(m & e & -> & Hb)] Hbelow]; [by left|].
  assert (Hg : good64 (S754_finite false m e)) by (right; by exists m, e).
  destruct (good64_exp m e Hg) as (_ & He & _).
  unfold below in Hbelow. simpl in Hbelow. unfold ToUint8Clamp.
  destruct (Z.leb_spec 0 e) as [He0|He0].
  - right.
    assert (Hle : Zpos m * 2 ^ e ≤ 1).
    { replace (e - b0) with (e + (0 - b0)) in Hbelow by lia.
      rewrite Z.pow_add_r in Hbelow by (unfold b0; lia).
      pose proof (Z.pow_pos_nonneg 2 (0 - b0) ltac:(lia)
                    ltac:(unfold b0; lia)).
      rewrite Z.mul_assoc in Hbelow.
      apply Z.le_ngt. intros Hgt.
      assert (2 * 2 ^ (0 - b0) ≤ Zpos m * 2 ^ e * 2 ^ (0 - b0))
        by (apply Z.mul_le_mono_nonneg_r; lia).
      lia. }
    pose proof (Z.pow_pos_nonneg 2 e ltac:(lia) He0) as Hpe.
    assert (Zpos m * 2 ^ e = 1) by nia.
    by replace (Zpos m * 2 ^ e) with 1.
  - pose proof (Z.pow_pos_nonneg 2 (- e) ltac:(lia) ltac:(lia)) as Hpe.
    assert (Hle : Zpos m ≤ 2 ^ (- e)).
    { replace (0 - b0) with (- e + (e - b0)) in Hbelow by lia.
      rewrite Z.pow_add_r in Hbelow by (unfold b0; lia).
      pose proof (Z.pow_pos_nonneg 2 (e - b0) ltac:(lia)
                    ltac:(unfold b0; lia)).
      apply Z.le_ngt. intros Hgt.
      assert ((2 ^ (- e) + 1) * 2 ^ (e - b0) ≤ Zpos m * 2 ^ (e - b0))
        by (apply Z.mul_le_mono_nonneg_r; lia).
      lia. }
    destruct (Z.eq_dec (Zpos m) (2 ^ (- e))) as [Heq|Hne].
    + right. rewrite Heq, Z.div_same, Z.mod_same by lia.
      assert (Hh : 0 < 2 ^ (- e - 1)) by (apply Z.pow_pos_nonneg; lia).
      change (255 <=? 1) with false. cbv iota.
      by destruct (Z.compare_spec 0 (2 ^ (- e - 1))); try lia.
    + rewrite Z.div_small, Z.mod_small by lia.
      change (255 <=? 0) with false. cbv iota.
      destruct (Zpos m ?= 2 ^ (- e - 1)); [by left|by left|by right].
Qed.

(** A source channel of 0 blended with a fill channel of 1 at an opacity
    from 0 to 1 is stored as 0 or 1. *)
Lemma blend_zero_one_unit (o : spec_float) :
  valid_binary 53 1024 o = true → in_unit_interval o = true →
  ToUint8Clamp (blend_channel F64.zero F64.one o) = Byte.x00 ∨
  ToUint8Clamp (blend_channel F64.zero F64.one o) = Byte.x01.
Proof.
  intros Hv Hu.
  destruct (unit_history_cases o (conj Hv Hu)) as [->|Hunit]; [by left|].
  destruct Hunit as [Hg Hbelow].
  destruct Hg as [->|(m & e & -> & Hb)]; [by left|].
  assert (Hg : good64 (S754_finite false m e)) by (right; by exists m, e).
  pose proof (below_magnitude 0 m e ltac:(unfold b0; lia) Hg Hbelow) as Hmag.
  unfold blend_channel. rewrite (mul_one_l m e Hg) by lia.
  destruct (mul_zero_shape (F64.sub F64.one (S754_finite false m e)))
    as [[s ->]| ->].
  - change (F64.add (S754_zero s) (S754_finite false m e))
      with (S754_finite false m e).
    by apply ToUint8Clamp_unit.
  - by left.
Qed.

(** *** The values the renderer holds *)

Lemma updateSettings_frame r u :
  canvas_width (updateSettings r u) = canvas_width r ∧
  canvas_height (updateSettings r u) = canvas_height r ∧
  prevMask (updateSettings r u) = prevMask r.
Proof. done. Qed.

Lemma updates_frame r (updates : list SettingsPatch) :
  canvas_width (foldl updateSettings r updates) = canvas_width r ∧
  canvas_height (foldl updateSettings r updates) = canvas_height r ∧
  prevMask (foldl updateSettings r updates) = prevMask r.
Proof.
  revert r. induction updates as [|u updates IH]; intros r; [done|].
  simpl. by destruct (IH (updateSettings r u)) as (-> & -> & ->).
Qed.

Lemma last_omap_cons {A B} (f : A → option B) (a : A) (l : list A) (d : B) :
  default d (last (omap f (a :: l)))
  = default (default d (f a)) (last (omap f l)).
Proof.
  change (omap f (a :: l))
    with (match f a with Some y => y :: omap f l | None => omap f l end).
  destruct (f a) as [v|]; [|done].
  rewrite last_cons. by destruct (last (omap f l)).
Qed.

(** After a sequence of updates a numeric setting holds the value of the
    last update that lists it. *)
Lemma updates_last r (updates : list SettingsPatch) :
  fillOpacity (settings (foldl updateSettings r updates))
  = default (fillOpacity (settings r)) (last (omap p_fillOpacity updates)) ∧
  smoothing (settings (foldl updateSettings r updates))
  = default (smoothing (settings r)) (last (omap p_smoothing updates)).
Proof.
  revert r. induction updates as [|u updates IH]; intros r; [done|].
  rewrite !last_omap_cons. simpl foldl.
  by destruct (IH (updateSettings r u)) as [-> ->].
Qed.

(** *** The compositor *)

(** A pixel whose mask cell is segmented, in a mode that fills: each
    colour channel is the blend of the source and the fill colour at the
    opacity the settings hold. *)
Lemma drawn_blend r videoData segmentation r' image outline :
  drawSegmentation r videoData segmentation = (r', Drew image outline) →
  fills (settings r) = true →
  ∃ data width height maskData,
    segmentation = Some (data, width, height) ∧
    process r data width height = (r', Some maskData) ∧
    ∀ y x, (y < canvas_height r)%nat → (x < canvas_width r)%nat →
      let i := mask_cell_of width (canvas_scaleX r width)
                 (canvas_scaleY r height) y x in
      let o := pixel_offset (canvas_width r) y x in
      get maskData i = Some Byte.x01 →
      ∀ R G B, hexToRGB (fillColor (settings r)) = (R, G, B) →
        image !! o
        = Some (ToUint8Clamp
                  (blend_channel (num_of_u8 (source_channel videoData i 0)) R
                     (fillOpacity (settings r)))) ∧
        image !! (o + 1)%nat
        = Some (ToUint8Clamp
                  (blend_channel (num_of_u8 (source_channel videoData i 1)) G
                     (fillOpacity (settings r)))) ∧
        image !! (o + 2)%nat
        = Some (ToUint8Clamp
                  (blend_channel (num_of_u8 (source_channel videoData i 2)) B
                     (fillOpacity (settings r)))).
Proof.
  intros H Hfills.
  apply drawn_image_lookup
    in H as (data & width & height & maskData & -> & Hp & _ & Hpix).
  exists data, width, height, maskData. split; [done|]. split; [done|].
  intros y x Hy Hx i o Hseg R G B HRGB.
  pose proof (Hpix y x 0%nat Hy Hx ltac:(lia)) as H0.
  pose proof (Hpix y x 1%nat Hy Hx ltac:(lia)) as H1.
  pose proof (Hpix y x 2%nat Hy Hx ltac:(lia)) as H2.
  rewrite Nat.add_0_r in H0. fold o in H0, H1, H2.
  unfold pixel_byte, channel in H0, H1, H2. fold i in H0, H1, H2.
  rewrite source_channel_0 in H0.
  rewrite HRGB, Hfills, Hseg in H0, H1, H2.
  destruct (hexToRGB (bgColor (settings r))) as [[bgR bgG] bgB].
  change (cell_is (Some Byte.x01) Byte.x01) with true in H0, H1, H2.
  by destruct (bgReplace (settings r)).
Qed.

(** C7, as the claim states it, fails.  After [updateSettings] is passed
    fillColor #010101 and fillOpacity 2, a segmented black pixel comes
    out as (2,2,2): each channel is the blend 0*(1-2) + 1*2, computed
    with the opacity as given.  No opacity from 0 to 1 gives this image:
    a channel would be 0 or 1.  After [updateSettings] is passed
    smoothing -2.5, the mask [1] followed by the mask [0] leaves -0.25 in
    the history, which is 1*(-0.25) + 0*(1.25): the factor is -2.5/10.
    No smoothing that is a non-negative integer leaves this history. *)
Lemma C7_counterexample_out_of_range_kept :
  let paint :=
    {| p_vizMode := None; p_colorMode := None;
       p_fillColor := Some "#010101"; p_outlineColor := None;
       p_bgColor := None; p_fillOpacity := Some (F64.of_Z 2);
       p_outlineThickness := None; p_showLabels := None;
       p_segmentationMode := None; p_bgReplace := None;
       p_smoothing := None |} in
  let frame := [Byte.x00; Byte.x00; Byte.x00; Byte.xff] in
  let person := Some ([Byte.x01], 1%nat, 1%nat) in
  let rough := numeric_patch None (Some (F64.lit (-5) 2)) in
  let two_frames (r : Renderer) (first second : list byte) :=
    smoothMask (smoothMask r first 1 1).1 second 1 1 in
  (drawSegmentation (updateSettings (new_Renderer 1 1) paint) frame person).2
  = Drew [Byte.x02; Byte.x02; Byte.x02; Byte.xff] [] ∧
  ¬ (∀ (updates : list SettingsPatch) (videoData : list byte)
       (segmentation : option (list byte * nat * nat)),
       let r := foldl updateSettings (new_Renderer 1 1) updates in
       ∃ o, valid_binary 53 1024 o = true ∧ in_unit_interval o = true ∧
         (drawSegmentation r videoData segmentation).2
         = (drawSegmentation (updateSettings r (numeric_patch (Some o) None))
              videoData segmentation).2) ∧
  prevMask (two_frames (updateSettings (new_Renderer 1 1) rough)
              [Byte.x01] [Byte.x00]).1
  = Some [F64.lit (-1) 4] ∧
  ¬ (∀ (updates : list SettingsPatch) (first second : list byte),
       let r := foldl updateSettings (new_Renderer 1 1) updates in
       ∃ k, is_natural k = true ∧
         let r_k := updateSettings r (numeric_patch None (Some k)) in
         prevMask (two_frames r first second).1
         = prevMask (two_frames r_k first second).1 ∧
         (two_frames r first second).2 = (two_frames r_k first second).2).
Proof.
  intros paint frame person rough two_frames.
  split; [by vm_compute|]. split; [|split; [by vm_compute|]].
  - intros H. specialize (H [paint] frame person). cbv zeta in H.
    destruct H as (o & Hv & Hu & Heq).
    assert (L : (drawSegmentation (foldl updateSettings (new_Renderer 1 1)
                                     [paint]) frame person).2
                = Drew [Byte.x02; Byte.x02; Byte.x02; Byte.xff] [])
      by (by vm_compute).
    rewrite L in Heq. clear L.
    set (r_o := updateSettings (foldl updateSettings (new_Renderer 1 1)
                                  [paint]) (numeric_patch (Some o) None))
      in Heq.
    destruct (drawSegmentation r_o frame person) as [r' out] eqn:Hd.
    cbn [snd] in Heq. subst out.
    destruct (drawn_blend r_o _ _ _ _ _ Hd eq_refl)
      as (data & w & h & maskData & Hseg & Hp & Hpix).
    injection Hseg as <- <- <-.
    assert (Hm : maskData = [Byte.x01]).
    { assert (Hq : (process r_o [Byte.x01] 1 1).2 = Some [Byte.x01])
        by (by vm_compute).
      rewrite Hp in Hq. by injection Hq. }
    subst maskData.
    specialize (Hpix 0%nat 0%nat ltac:(vm_compute; lia) ltac:(vm_compute; lia)).
    cbv zeta in Hpix.
    destruct (Hpix ltac:(by vm_compute) F64.one F64.one F64.one
                ltac:(by vm_compute)) as (H0 & _).
    change (Some Byte.x02
            = Some (ToUint8Clamp (blend_channel F64.zero F64.one o))) in H0.
    by destruct (blend_zero_one_unit o Hv Hu) as [E|E]; rewrite E in H0.
  - intros H. specialize (H [rough] [Byte.x01] [Byte.x00]). cbv zeta in H.
    destruct H as (k & Hk & Hh & _). unfold two_frames in Hh.
    assert (L : prevMask
                  (smoothMask
                     (smoothMask (foldl updateSettings (new_Renderer 1 1)
                                    [rough]) [Byte.x01] 1 1).1
                     [Byte.x00] 1 1).1
                = Some [F64.lit (-1) 4]) by (by vm_compute).
    rewrite L in Hh. clear L.
    set (r_k := updateSettings (foldl updateSettings (new_Renderer 1 1)
                                  [rough]) (numeric_patch None (Some k)))
      in Hh.
    assert (H1 : (smoothMask r_k [Byte.x01] 1 1).1
                 = set_prevMask r_k [F64.one]).
    { unfold smoothMask. change (prevMask r_k) with (@None (list spec_float)).
      by destruct (F64.eqb _ _). }
    rewrite H1 in Hh. clear H1.
    destruct (is_natural_shape k Hk) as [[s Ek]|(m & e & Ek)].
    + assert (H2 : prevMask (smoothMask (set_prevMask r_k [F64.one])
                               [Byte.x00] 1 1).1 = Some [F64.zero]).
      { unfold smoothMask, r_k. rewrite Ek. by destruct s. }
      rewrite H2 in Hh. discriminate Hh.
    + rewrite (smoothMask_blends _ [Byte.x00] 1 1 [F64.one]) in Hh;
        [| unfold r_k; by rewrite Ek | done | done].
      cbn [fst prevMask set_prevMask zip_with] in Hh.
      injection Hh as Hh.
      pose proof (cell_step_sign _ (div_ten_sign m e)) as Hs.
      rewrite Ek in Hh.
      change (F64.lit (-1) 4
              = cell_step (F64.div (S754_finite false m e) (F64.of_Z 10))
                  Byte.x00 F64.one) in Hh.
      rewrite <- Hh in Hs. vm_compute in Hs. discriminate Hs.
Qed.

(** C7, amended: after any sequence of settings updates the compositor
    and the mask processor use the values last passed to
    [updateSettings] (those held before when no update lists the key),
    whatever their range.  Each channel of a filled pixel is the blend
    vid*(1-o) + fill*o stored in the byte buffer, with o the fillOpacity
    last passed; the history blend uses the factor k/10 and the blur
    runs floor(k/3) passes, with k the smoothing last passed. *)
Theorem C7_settings_used_as_given (r : Renderer)
    (updates : list SettingsPatch) :
  let r' := foldl updateSettings r updates in
  let o := default (fillOpacity (settings r))
             (last (omap p_fillOpacity updates)) in
  let k := default (smoothing (settings r))
             (last (omap p_smoothing updates)) in
  (fillOpacity (settings r') = o ∧ smoothing (settings r') = k) ∧
  (∀ videoData segmentation r'' image outline,
     drawSegmentation r' videoData segmentation = (r'', Drew image outline) →
     fills (settings r') = true →
     ∃ data width height maskData,
       segmentation = Some (data, width, height) ∧
       process r' data width height = (r'', Some maskData) ∧
       ∀ y x, (y < canvas_height r)%nat → (x < canvas_width r)%nat →
         let i := mask_cell_of width (canvas_scaleX r width)
                    (canvas_scaleY r height) y x in
         let p := pixel_offset (canvas_width r) y x in
         get maskData i = Some Byte.x01 →
         ∀ R G B, hexToRGB (fillColor (settings r')) = (R, G, B) →
           image !! p
           = Some (ToUint8Clamp
                     (blend_channel
                        (num_of_u8 (source_channel videoData i 0)) R o)) ∧
           image !! (p + 1)%nat
           = Some (ToUint8Clamp
                     (blend_channel
                        (num_of_u8 (source_channel videoData i 1)) G o)) ∧
           image !! (p + 2)%nat
           = Some (ToUint8Clamp
                     (blend_channel
                        (num_of_u8 (source_channel videoData i 2)) B o))) ∧
  (∀ mask width height prev,
     prevMask r = Some prev → length prev = length mask →
     F64.eqb k F64.zero = false →
     smoothMask r' mask width height
     = (set_prevMask r'
          (zip_with (fun p c => cell_step (F64.div k (F64.of_Z 10)) c p)
             prev mask),
        zip_with (fun p c => cell_out (F64.div k (F64.of_Z 10)) c p)
          prev mask)) ∧
  (∀ mask width height,
     (process r' mask width height).2
     = blurMask (smoothMask r' mask width height).2 width height
         (F64.floor (F64.div k (F64.of_Z 3)))).
Proof.
  intros r' o k.
  destruct (updates_last r updates) as [Ho Hk]. fold r' o in Ho. fold r' k in Hk.
  destruct (updates_frame r updates) as (Hcw & Hch & Hprev).
  fold r' in Hcw, Hch, Hprev.
  split; [done|]. split; [|split].
  - intros videoData segmentation r'' image outline Hd Hfills.
    destruct (drawn_blend r' _ _ _ _ _ Hd Hfills)
      as (data & width & height & maskData & Hseg & Hp & Hpix).
    exists data, width, height, maskData. split; [done|]. split; [done|].
    unfold canvas_scaleX, canvas_scaleY in *.
    rewrite Hcw, Hch, Ho in Hpix. exact Hpix.
  - intros mask width height prev Hp Hlen Hk0.
    rewrite <- Hk in *. apply smoothMask_blends; [done| |done].
    by rewrite Hprev.
  - intros mask width height. unfold process.
    pose proof (smoothMask_frame r' mask width height) as (Hs & _).
    destruct (smoothMask r' mask width height) as [r1 m1].
    simpl in *. by rewrite Hs, Hk.
Qed.

(** The settings of the first counterexample: the pixel drawn is the
    blend at opacity 2. *)
Lemma C7_settings_used_witness :
  let paint :=
    {| p_vizMode := None; p_colorMode := None;
       p_fillColor := Some "#010101"; p_outlineColor := None;
       p_bgColor := None; p_fillOpacity := Some (F64.of_Z 2);
       p_outlineThickness := None; p_showLabels := None;
       p_segmentationMode := None; p_bgReplace := None;
       p_smoothing := None |} in
  ∃ r'' image outline,
    drawSegmentation (foldl updateSettings (new_Renderer 1 1) [paint])
      [Byte.x00; Byte.x00; Byte.x00; Byte.xff]
      (Some ([Byte.x01], 1%nat, 1%nat)) = (r'', Drew image outline) ∧
    image !! 0%nat
    = Some (ToUint8Clamp (blend_channel F64.zero F64.one (F64.of_Z 2))) ∧
    ToUint8Clamp (blend_channel F64.zero F64.one (F64.of_Z 2)) = Byte.x02.
Proof.
  intros paint.
  destruct (drawSegmentation (foldl updateSettings (new_Renderer 1 1) [paint])
              [Byte.x00; Byte.x00; Byte.x00; Byte.xff]
              (Some ([Byte.x01], 1%nat, 1%nat))) as [r'' drawn] eqn:Hd.
  assert (∃ image outline, drawn = Drew image outline)
    as (image & outline & ->).
  { vm_compute in Hd. injection Hd as <- <-. by eexists _, _. }
  exists r'', image, outline. split; [done|]. split; [|by vm_compute].
  destruct (C7_settings_used_as_given (new_Renderer 1 1) [paint])
    as (_ & Hdraw & _).
  destruct (Hdraw _ _ _ _ _ Hd eq_refl)
    as (data & width & height & maskData & Hseg & Hp & Hpix).
  injection Hseg as <- <- <-.
  vm_compute in Hp. injection Hp as <- <-.
  destruct (Hpix 0%nat 0%nat ltac:(vm_compute; lia) ltac:(vm_compute; lia)
              ltac:(by vm_compute) F64.one F64.one F64.one
              ltac:(by vm_compute)) as (H0 & _).
  exact H0.
Defined.
